(** * Order-management mock API (server.js): model and verified properties

    The development follows server.js top to bottom: the JavaScript values
    the handlers manipulate (JSON bodies, IEEE-754 numbers, strings), the
    two process-wide maps, the middleware chain of each route, and the
    route handlers.  Every route is a function from the current store and
    the parsed request to the new store and the response. *)

From Stdlib Require Import ZArith QArith Qround SpecFloat Ascii String Sorted.
From stdpp Require Import base option list strings gmap.

Local Open Scope Z_scope.

(** ** JavaScript numbers

    A JavaScript number is an IEEE-754 binary64 value.  [spec_float] is the
    standard library's bit-exact specification of such values; all
    arithmetic below is instantiated at 53 bits of precision. *)

Module Num.

Definition prec : Z := 53.
Definition emax : Z := 1024.

Abbreviation num := spec_float.

Definition NaN : num := S754_nan.
Definition zero : num := S754_zero false.

Definition mul : num → num → num := SFmul prec emax.
Definition add : num → num → num := SFadd prec emax.
Definition ltb : num → num → bool := SFltb.
Definition leb : num → num → bool := SFleb.

(** The number nearest to an integer (an integer literal in the source,
    such as [20] or [100]). *)
Definition of_Z (z : Z) : num := binary_normalize prec emax z 0 false.

(** The number nearest to the fraction [n / d], negated when [s] is set:
    the value of a decimal text such as "75.48" read as [7548 / 100].
    The division is correctly rounded for operands of any size. *)
Definition of_ratio (s : bool) (n d : positive) : num :=
  SFdiv prec emax (S754_finite s n 0) (S754_finite false d 0).

(** The number denoted by the decimal literal [n * 10^-k]. *)
Definition dec (n : Z) (k : nat) : num :=
  match n with
  | Z0 => zero
  | Zpos p => of_ratio false p (Z.to_pos (10 ^ Z.of_nat k))
  | Zneg p => of_ratio true p (Z.to_pos (10 ^ Z.of_nat k))
  end.

Definition is_nan (x : num) : bool :=
  match x with S754_nan => true | _ => false end.

Definition is_zero (x : num) : bool :=
  match x with S754_zero _ => true | _ => false end.

(** [Math.min] of two numbers: NaN if either is NaN, and -0 below +0. *)
Definition Math_min (a b : num) : num :=
  if is_nan a || is_nan b then NaN
  else if ltb a b then a
  else if ltb b a then b
  else match a with S754_zero true => a | _ => b end.

(** Integers extended with the two infinities, the result of the
    ToIntegerOrInfinity conversion applied to array indices. *)
Inductive int_or_inf := NegInf | Fin (z : Z) | PosInf.

Definition ToIntegerOrInfinity (x : num) : int_or_inf :=
  match x with
  | S754_nan => Fin 0
  | S754_zero _ => Fin 0
  | S754_infinity true => NegInf
  | S754_infinity false => PosInf
  | S754_finite s m e =>
      let a := match e with
               | Zneg p => Zpos m / 2 ^ Zpos p
               | _ => Zpos m * 2 ^ e
               end in
      Fin (if s then - a else a)
  end.

(** *** [Number(x.toFixed(2))]

    For a finite [x] below 10^21 in magnitude, [toFixed(2)] prints the
    integer [n] for which [n / 100 - |x|] is as close to zero as
    possible, the larger one if there are two, with the decimal point
    before the last two digits and the sign of [x] in front; [Number]
    reads that text back as the nearest number.  From 10^21 on, and for
    NaN and the infinities, [toFixed] prints [x] as [String(x)] does and
    [Number] reads [x] back. *)

(** The candidates are [lo = floor(100 |x|)] and [lo + 1]; [lo + 1] is
    chosen when it is at least as close.  With |x| = m * 2^e and
    [e < 0], distances are compared after scaling by [2^-e]. *)
Definition toFixed2_digits (m : positive) (e : Z) : Z :=
  match e with
  | Zneg p =>
      let scale := 2 ^ Zpos p in
      let lo := 100 * Zpos m / scale in
      let below := 100 * Zpos m - lo * scale in
      let above := (lo + 1) * scale - 100 * Zpos m in
      if above <=? below then lo + 1 else lo
  | _ => 100 * Zpos m * 2 ^ e
  end.

(** Whether [m * 2^e] is at least 10^21. *)
Definition at_least_1e21 (m : positive) (e : Z) : bool :=
  match e with
  | Zneg p => 10 ^ 21 * 2 ^ Zpos p <=? Zpos m
  | _ => 10 ^ 21 <=? Zpos m * 2 ^ e
  end.

Definition toFixed2_Number (x : num) : num :=
  match x with
  | S754_zero _ => zero
  | S754_finite s m e =>
      if at_least_1e21 m e then x
      else match toFixed2_digits m e with
           | Zpos n => of_ratio s n 100
           | _ => S754_zero s
           end
  | _ => x
  end.

(** A zero or a positive number below 10^21: an amount that [toFixed(2)]
    prints in fixed notation without a sign. *)
Definition roundable (x : num) : bool :=
  match x with
  | S754_zero _ => true
  | S754_finite false m e => negb (at_least_1e21 m e)
  | _ => false
  end.

(** The rational number that a finite [x] stands for (0 for NaN and the
    infinities, which stand for none). *)
Definition to_Q (x : num) : Q :=
  match x with
  | S754_finite s m e =>
      let a := match e with
               | Zneg p => Qmake (Zpos m) (2 ^ p)%positive
               | _ => inject_Z (Zpos m * 2 ^ e)
               end in
      if s then Qopp a else a
  | _ => inject_Z 0
  end.

End Num.

Export Num(num).

(** ** JSON values and JavaScript coercions *)

(** A parsed JSON document.  An object keeps its members in source order;
    [JSON.parse] lets a later duplicate key override an earlier one. *)
#[local] Unset Elimination Schemes.
Inductive json :=
| JNull
| JBool (b : bool)
| JNum (x : num)
| JStr (s : string)
| JArr (l : list json)
| JObj (members : list (string * json)).
#[local] Set Elimination Schemes.

(** A JavaScript value read from a request: a JSON value or [undefined]. *)
Abbreviation value := (option json).
Abbreviation undefined := (@None json).

(** The request body delivered by [express.json()]: the members of the
    parsed object ([{}] when there is no body).  An array body has none of
    the properties the handlers read and behaves as [{}]. *)
Abbreviation object := (list (string * json)).

(** [obj[k]] for an object built by [JSON.parse]. *)
Fixpoint lookup_prop (k : string) (members : object) : value :=
  match members with
  | [] => undefined
  | (k', v) :: rest =>
      match lookup_prop k rest with
      | Some v' => Some v'
      | None => if decide (k = k') then Some v else undefined
      end
  end.

(** [v.k] for one of the property names read by the handlers.  Reading a
    property of [null] raises a TypeError ([None]); numbers, booleans,
    strings and arrays have no such property. *)
Definition get_prop (v : json) (k : string) : option value :=
  match v with
  | JNull => None
  | JObj members => Some (lookup_prop k members)
  | _ => Some undefined
  end.

(** Truthiness, as tested by [!v] and [if (v)]. *)
Definition truthy (v : value) : bool :=
  match v with
  | None => false
  | Some JNull => false
  | Some (JBool b) => b
  | Some (JNum x) => negb (Num.is_zero x || Num.is_nan x)
  | Some (JStr s) => negb (bool_decide (s = ""))
  | Some (JArr _) | Some (JObj _) => true
  end.

Definition truthy_str (s : option string) : bool :=
  match s with
  | Some s => negb (bool_decide (s = ""))
  | None => false
  end.

(** Functions of the JavaScript runtime that the handlers call and whose
    results are not fixed by this program: the numeric value of a string
    ([StringToNumber]) and of an array or object ([ToNumber_object],
    [None] when the conversion raises a TypeError), [parseInt] on a string
    and the time value of a date text ([Date_parse], [None] for an invalid
    date). *)
Class Runtime := {
  StringToNumber : string → num;
  ToNumber_object : json → option num;
  parseInt : string → num;
  Date_parse : string → option Z;
}.

Section Coercions.
Context `{Runtime}.

(** [ToNumber v], the conversion applied by [*], [<] and [<=]. *)
Definition ToNumber (v : value) : option num :=
  match v with
  | None => Some Num.NaN
  | Some JNull => Some Num.zero
  | Some (JBool b) => Some (Num.of_Z (if b then 1 else 0))
  | Some (JNum x) => Some x
  | Some (JStr s) => Some (StringToNumber s)
  | Some (JArr l) => ToNumber_object (JArr l)
  | Some (JObj m) => ToNumber_object (JObj m)
  end.
End Coercions.

(** ** The data model *)

(** A line item as [createOrder] stores it: the three properties copied
    from the request item. *)
Module Item.
Record t := {
  productId : value;
  quantity : value;
  unitPrice : value;
}.
End Item.
Abbreviation Item := Item.t.

(** An order record.  [placementDate] and [lastUpdated] hold the time value
    (milliseconds since the epoch) of the instant that the source stores as
    its ISO text, [new Date().toISOString()], and reads back with
    [new Date(text)]; the two conversions are inverse to each other.
    [statusReason] is absent ([undefined]) until a status update sets it. *)
Module Order.
Record t := {
  orderId : string;
  customerId : value;
  placementDate : Z;
  lastUpdated : Z;
  status : string;
  items : list Item;
  totalAmount : num;
  statusReason : value;
}.
End Order.
Abbreviation Order := Order.t.

(** *** JavaScript [Map] keyed by strings

    [orders] is iterated by the search route, and a [Map] iterates in
    insertion order, so it is kept as an association list without
    duplicate keys: [set] on a present key replaces the value in place, on
    a new key it appends. *)
Module JsMap.
Section Ops.
Context {V : Type}.

Fixpoint get (k : string) (m : list (string * V)) : option V :=
  match m with
  | [] => None
  | (k', v) :: rest => if decide (k = k') then Some v else get k rest
  end.

Definition has (k : string) (m : list (string * V)) : bool :=
  bool_decide (is_Some (get k m)).

Fixpoint set (k : string) (v : V) (m : list (string * V)) : list (string * V) :=
  match m with
  | [] => [(k, v)]
  | (k', v') :: rest =>
      if decide (k = k') then (k, v) :: rest else (k', v') :: set k v rest
  end.

Definition values (m : list (string * V)) : list V := m.*2.
End Ops.
End JsMap.

(** The process-wide storage: [orders] and [idempotencyKeys].  The ledger
    is keyed by the value of the [Idempotency-Key] header, which is a
    string or, when the header is absent, [undefined]. *)
Record Store := {
  orders : list (string * Order);
  idempotencyKeys : gmap (option string) string;
}.

Definition empty_store : Store :=
  {| orders := []; idempotencyKeys := ∅ |}.

(** ** Requests and responses *)

Record Headers := {
  authorization : option string;
  idempotency_key : option string;
}.

(** The query string of the search route.  Each parameter is absent or a
    single string (repeated and bracketed parameters, which the query
    parser turns into arrays and objects, are not modelled). *)
Record Query := {
  q_customerId : option string;
  q_startDate : option string;
  q_endDate : option string;
  q_limit : option string;
  q_offset : option string;
}.

Inductive Request :=
| GET_health
| POST_orders (h : Headers) (body : object)
| GET_order (h : Headers) (id : string)
| GET_orders (h : Headers) (q : Query)
| PATCH_status (h : Headers) (id : string) (body : object).

Inductive Body :=
| ErrorBody (error message : string)
| OrderBody (o : Order)
| EmptyBody
| SearchBody (found : list Order) (totalCount : nat) (limit offset : num)
| HealthBody (timestamp : Z).

Record Response := {
  status_code : Z;
  payload : Body;
}.

Definition respond (c : Z) (b : Body) : Response :=
  {| status_code := c; payload := b |}.

(** What the outside world supplies to one request: the clock reading of
    [new Date()] and the string produced by [uuidv4()]. *)
Record Env := {
  now : Z;
  uuid : string;
}.

(** *** Control flow of a middleware or handler

    A middleware either continues ([Next], the call of [next()] or falling
    through to the following statement), sends a response and stops
    ([Send]), or raises an exception ([Throw]). *)
Inductive Step (A : Type) :=
| Next (a : A)
| Send (r : Response)
| Throw.
Arguments Next {A} a.
Arguments Send {A} r.
Arguments Throw {A}.

#[global] Instance Step_ret : MRet Step := @Next.
#[global] Instance Step_bind : MBind Step := λ A B f m,
  match m with
  | Next a => f a
  | Send r => Send r
  | Throw => Throw
  end.

(** An optional result whose absence is a raised exception. *)
Definition or_throw {A} (o : option A) : Step A :=
  match o with Some a => Next a | None => Throw end.

(** [if (c) return res.status(...).json(...)]. *)
Definition reject_if (c : bool) (r : Response) : Step () :=
  if c then Send r else Next ().

(** The error-handling middleware registered last: an exception that
    escapes a route becomes a 500. *)
Definition error_middleware : Response :=
  respond 500 (ErrorBody "INTERNAL_ERROR" "An unexpected error occurred").

Definition finish (m : Step Response) : Response :=
  match m with
  | Next r => r
  | Send r => r
  | Throw => error_middleware
  end.

(** ** Small pieces of the JavaScript library *)

(** [s.split(c)] for a one-character separator. *)
Fixpoint split (c : ascii) (s : string) : list string :=
  match s with
  | EmptyString => [EmptyString]
  | String a rest =>
      if decide (a = c) then EmptyString :: split c rest
      else match split c rest with
           | piece :: pieces => String a piece :: pieces
           | [] => [String a EmptyString]
           end
  end.

Definition isArray (v : value) : bool :=
  match v with Some (JArr _) => true | _ => false end.

(** The elements of an array value; [None] for anything else, on which
    [.map] and [.reduce] are not functions. *)
Definition elements (v : value) : option (list json) :=
  match v with Some (JArr l) => Some l | _ => None end.

(** [l.includes(v)] for a list of strings: only a string equal to a member
    is found, and the result is that member. *)
Definition includes (l : list string) (v : value) : option string :=
  match v with
  | Some (JStr s) => if decide (s ∈ l) then Some s else None
  | _ => None
  end.

(** [a === s] between a stored value and a string. *)
Definition strict_eq_string (a : value) (s : string) : bool :=
  match a with
  | Some (JStr s') => bool_decide (s' = s)
  | _ => false
  end.

(** [for (const x of l) { f(x) }], leaving at the first response or
    exception. *)
Fixpoint for_of {A} (f : A → Step ()) (l : list A) : Step () :=
  match l with
  | [] => Next ()
  | x :: rest => f x;; for_of f rest
  end.

(** [l.map(f)] where [f] may raise. *)
Fixpoint map_step {A B} (f : A → Step B) (l : list A) : Step (list B) :=
  match l with
  | [] => Next []
  | x :: rest => y ← f x; ys ← map_step f rest; Next (y :: ys)
  end.

(** [l.reduce(f, init)] where [f] may raise. *)
Fixpoint reduce_step {A B} (f : B → A → Step B) (init : B) (l : list A) : Step B :=
  match l with
  | [] => Next init
  | x :: rest => acc ← f init x; reduce_step f acc rest
  end.

(** [l.sort(cmp)]: the sort is stable, and for a comparator that orders
    the elements consistently its result is the unique stable arrangement,
    computed here by insertion from the right. *)
Fixpoint sort_insert {A} (cmp : A → A → Z) (x : A) (l : list A) : list A :=
  match l with
  | [] => [x]
  | y :: rest => if cmp x y <=? 0 then x :: y :: rest else y :: sort_insert cmp x rest
  end.

Fixpoint sort {A} (cmp : A → A → Z) (l : list A) : list A :=
  match l with
  | [] => []
  | x :: rest => sort_insert cmp x (sort cmp rest)
  end.

(** [l.slice(start, end)]: each bound is converted to an integer or an
    infinity, a negative bound counts from the end, and both are clamped
    to the range of the list. *)
Definition slice_bound (len : Z) (i : Num.int_or_inf) : Z :=
  match i with
  | Num.NegInf => 0
  | Num.Fin z => if z <? 0 then Z.max (len + z) 0 else Z.min z len
  | Num.PosInf => len
  end.

Definition slice {A} (l : list A) (start stop : num) : list A :=
  let len := Z.of_nat (length l) in
  let k := slice_bound len (Num.ToIntegerOrInfinity start) in
  let final := slice_bound len (Num.ToIntegerOrInfinity stop) in
  take (Z.to_nat (final - k)) (drop (Z.to_nat k) l).

(** ** server.js *)

(** The table of permitted status changes.  Looking up a status that is
    not one of its keys yields [undefined]. *)
Definition STATUS_TRANSITIONS : list (string * list string) :=
  [ ("pending", ["confirmed"; "cancelled"]);
    ("confirmed", ["processing"; "cancelled"]);
    ("processing", ["shipped"; "cancelled"]);
    ("shipped", ["delivered"]);
    ("delivered", []);
    ("cancelled", []) ]%string.

Definition validStatuses : list string :=
  ["pending"; "confirmed"; "processing"; "shipped"; "delivered"; "cancelled"]%string.

Definition validation_error (message : string) : Response :=
  respond 400 (ErrorBody "VALIDATION_ERROR" message).

(** *** Auth middleware *)

Definition authenticateToken (h : Headers) : Step () :=
  let authHeader := authorization h in
  let token :=
    if truthy_str authHeader
    then s ← authHeader; split " " s !! 1%nat
    else authHeader in
  reject_if (negb (truthy_str token))
    (respond 401 (ErrorBody "UNAUTHORIZED" "Authentication token is required"));;
  reject_if (bool_decide (String.length <$> token = Some 0%nat))
    (respond 401 (ErrorBody "UNAUTHORIZED" "Invalid authentication token")).

Section Server.
Context `{Runtime}.

(** *** Validation middleware *)

(** The body of the loop over the items.  The three property reads fail
    together, on a [null] item; [unitPrice] is converted to a number only
    when the test on [quantity] is false. *)
Definition validate_item (item : json) : Step () :=
  productId ← or_throw (get_prop item "productId");
  quantity ← or_throw (get_prop item "quantity");
  unitPrice ← or_throw (get_prop item "unitPrice");
  reject_if (negb (truthy productId) || negb (truthy quantity) || negb (truthy unitPrice))
    (validation_error "Each item must have productId, quantity, and unitPrice");;
  q ← or_throw (ToNumber quantity);
  if Num.leb q Num.zero
  then Send (validation_error "Quantity must be positive and unitPrice must be non-negative")
  else
    p ← or_throw (ToNumber unitPrice);
    reject_if (Num.ltb p Num.zero)
      (validation_error "Quantity must be positive and unitPrice must be non-negative").

Definition validateCreateOrder (h : Headers) (body : object) : Step () :=
  let customerId := lookup_prop "customerId" body in
  let items := lookup_prop "items" body in
  let idempotencyKey := idempotency_key h in
  reject_if (negb (truthy_str idempotencyKey))
    (validation_error "Idempotency-Key header is required");;
  reject_if (negb (truthy customerId))
    (validation_error "Customer ID is required");;
  reject_if (negb (truthy items) || negb (isArray items)
             || bool_decide (length <$> elements items = Some 0%nat))
    (validation_error "At least one item is required");;
  for_of validate_item (default [] (elements items)).

(** *** Utility functions *)

Definition calculateTotal (items : list json) : Step num :=
  reduce_step (λ total item,
      quantity ← or_throw (get_prop item "quantity");
      unitPrice ← or_throw (get_prop item "unitPrice");
      q ← or_throw (ToNumber quantity);
      p ← or_throw (ToNumber unitPrice);
      Next (Num.add total (Num.mul q p)))
    Num.zero items.

Definition copy_item (item : json) : Step Item :=
  productId ← or_throw (get_prop item "productId");
  quantity ← or_throw (get_prop item "quantity");
  unitPrice ← or_throw (get_prop item "unitPrice");
  Next {| Item.productId := productId; Item.quantity := quantity;
          Item.unitPrice := unitPrice |}.

(** [createOrder(customerId, items, orderId = null)].  The order object is
    built completely, which is where an exception can arise, before it is
    put into [orders]. *)
Definition createOrder (env : Env) (customerId items : value) (orderId : option string)
    (st : Store) : Step (Store * Order) :=
  let id := if truthy_str orderId then default "" orderId else "ord-" +:+ uuid env in
  let now := now env in
  array ← or_throw (elements items);
  copied ← map_step copy_item array;
  total ← calculateTotal array;
  let order := {|
    Order.orderId := id;
    Order.customerId := customerId;
    Order.placementDate := now;
    Order.lastUpdated := now;
    Order.status := "pending";
    Order.items := copied;
    Order.totalAmount := Num.toFixed2_Number total;
    Order.statusReason := undefined;
  |} in
  Next ({| orders := JsMap.set id order (orders st);
           idempotencyKeys := idempotencyKeys st |}, order).

(** *** Routes *)

(** [GET /api/v1/health]. *)
Definition health_handler (env : Env) : Response :=
  respond 200 (HealthBody (now env)).

(** [POST /api/v1/orders], after the two middlewares.  An exception in
    [createOrder] is caught by the handler's own [try]. *)
Definition create_handler (env : Env) (st : Store) (h : Headers) (body : object)
    : Store * Response :=
  let customerId := lookup_prop "customerId" body in
  let items := lookup_prop "items" body in
  let idempotencyKey := idempotency_key h in
  match idempotencyKeys st !! idempotencyKey with
  | Some existingOrderId =>
      let existingOrder := JsMap.get existingOrderId (orders st) in
      (st, respond 200 (from_option OrderBody EmptyBody existingOrder))
  | None =>
      match createOrder env customerId items None st with
      | Next (st', order) =>
          ({| orders := orders st';
              idempotencyKeys := <[idempotencyKey := Order.orderId order]> (idempotencyKeys st') |},
           respond 201 (OrderBody order))
      | _ => (st, respond 500 (ErrorBody "INTERNAL_ERROR" "Failed to create order"))
      end
  end.

(** [GET /api/v1/orders/:orderId]. *)
Definition get_handler (st : Store) (id : string) : Response :=
  if negb (JsMap.has id (orders st))
  then respond 404 (ErrorBody "NOT_FOUND" "Order not found")
  else respond 200 (from_option OrderBody EmptyBody (JsMap.get id (orders st))).

(** [GET /api/v1/orders]: the orders that pass the customer and date
    filters, newest first, before pagination. *)
Definition by_placement_desc (a b : Order) : Z :=
  Order.placementDate b - Order.placementDate a.

Definition search_filter (st : Store) (q : Query) : Step (list Order) :=
  let customerId := q_customerId q in
  let startDate := q_startDate q in
  let endDate := q_endDate q in
  reject_if (negb (truthy_str customerId))
    (validation_error "Customer ID is required");;
  let filteredOrders :=
    filter (λ order, strict_eq_string (Order.customerId order) (default "" customerId))
      (JsMap.values (orders st)) in
  filteredOrders ←
    (if truthy_str startDate then
       match Date_parse (default "" startDate) with
       | None => Send (validation_error "Invalid start date format")
       | Some start =>
           Next (filter (λ order, start <=? Order.placementDate order) filteredOrders)
       end
     else Next filteredOrders);
  filteredOrders ←
    (if truthy_str endDate then
       match Date_parse (default "" endDate +:+ "T23:59:59.999Z") with
       | None => Send (validation_error "Invalid end date format")
       | Some end_ =>
           Next (filter (λ order, Order.placementDate order <=? end_) filteredOrders)
       end
     else Next filteredOrders);
  Next (sort by_placement_desc filteredOrders).

Definition search_handler (st : Store) (q : Query) : Step Response :=
  filteredOrders ← search_filter st q;
  let totalCount := length filteredOrders in
  let limitNum :=
    Num.Math_min (from_option parseInt (Num.of_Z 20) (q_limit q)) (Num.of_Z 100) in
  let offsetNum := from_option parseInt (Num.of_Z 0) (q_offset q) in
  let paginatedOrders :=
    slice filteredOrders offsetNum (Num.add offsetNum limitNum) in
  Next (respond 200 (SearchBody paginatedOrders totalCount limitNum offsetNum)).

(** [PATCH /api/v1/orders/:orderId/status]. *)
Definition update_handler (env : Env) (st : Store) (id : string) (body : object)
    : Step (Store * Response) :=
  let status := lookup_prop "status" body in
  let reason := lookup_prop "reason" body in
  reject_if (negb (JsMap.has id (orders st)))
    (respond 404 (ErrorBody "NOT_FOUND" "Order not found"));;
  reject_if (negb (truthy status))
    (validation_error "Status is required");;
  match includes validStatuses status with
  | None =>
      Send (validation_error
              ("Invalid status. Must be one of: " +:+ String.concat ", " validStatuses))
  | Some status =>
      order ← or_throw (JsMap.get id (orders st));
      let currentStatus := Order.status order in
      allowed ← or_throw (JsMap.get currentStatus STATUS_TRANSITIONS);
      if negb (bool_decide (status ∈ allowed)) then
        Send (respond 409 (ErrorBody "INVALID_STATUS_TRANSITION"
               ("Cannot transition from " +:+ currentStatus +:+ " to " +:+ status)))
      else
        let order := {|
          Order.orderId := Order.orderId order;
          Order.customerId := Order.customerId order;
          Order.placementDate := Order.placementDate order;
          Order.lastUpdated := now env;
          Order.status := status;
          Order.items := Order.items order;
          Order.totalAmount := Order.totalAmount order;
          Order.statusReason :=
            if truthy reason then reason else Order.statusReason order;
        |} in
        Next ({| orders := JsMap.set id order (orders st);
                 idempotencyKeys := idempotencyKeys st |},
              respond 200 (OrderBody order))
  end.

(** One request against the running server: the middleware chain of the
    matched route, then its handler.  A response sent by a middleware, or
    an exception passed on to the error middleware, ends the request with
    the store as it was. *)
Definition handle (env : Env) (st : Store) (req : Request) : Store * Response :=
  match req with
  | GET_health => (st, health_handler env)
  | POST_orders h body =>
      match authenticateToken h;; validateCreateOrder h body with
      | Next _ => create_handler env st h body
      | Send r => (st, r)
      | Throw => (st, error_middleware)
      end
  | GET_order h id =>
      match authenticateToken h with
      | Next _ => (st, get_handler st id)
      | Send r => (st, r)
      | Throw => (st, error_middleware)
      end
  | GET_orders h q =>
      (st, finish (authenticateToken h;; search_handler st q))
  | PATCH_status h id body =>
      match authenticateToken h;; update_handler env st id body with
      | Next result => result
      | Send r => (st, r)
      | Throw => (st, error_middleware)
      end
  end.

(** *** The body parser

    [app.use(express.json())] comes before every route.  A request
    reaches its route, and the auth middleware, with its body parsed.  A
    request whose body the parser cannot read reaches neither: the parser
    passes an error on to the error-handling middleware, whatever the
    route and the headers of the request are. *)
Inductive Route :=
| Health_route | Create_route | Lookup_route | Search_route | Update_route.

Definition route_of (req : Request) : Route :=
  match req with
  | GET_health => Health_route
  | POST_orders _ _ => Create_route
  | GET_order _ _ => Lookup_route
  | GET_orders _ _ => Search_route
  | PATCH_status _ _ _ => Update_route
  end.

Inductive Incoming :=
| Parsed (req : Request)
| Unparseable (route : Route) (h : Headers).

Definition incoming_route (inc : Incoming) : Route :=
  match inc with
  | Parsed req => route_of req
  | Unparseable route _ => route
  end.

(** One request against the running server, from the body parser on. *)
Definition serve (env : Env) (st : Store) (inc : Incoming) : Store * Response :=
  match inc with
  | Parsed req => handle env st req
  | Unparseable _ _ => (st, error_middleware)
  end.

(** *** Seed data *)

Definition sample_item (product : string) (qty : Z) (price : num) : json :=
  JObj [("productId", JStr product); ("quantity", JNum (Num.of_Z qty));
        ("unitPrice", JNum price)]%string.

Definition sampleOrders : list (value * value) :=
  [ (Some (JStr "cust-12345"),
     Some (JArr [sample_item "prod-001" 2 (Num.dec 2999 2);
                 sample_item "prod-002" 1 (Num.dec 1550 2)]));
    (Some (JStr "cust-12345"),
     Some (JArr [sample_item "prod-003" 1 (Num.dec 9999 2)]));
    (Some (JStr "cust-67890"),
     Some (JArr [sample_item "prod-001" 3 (Num.dec 2999 2)])) ].

(** One round of the [forEach] in [seedData]: create the order, overwrite
    the status of the second and third, and store it again. *)
Definition seed_one (index : nat) (env : Env) (orderData : value * value) (st : Store)
    : Step Store :=
  '(st', order) ← createOrder env orderData.1 orderData.2 None st;
  let status :=
    if decide (index = 1%nat) then "confirmed"
    else if decide (index = 2%nat) then "shipped"
    else Order.status order in
  let order := {|
    Order.orderId := Order.orderId order;
    Order.customerId := Order.customerId order;
    Order.placementDate := Order.placementDate order;
    Order.lastUpdated := Order.lastUpdated order;
    Order.status := status;
    Order.items := Order.items order;
    Order.totalAmount := Order.totalAmount order;
    Order.statusReason := Order.statusReason order;
  |} in
  Next {| orders := JsMap.set (Order.orderId order) order (orders st');
          idempotencyKeys := idempotencyKeys st' |}.

(** [seedData()], given the clock reading and identifier of each of its
    three [createOrder] calls. *)
Definition seedData (e0 e1 e2 : Env) (st : Store) : Step Store :=
  match sampleOrders with
  | [d0; d1; d2] =>
      st ← seed_one 0 e0 d0 st;
      st ← seed_one 1 e1 d1 st;
      seed_one 2 e2 d2 st
  | _ => Next st
  end.

End Server.

(** ** A runtime for worked examples

    An instance of [Runtime] that agrees with JavaScript on plain texts:
    [parseInt] reads leading blanks, a sign, an optional [0x] and the
    longest run of digits; [StringToNumber] reads the empty text as 0 and
    an unsigned run of decimal digits as its value; [Date_parse] reads
    [YYYY-MM-DD], alone (midnight UTC) or followed by [THH:MM:SS.sssZ].
    Any other text is NaN or an invalid date, and a plain object or an
    array of several elements converts to NaN. *)
Module Sample.

Definition digit_value (radix : Z) (a : ascii) : option Z :=
  let c := Z.of_N (N_of_ascii a) in
  let v := if (48 <=? c) && (c <=? 57) then c - 48
           else if (97 <=? c) && (c <=? 102) then c - 87
           else if (65 <=? c) && (c <=? 70) then c - 55
           else radix in
  if v <? radix then Some v else None.

(** The value of the longest run of digits at the front of [s], and what
    follows it; [None] when [s] does not start with a digit. *)
Fixpoint read_digits (radix : Z) (acc : option Z) (s : string) : option Z * string :=
  match s with
  | EmptyString => (acc, s)
  | String a rest =>
      match digit_value radix a with
      | Some v => read_digits radix (Some (radix * default 0 acc + v)) rest
      | None => (acc, s)
      end
  end.

Definition is_blank (a : ascii) : bool :=
  let c := Z.of_N (N_of_ascii a) in
  (c =? 32) || ((9 <=? c) && (c <=? 13)).

Fixpoint skip_blanks (s : string) : string :=
  match s with
  | String a rest => if is_blank a then skip_blanks rest else s
  | EmptyString => s
  end.

Definition parseInt (s : string) : num :=
  let s := skip_blanks s in
  let '(negative, s) :=
    match s with
    | String "-" rest => (true, rest)
    | String "+" rest => (false, rest)
    | _ => (false, s)
    end in
  let '(radix, s) :=
    match s with
    | String "0" (String "x" rest) | String "0" (String "X" rest) => (16, rest)
    | _ => (10, s)
    end in
  match read_digits radix None s with
  | (Some 0, _) => S754_zero negative
  | (Some z, _) => Num.of_Z (if negative then - z else z)
  | (None, _) => Num.NaN
  end.

Definition StringToNumber (s : string) : num :=
  match s, read_digits 10 None s with
  | EmptyString, _ => Num.zero
  | _, (Some z, EmptyString) => Num.of_Z z
  | _, _ => Num.NaN
  end.

(** Exactly [n] decimal digits at the front of [s]. *)
Fixpoint read_fixed (n : nat) (acc : Z) (s : string) : option (Z * string) :=
  match n, s with
  | O, _ => Some (acc, s)
  | S n, String a rest =>
      v ← digit_value 10 a; read_fixed n (10 * acc + v) rest
  | S _, EmptyString => None
  end.

Definition expect (c : ascii) (s : string) : option string :=
  match s with
  | String a rest => if decide (a = c) then Some rest else None
  | EmptyString => None
  end.

Definition days_in_month (y m : Z) : Z :=
  if m =? 2 then
    if ((y mod 4 =? 0) && negb (y mod 100 =? 0)) || (y mod 400 =? 0) then 29 else 28
  else if (m =? 4) || (m =? 6) || (m =? 9) || (m =? 11) then 30 else 31.

(** Days from 1970-01-01 to the given day of the proleptic Gregorian
    calendar. *)
Definition days_from_civil (y m d : Z) : Z :=
  let y := if m <=? 2 then y - 1 else y in
  let era := y / 400 in
  let yoe := y - era * 400 in
  let doy := (153 * (if 2 <? m then m - 3 else m + 9) + 2) / 5 + d - 1 in
  let doe := yoe * 365 + yoe / 4 - yoe / 100 + doy in
  era * 146097 + doe - 719468.

Definition read_time (s : string) : option Z :=
  s ← expect "T" s;
  '(hh, s) ← read_fixed 2 0 s; s ← expect ":" s;
  '(mm, s) ← read_fixed 2 0 s; s ← expect ":" s;
  '(ss, s) ← read_fixed 2 0 s; s ← expect "." s;
  '(ms, s) ← read_fixed 3 0 s; s ← expect "Z" s;
  if bool_decide (s = EmptyString) && (hh <? 24) && (mm <? 60) && (ss <? 60)
  then Some (((hh * 60 + mm) * 60 + ss) * 1000 + ms) else None.

Definition Date_parse (s : string) : option Z :=
  '(y, s) ← read_fixed 4 0 s; s ← expect "-" s;
  '(m, s) ← read_fixed 2 0 s; s ← expect "-" s;
  '(d, s) ← read_fixed 2 0 s;
  if (1 <=? m) && (m <=? 12) && (1 <=? d) && (d <=? days_in_month y m) then
    let day := days_from_civil y m d * 86400000 in
    match s with
    | EmptyString => Some day
    | _ => t ← read_time s; Some (day + t)
    end
  else None.

(** An array converts through its text, the texts of its elements joined
    by commas: the empty array as "", an array of one element as that
    element. *)
Fixpoint ToNumber_object (v : json) : option num :=
  match v with
  | JArr [] => Some Num.zero
  | JArr [x] =>
      match x with
      | JNull => Some Num.zero
      | JNum n => Some (if Num.is_zero n then Num.zero else n)
      | JStr s => Some (StringToNumber s)
      | JArr _ => ToNumber_object x
      | _ => Some Num.NaN
      end
  | _ => Some Num.NaN
  end.

Definition runtime : Runtime :=
  Build_Runtime StringToNumber ToNumber_object parseInt Date_parse.

End Sample.

(** ** Notions used in the statements *)

(** A request whose [Authorization] header passes [authenticateToken]. *)
Definition authorized (h : Headers) : Prop := authenticateToken h = Next ().

(** The test of the status route's handler,
    [STATUS_TRANSITIONS[currentStatus].includes(status)]. *)
Definition can_transition (current target : string) : bool :=
  match JsMap.get current STATUS_TRANSITIONS with
  | Some allowed => bool_decide (target ∈ allowed)
  | None => false
  end.

(** The transition table as the specification lists it, edge by edge. *)
Inductive permitted : string → string → Prop :=
| pending_confirmed : permitted "pending" "confirmed"
| pending_cancelled : permitted "pending" "cancelled"
| confirmed_processing : permitted "confirmed" "processing"
| confirmed_cancelled : permitted "confirmed" "cancelled"
| processing_shipped : permitted "processing" "shipped"
| processing_cancelled : permitted "processing" "cancelled"
| shipped_delivered : permitted "shipped" "delivered".

(** Every stored order has a status of the enumeration. *)
Definition statuses_valid (st : Store) : Prop :=
  Forall (λ o, Order.status o ∈ validStatuses) (JsMap.values (orders st)).

(** Every identifier recorded in the ledger is the key of a stored
    order. *)
Definition ledger_sound (st : Store) : Prop :=
  ∀ key id, idempotencyKeys st !! key = Some id → is_Some (JsMap.get id (orders st)).

(** The stores the running server can be in: empty at start-up, seeded by
    [seedData], and then changed by requests. *)
Inductive reachable `{Runtime} : Store → Prop :=
| reachable_start : reachable empty_store
| reachable_seed e0 e1 e2 st :
    seedData e0 e1 e2 empty_store = Next st → reachable st
| reachable_request env st req :
    reachable st → reachable (handle env st req).1.

(** The store after a sequence of requests, each with the clock reading
    and identifier supplied to it. *)
Definition run `{Runtime} (trace : list (Env * Request)) (st : Store) : Store :=
  fold_left (λ st step, (handle step.1 st step.2).1) trace st.

(** A response that reports an error. *)
Definition rejected (r : Response) : Prop := 400 ≤ status_code r.

(** A 400 VALIDATION_ERROR response, with any message. *)
Definition is_validation_error (r : Response) : Prop :=
  status_code r = 400 ∧ ∃ message, payload r = ErrorBody "VALIDATION_ERROR" message.

(** The fields of an order that a status update must leave alone. *)
Definition same_creation_data (o o' : Order) : Prop :=
  Order.orderId o' = Order.orderId o
  ∧ Order.customerId o' = Order.customerId o
  ∧ Order.placementDate o' = Order.placementDate o
  ∧ Order.items o' = Order.items o
  ∧ Order.totalAmount o' = Order.totalAmount o.

(** The date window of a search as the specification words it: at or after
    the start, when one is given, and at or before the end of the end day,
    when one is given. *)
Definition in_window (start stop : option Z) (o : Order) : bool :=
  from_option (λ s, s <=? Order.placementDate o) true start
  && from_option (λ e, Order.placementDate o <=? e) true stop.

Definition given (s : option string) : option string :=
  if truthy_str s then s else None.

(** The bounds of the date window of a query: the time value of
    [startDate], and of [endDate] with "T23:59:59.999Z" appended, for
    those that are given and valid. *)
Definition window_start `{Runtime} (q : Query) : option Z :=
  given (q_startDate q) ≫= Date_parse.

Definition window_stop `{Runtime} (q : Query) : option Z :=
  given (q_endDate q) ≫= λ e, Date_parse (e +:+ "T23:59:59.999Z").

(** An order that a search for [customer] within the window keeps. *)
Definition matches (customer : string) (start stop : option Z) (o : Order) : bool :=
  strict_eq_string (Order.customerId o) customer && in_window start stop o.

(** The page parameters of the search route as numbers. *)
Definition limitNum `{Runtime} (q : Query) : num :=
  Num.Math_min (from_option parseInt (Num.of_Z 20) (q_limit q)) (Num.of_Z 100).

Definition offsetNum `{Runtime} (q : Query) : num :=
  from_option parseInt (Num.of_Z 0) (q_offset q).

Definition totalCount_of (r : Response) : option nat :=
  match payload r with
  | SearchBody _ n _ _ => Some n
  | _ => None
  end.

Definition with_page (q : Query) (limit offset : option string) : Query :=
  {| q_customerId := q_customerId q; q_startDate := q_startDate q;
     q_endDate := q_endDate q; q_limit := limit; q_offset := offset |}.

(** *** The total of an order, in the words of the specification *)

(** Rounding a rational amount half-up to hundredths: the number of
    hundredths is the integer part of [100 q + 1/2]. *)
Definition half_up_cents (q : Q) : Z :=
  Qfloor (Qplus (Qmult (inject_Z 100) q) (Qmake 1 2)).

(** The quantity and the unit price of a request item as numbers, the way
    [calculateTotal] reads them. *)
Definition item_numbers `{Runtime} (item : json) : option (num * num) :=
  quantity ← get_prop item "quantity";
  unitPrice ← get_prop item "unitPrice";
  q ← ToNumber quantity;
  p ← ToNumber unitPrice;
  Some (q, p).

(** The sum of the products in exact arithmetic. *)
Definition exact_sum (numbers : list (num * num)) : Q :=
  foldr (λ qp acc, Qplus (Qmult (Num.to_Q qp.1) (Num.to_Q qp.2)) acc) (inject_Z 0) numbers.

(** The sum of the products in floating-point arithmetic, each product and
    each partial sum rounded to the nearest number, from the left. *)
Definition float_sum (numbers : list (num * num)) : num :=
  fold_left (λ total qp, Num.add total (Num.mul qp.1 qp.2)) numbers Num.zero.

(** The order a successful status update writes: the stored order with its
    status, update time and, for a truthy reason, its reason replaced. *)
Definition updated (env : Env) (o : Order) (target : string) (reason : value) : Order :=
  {| Order.orderId := Order.orderId o;
     Order.customerId := Order.customerId o;
     Order.placementDate := Order.placementDate o;
     Order.lastUpdated := now env;
     Order.status := target;
     Order.items := Order.items o;
     Order.totalAmount := Order.totalAmount o;
     Order.statusReason := if truthy reason then reason else Order.statusReason o |}.

(** The order [createOrder] builds for a request without an [orderId]
    argument. *)
Definition created (env : Env) (customerId : value) (copied : list Item) (total : num)
    : Order :=
  {| Order.orderId := "ord-" +:+ uuid env;
     Order.customerId := customerId;
     Order.placementDate := now env;
     Order.lastUpdated := now env;
     Order.status := "pending";
     Order.items := copied;
     Order.totalAmount := Num.toFixed2_Number total;
     Order.statusReason := undefined |}.

(** ** Worked example: one stored order

    The first order of the test suite, created under the idempotency key
    "key-1", and requests against the store that holds it. *)
Module Example.

Definition env : Env := {| now := 1700000000000; uuid := "0001" |}.
Definition later : Env := {| now := 1700000060000; uuid := "0002" |}.

Definition headers : Headers :=
  {| authorization := Some "Bearer mock-token-12345";
     idempotency_key := Some "key-1" |}.

Definition fresh_headers : Headers :=
  {| authorization := Some "Bearer mock-token-12345";
     idempotency_key := Some "key-2" |}.

Definition items : json :=
  JArr [sample_item "prod-001" 2 (Num.dec 2999 2);
        sample_item "prod-002" 1 (Num.dec 1550 2)].

Definition create_body : object :=
  [("customerId", JStr "test-customer-123"); ("items", items)].

Definition order : Order := {|
  Order.orderId := "ord-0001";
  Order.customerId := Some (JStr "test-customer-123");
  Order.placementDate := 1700000000000;
  Order.lastUpdated := 1700000000000;
  Order.status := "pending";
  Order.items :=
    [ {| Item.productId := Some (JStr "prod-001");
         Item.quantity := Some (JNum (Num.of_Z 2));
         Item.unitPrice := Some (JNum (Num.dec 2999 2)) |};
      {| Item.productId := Some (JStr "prod-002");
         Item.quantity := Some (JNum (Num.of_Z 1));
         Item.unitPrice := Some (JNum (Num.dec 1550 2)) |} ];
  Order.totalAmount := Num.dec 7548 2;
  Order.statusReason := undefined;
|}.

Definition store : Store :=
  {| orders := [("ord-0001", order)];
     idempotencyKeys := {[ Some "key-1" := "ord-0001" ]} |}.

Definition status_body (status : string) : object := [("status", JStr status)].

(** The store after the order has been confirmed with a reason. *)
Definition confirmed_order : Order :=
  updated later order "confirmed" (Some (JStr "Payment processed successfully")).

Definition confirmed_store : Store :=
  {| orders := [("ord-0001", confirmed_order)];
     idempotencyKeys := {[ Some "key-1" := "ord-0001" ]} |}.

(** Two items priced 0.3 and 0.075, and one item priced 1.005. *)
Definition split_cent_items : list json :=
  [sample_item "prod-a" 1 (Num.dec 3 1); sample_item "prod-b" 1 (Num.dec 75 3)].

Definition split_cent_body : object :=
  [("customerId", JStr "test-customer-123"); ("items", JArr split_cent_items)].

Definition half_cent_items : list json :=
  [sample_item "prod-c" 1 (Num.dec 1005 3)].

Definition half_cent_body : object :=
  [("customerId", JStr "test-customer-123"); ("items", JArr half_cent_items)].

Definition search : Query :=
  {| q_customerId := Some "test-customer-123";
     q_startDate := Some "2023-11-14"; q_endDate := Some "2023-11-14";
     q_limit := Some "500"; q_offset := Some "0" |}.

End Example.

(** ** Worked example: a store to page through

    Three orders of one customer, stored oldest, newest, middle, and one
    order of another customer. *)
Module Paging.

Definition order_at (id : string) (time : Z) (customer : string) : Order := {|
  Order.orderId := id;
  Order.customerId := Some (JStr customer);
  Order.placementDate := time;
  Order.lastUpdated := time;
  Order.status := "pending";
  Order.items := Order.items Example.order;
  Order.totalAmount := Order.totalAmount Example.order;
  Order.statusReason := undefined;
|}.

Definition oldest : Order := order_at "ord-0001" 1700000000000 "test-customer-123".
Definition newest : Order := order_at "ord-0002" 1700000060000 "test-customer-123".
Definition middle : Order := order_at "ord-0003" 1700000030000 "test-customer-123".
Definition other : Order := order_at "ord-0004" 1700000040000 "test-customer-456".

Definition store : Store :=
  {| orders := [("ord-0001", oldest); ("ord-0002", newest);
                ("ord-0003", middle); ("ord-0004", other)];
     idempotencyKeys := ∅ |}.

(** A search for the first customer that asks for 500 orders from the
    second one on. *)
Definition query : Query :=
  {| q_customerId := Some "test-customer-123";
     q_startDate := None; q_endDate := None;
     q_limit := Some "500"; q_offset := Some "1" |}.

End Paging.

(** ** Further notions: identifiers, progress of a status, headers *)

(** Every order is stored under its own [orderId]. *)
Definition keys_match (st : Store) : Prop :=
  ∀ id o, JsMap.get id (orders st) = Some o → Order.orderId o = id.

(** How far along the lifecycle a status is: the position of the status
    in the list of [validStatuses], which is also the order of the keys
    of [STATUS_TRANSITIONS]. *)
Fixpoint position (s : string) (l : list string) : nat :=
  match l with
  | [] => 0
  | s' :: rest => if decide (s = s') then 0 else S (position s rest)
  end.

Definition rank (s : string) : nat := position s validStatuses.

(** The headers of a request; the health route reads none. *)
Definition headers_of (req : Request) : option Headers :=
  match req with
  | GET_health => None
  | POST_orders h _ | GET_order h _ | GET_orders h _ | PATCH_status h _ _ => Some h
  end.

(** A text without the character [c]. *)
Fixpoint free_of (c : ascii) (s : string) : bool :=
  match s with
  | EmptyString => true
  | String a rest => negb (bool_decide (a = c)) && free_of c rest
  end.

(** A trace in which no create generates the identifier [id]. *)
Definition never_generates (id : string) (trace : list (Env * Request)) : Prop :=
  Forall (λ step, "ord-" +:+ uuid step.1 ≠ id) trace.

(** The response of the auth middleware to a request without a token. *)
Definition unauthorized : Response :=
  respond 401 (ErrorBody "UNAUTHORIZED" "Authentication token is required").

(** The two statuses without a successor in [STATUS_TRANSITIONS]. *)
Definition terminal (s : string) : Prop := s = "delivered" ∨ s = "cancelled".

(** An order with its status overwritten, as [seedData] does after
    [createOrder]. *)
Definition with_status (o : Order) (status : string) : Order :=
  {| Order.orderId := Order.orderId o;
     Order.customerId := Order.customerId o;
     Order.placementDate := Order.placementDate o;
     Order.lastUpdated := Order.lastUpdated o;
     Order.status := status;
     Order.items := Order.items o;
     Order.totalAmount := Order.totalAmount o;
     Order.statusReason := Order.statusReason o |}.

(** The entries of [orders] have pairwise distinct keys, as those of a
    [Map] have, and each order is the value of its own [orderId]. *)
Definition keyed_by_id (m : list (string * Order)) : Prop :=
  NoDup m.*1 ∧ Forall (λ entry, Order.orderId entry.2 = entry.1) m.

(** The worked examples run on the sample runtime. *)
#[local] Existing Instance Sample.runtime.

(** * Verified properties *)

(** ** The [Map] operations *)

Section JsMapFacts.
Context {V : Type}.
Implicit Types (m : list (string * V)) (k : string) (v : V).

Lemma has_true k m : JsMap.has k m = true ↔ is_Some (JsMap.get k m).
Proof. unfold JsMap.has. apply bool_decide_eq_true. Qed.

Lemma has_false k m : JsMap.has k m = false ↔ JsMap.get k m = None.
Proof.
  unfold JsMap.has. rewrite bool_decide_eq_false, <- eq_None_not_Some. done.
Qed.

Lemma get_set_eq k v m : JsMap.get k (JsMap.set k v m) = Some v.
Proof.
  induction m as [|[k' v'] m IH]; simpl.
  - by rewrite decide_True.
  - destruct (decide (k = k')) as [->|Hne]; simpl.
    + by rewrite decide_True.
    + by rewrite decide_False.
Qed.

Lemma get_set_ne k k' v m : k ≠ k' → JsMap.get k' (JsMap.set k v m) = JsMap.get k' m.
Proof.
  intros Hne. induction m as [|[k0 v0] m IH]; simpl.
  - by rewrite decide_False.
  - destruct (decide (k = k0)) as [->|Hne0]; simpl.
    + by rewrite !decide_False.
    + destruct (decide (k' = k0)); done.
Qed.

(** Every value of the map after [set] is the new value or was there
    before. *)
Lemma values_set k v m x :
  x ∈ JsMap.values (JsMap.set k v m) → x = v ∨ x ∈ JsMap.values m.
Proof.
  unfold JsMap.values. induction m as [|[k0 v0] m IH]; simpl.
  - rewrite list_elem_of_singleton. auto.
  - destruct (decide (k = k0)) as [->|Hne]; simpl; rewrite !elem_of_cons.
    + tauto.
    + intros [->|Hin]; [tauto|]. destruct (IH Hin); tauto.
Qed.

Lemma get_values k v m : JsMap.get k m = Some v → v ∈ JsMap.values m.
Proof.
  unfold JsMap.values. induction m as [|[k0 v0] m IH]; simpl; [done|].
  destruct (decide (k = k0)); rewrite elem_of_cons.
  - intros [= ->]. by left.
  - intros Hget. right. by apply IH.
Qed.

End JsMapFacts.

(** ** The status route *)

Section Update.
Context `{Runtime}.
Implicit Types (st : Store) (h : Headers) (body : object) (o : Order).

Lemma handle_update_authorized env st h id body :
  authorized h →
  handle env st (PATCH_status h id body) =
    match update_handler env st id body with
    | Next result => result
    | Send r => (st, r)
    | Throw => (st, error_middleware)
    end.
Proof. intros Hauth. simpl. by rewrite Hauth. Qed.

Lemma update_unknown env st id body :
  JsMap.get id (orders st) = None →
  update_handler env st id body =
    Send (respond 404 (ErrorBody "NOT_FOUND" "Order not found")).
Proof.
  intros Hget. unfold update_handler.
  apply has_false in Hget. by rewrite Hget.
Qed.

Lemma update_status_missing env st id body o :
  JsMap.get id (orders st) = Some o →
  truthy (lookup_prop "status" body) = false →
  update_handler env st id body = Send (validation_error "Status is required").
Proof.
  intros Hget Hfalsy. unfold update_handler.
  assert (JsMap.has id (orders st) = true) as -> by (apply has_true; eauto).
  by rewrite Hfalsy.
Qed.

Lemma update_status_unlisted env st id body o :
  JsMap.get id (orders st) = Some o →
  truthy (lookup_prop "status" body) = true →
  includes validStatuses (lookup_prop "status" body) = None →
  update_handler env st id body =
    Send (validation_error
      "Invalid status. Must be one of: pending, confirmed, processing, shipped, delivered, cancelled").
Proof.
  intros Hget Htruthy Hnot. unfold update_handler.
  assert (JsMap.has id (orders st) = true) as -> by (apply has_true; eauto).
  by rewrite Htruthy, Hnot.
Qed.

(** A status of the enumeration is a key of the table, so the lookup in
    the handler cannot fail on a stored order. *)
Lemma transitions_defined s :
  s ∈ validStatuses → is_Some (JsMap.get s STATUS_TRANSITIONS).
Proof.
  unfold validStatuses. rewrite !elem_of_cons, elem_of_nil.
  intros [->|[->|[->|[->|[->|[->|[]]]]]]]; vm_compute; eauto.
Qed.

Lemma includes_Some l v s : includes l v = Some s → v = Some (JStr s) ∧ s ∈ l.
Proof.
  destruct v as [[]|]; simpl; try done.
  case_decide; [|done]. by intros [= ->].
Qed.

Lemma includes_truthy v s : includes validStatuses v = Some s → truthy v = true.
Proof.
  intros [-> Hin]%includes_Some. simpl.
  apply negb_true_iff, bool_decide_eq_false. intros ->.
  revert Hin. unfold validStatuses. rewrite !elem_of_cons, elem_of_nil.
  intros [?|[?|[?|[?|[?|[?|[]]]]]]]; discriminate.
Qed.

Lemma update_listed env st id body o target :
  JsMap.get id (orders st) = Some o →
  Order.status o ∈ validStatuses →
  includes validStatuses (lookup_prop "status" body) = Some target →
  update_handler env st id body =
    if can_transition (Order.status o) target then
      let o' := updated env o target (lookup_prop "reason" body) in
      Next ({| orders := JsMap.set id o' (orders st);
               idempotencyKeys := idempotencyKeys st |},
            respond 200 (OrderBody o'))
    else
      Send (respond 409 (ErrorBody "INVALID_STATUS_TRANSITION"
        ("Cannot transition from " +:+ Order.status o +:+ " to " +:+ target))).
Proof.
  intros Hget Hvalid Hincl. unfold update_handler, can_transition.
  assert (JsMap.has id (orders st) = true) as -> by (apply has_true; eauto).
  destruct (transitions_defined _ Hvalid) as [allowed Hrow].
  rewrite (includes_truthy _ _ Hincl), Hincl, Hget.
  cbn [negb reject_if or_throw mbind Step_bind]. rewrite Hrow.
  cbn [or_throw mbind Step_bind].
  by destruct (bool_decide (target ∈ allowed)).
Qed.

End Update.

(** The handler's test agrees with the table of the specification. *)
Lemma permitted_can_transition current target :
  permitted current target ↔ can_transition current target = true.
Proof.
  split.
  - by destruct 1.
  - unfold can_transition. simpl.
    repeat case_decide; subst; try done; intros _;
      repeat match goal with
             | Hin : _ ∈ _ :: _ |- _ => apply elem_of_cons in Hin as [->|Hin]
             | Hin : _ ∈ [] |- _ => by apply elem_of_nil in Hin
             end; constructor.
Qed.

Section StatusClaims.
Context `{Runtime}.

Lemma stored_status_valid st id o :
  statuses_valid st → JsMap.get id (orders st) = Some o →
  Order.status o ∈ validStatuses.
Proof.
  intros Hvalid Hget. unfold statuses_valid in Hvalid.
  rewrite Forall_forall in Hvalid. eapply Hvalid, get_values, Hget.
Qed.

Lemma includes_listed l s : s ∈ l → includes l (Some (JStr s)) = Some s.
Proof. intros Hin. simpl. by rewrite decide_True. Qed.

(** C2. For a stored order whose status is [current] and a requested
    status [target], both in the enumeration, the update is applied
    exactly when [target] is in the row of [current] in the table
    pending -> confirmed, cancelled; confirmed -> processing, cancelled;
    processing -> shipped, cancelled; shipped -> delivered; and otherwise
    it is answered 409 INVALID_STATUS_TRANSITION with a message naming
    [current] and [target].  No status may change to itself, delivered and
    cancelled have no successor, and cancelled follows exactly pending,
    confirmed and processing. *)
Theorem transition_table env st h id body o target :
  authorized h →
  JsMap.get id (orders st) = Some o →
  Order.status o ∈ validStatuses →
  target ∈ validStatuses →
  lookup_prop "status" body = Some (JStr target) →
  let current := Order.status o in
  let o' := updated env o target (lookup_prop "reason" body) in
  (permitted current target ↔ can_transition current target = true)
  ∧ (permitted current target →
       handle env st (PATCH_status h id body) =
         ({| orders := JsMap.set id o' (orders st);
             idempotencyKeys := idempotencyKeys st |},
          respond 200 (OrderBody o'))
       ∧ Order.status o' = target)
  ∧ (¬ permitted current target →
       handle env st (PATCH_status h id body) =
         (st, respond 409 (ErrorBody "INVALID_STATUS_TRANSITION"
                ("Cannot transition from " +:+ current +:+ " to " +:+ target))))
  ∧ can_transition target target = false
  ∧ (∀ t, can_transition "delivered" t = false ∧ can_transition "cancelled" t = false)
  ∧ (can_transition current "cancelled" = true
       ↔ current ∈ ["pending"; "confirmed"; "processing"]).
Proof.
  intros Hauth Hget Hcur Htgt Hstatus current o'.
  assert (includes validStatuses (lookup_prop "status" body) = Some target) as Hincl
    by (rewrite Hstatus; by apply includes_listed).
  pose proof (update_listed env st id body o target Hget Hcur Hincl) as Hupd.
  rewrite handle_update_authorized by done. rewrite Hupd. fold current.
  split; [apply permitted_can_transition|].
  split; [intros Hp; apply permitted_can_transition in Hp; by rewrite Hp|].
  split.
  { intros Hnp. destruct (can_transition current target) eqn:Hc; [|done].
    by apply permitted_can_transition in Hc. }
  split.
  { revert Htgt. unfold validStatuses. rewrite !elem_of_cons, elem_of_nil.
    intros [->|[->|[->|[->|[->|[->|[]]]]]]]; by vm_compute. }
  split.
  { intros t. split.
    - destruct (can_transition "delivered" t) eqn:Hc; [|done].
      apply permitted_can_transition in Hc. inversion Hc.
    - destruct (can_transition "cancelled" t) eqn:Hc; [|done].
      apply permitted_can_transition in Hc. inversion Hc. }
  rewrite <- permitted_can_transition, !elem_of_cons, elem_of_nil. split.
  - inversion 1; tauto.
  - intros [->|[->|[->|[]]]]; constructor.
Qed.

End StatusClaims.

(** The instance of [transition_table] at the example store: pending to
    confirmed is applied. *)
Lemma transition_table_witness :
  handle Example.later Example.store
      (PATCH_status Example.headers "ord-0001" (Example.status_body "confirmed"))
    = ({| orders := [("ord-0001", updated Example.later Example.order "confirmed" undefined)];
          idempotencyKeys := idempotencyKeys Example.store |},
       respond 200 (OrderBody (updated Example.later Example.order "confirmed" undefined))).
Proof.
  refine (proj1 (proj1 (proj2 (transition_table Example.later Example.store Example.headers
    "ord-0001" (Example.status_body "confirmed") Example.order "confirmed" _ _ _ _ _)) _)).
  - reflexivity.
  - reflexivity.
  - apply (bool_decide_unpack _). reflexivity.
  - apply (bool_decide_unpack _). reflexivity.
  - reflexivity.
  - constructor.
Defined.

Section StatusChecks.
Context `{Runtime}.

Lemma not_listed_includes (v : value) :
  (∀ s, s ∈ validStatuses → v ≠ Some (JStr s)) →
  includes validStatuses v = None.
Proof.
  intros Hout. destruct (includes validStatuses v) as [s|] eqn:Hincl; [|done].
  apply includes_Some in Hincl as [-> Hin]. by destruct (Hout s Hin).
Qed.

(** C3. The status route checks, in this order and stopping at the first
    failure: the order exists (404 NOT_FOUND, whatever the body), the
    status field is present (400 VALIDATION_ERROR), its value is one of
    the six statuses (400 VALIDATION_ERROR), and the change is permitted
    by the table (409 INVALID_STATUS_TRANSITION). *)
Theorem status_checks_in_order env st h id body :
  authorized h →
  statuses_valid st →
  let status := lookup_prop "status" body in
  let answer := handle env st (PATCH_status h id body) in
  (JsMap.get id (orders st) = None →
     answer = (st, respond 404 (ErrorBody "NOT_FOUND" "Order not found")))
  ∧ (∀ o, JsMap.get id (orders st) = Some o →
       truthy status = false →
       answer = (st, respond 400 (ErrorBody "VALIDATION_ERROR" "Status is required")))
  ∧ (∀ o, JsMap.get id (orders st) = Some o →
       truthy status = true →
       (∀ s, s ∈ validStatuses → status ≠ Some (JStr s)) →
       answer = (st, respond 400 (ErrorBody "VALIDATION_ERROR"
         "Invalid status. Must be one of: pending, confirmed, processing, shipped, delivered, cancelled"))
       ∧ status_code answer.2 ≠ 409)
  ∧ (∀ o target, JsMap.get id (orders st) = Some o →
       target ∈ validStatuses →
       status = Some (JStr target) →
       can_transition (Order.status o) target = false →
       answer = (st, respond 409 (ErrorBody "INVALID_STATUS_TRANSITION"
         ("Cannot transition from " +:+ Order.status o +:+ " to " +:+ target)))).
Proof.
  intros Hauth Hvalid status answer. subst answer.
  rewrite handle_update_authorized by done.
  split; [|split; [|split]].
  - intros Hget. by rewrite update_unknown.
  - intros o Hget Hfalsy. by rewrite (update_status_missing _ _ _ _ o).
  - intros o Hget Htruthy Hout.
    rewrite (update_status_unlisted _ _ _ _ o) by auto using not_listed_includes.
    done.
  - intros o target Hget Hin Hstatus Hno.
    rewrite (update_listed _ _ _ _ o target); try done.
    + by rewrite Hno.
    + by eapply stored_status_valid.
    + subst status. rewrite Hstatus. by apply includes_listed.
Qed.

(** C9. A successful status update stores the supplied reason only when it
    is truthy; with an absent, empty or otherwise falsy reason the order
    keeps the reason it had. *)
Theorem falsy_reason_keeps_reason env st h id body o target :
  authorized h →
  JsMap.get id (orders st) = Some o →
  Order.status o ∈ validStatuses →
  lookup_prop "status" body = Some (JStr target) →
  target ∈ validStatuses →
  can_transition (Order.status o) target = true →
  let reason := lookup_prop "reason" body in
  ∃ o',
    (handle env st (PATCH_status h id body)).2 = respond 200 (OrderBody o')
    ∧ JsMap.get id (orders (handle env st (PATCH_status h id body)).1) = Some o'
    ∧ (truthy reason = false → Order.statusReason o' = Order.statusReason o)
    ∧ (truthy reason = true → Order.statusReason o' = reason)
    ∧ truthy (Some (JStr "")) = false
    ∧ truthy undefined = false.
Proof.
  intros Hauth Hget Hcur Hstatus Htgt Hcan reason.
  rewrite handle_update_authorized by done.
  rewrite (update_listed _ _ _ _ o target), Hcan; try done.
  2: { rewrite Hstatus. by apply includes_listed. }
  exists (updated env o target reason).
  split; [done|]. split; [apply get_set_eq|].
  split; [intros Hfalsy|split; [intros Htruthy|done]].
  - unfold updated. cbn [Order.statusReason]. by rewrite Hfalsy.
  - unfold updated. cbn [Order.statusReason]. by rewrite Htruthy.
Qed.

End StatusChecks.

(** [status_checks_in_order] at the example store: an unknown order with
    a body that has no status is answered 404. *)
Lemma status_checks_in_order_witness :
  handle Example.later Example.store (PATCH_status Example.headers "ord-none" [])
  = (Example.store, respond 404 (ErrorBody "NOT_FOUND" "Order not found")).
Proof.
  refine (proj1 (status_checks_in_order Example.later Example.store Example.headers
                   "ord-none" [] _ _) _).
  - reflexivity.
  - repeat constructor.
  - reflexivity.
Defined.

(** [falsy_reason_keeps_reason] at the example store once the order has
    been confirmed with a reason: moving it on with the reason sent as the
    empty string leaves that reason in place. *)
Lemma falsy_reason_keeps_reason_witness :
  ∃ o',
    (handle Example.later Example.confirmed_store
       (PATCH_status Example.headers "ord-0001"
          [("status", JStr "processing"); ("reason", JStr "")])).2
      = respond 200 (OrderBody o')
    ∧ Order.statusReason o' = Some (JStr "Payment processed successfully").
Proof.
  destruct (falsy_reason_keeps_reason Example.later Example.confirmed_store
              Example.headers "ord-0001"
              [("status", JStr "processing"); ("reason", JStr "")]
              Example.confirmed_order "processing")
    as (o' & Hresp & _ & Hkeep & _).
  - reflexivity.
  - reflexivity.
  - apply (bool_decide_unpack _). reflexivity.
  - reflexivity.
  - apply (bool_decide_unpack _). reflexivity.
  - reflexivity.
  - exists o'. split; [exact Hresp|]. apply Hkeep. reflexivity.
Defined.

(** ** The create route *)

Section Create.
Context `{Runtime}.
Implicit Types (st : Store) (h : Headers) (body : object) (item : json).

Lemma for_of_Next {A} (f : A → Step ()) (l : list A) :
  for_of f l = Next () ↔ Forall (λ x, f x = Next ()) l.
Proof.
  induction l as [|x l IH]; simpl.
  - split; [constructor|done].
  - rewrite Forall_cons, <- IH.
    destruct (f x) as [[]| |]; cbn [mbind Step_bind]; intuition congruence.
Qed.

(** What passing [validate_item] says about an item. *)
Lemma validate_item_Next item :
  validate_item item = Next () →
  ∃ productId quantity unitPrice q p,
    get_prop item "productId" = Some productId
    ∧ get_prop item "quantity" = Some quantity
    ∧ get_prop item "unitPrice" = Some unitPrice
    ∧ truthy productId = true ∧ truthy quantity = true ∧ truthy unitPrice = true
    ∧ ToNumber quantity = Some q ∧ ToNumber unitPrice = Some p
    ∧ Num.leb q Num.zero = false ∧ Num.ltb p Num.zero = false.
Proof.
  unfold validate_item.
  destruct (get_prop item "productId") as [productId|] eqn:Hid; [|done].
  destruct (get_prop item "quantity") as [quantity|] eqn:Hqty; [|done].
  destruct (get_prop item "unitPrice") as [unitPrice|] eqn:Hprice; [|done].
  cbn [or_throw mbind Step_bind].
  destruct (truthy productId) eqn:Htid, (truthy quantity) eqn:Htq,
    (truthy unitPrice) eqn:Htp; try done.
  cbn [negb orb reject_if mbind Step_bind].
  destruct (ToNumber quantity) as [q|] eqn:HNq; [|done].
  cbn [or_throw mbind Step_bind].
  destruct (Num.leb q Num.zero) eqn:Hq; [done|].
  destruct (ToNumber unitPrice) as [p|] eqn:HNp; [|done].
  cbn [or_throw mbind Step_bind].
  destruct (Num.ltb p Num.zero) eqn:Hp; [done|].
  intros _. by exists productId, quantity, unitPrice, q, p.
Qed.

(** What passing [validateCreateOrder] says about a request. *)
Lemma validateCreateOrder_Next h body :
  validateCreateOrder h body = Next () →
  truthy_str (idempotency_key h) = true
  ∧ truthy (lookup_prop "customerId" body) = true
  ∧ ∃ array, lookup_prop "items" body = Some (JArr array)
             ∧ array ≠ []
             ∧ Forall (λ item, validate_item item = Next ()) array.
Proof.
  unfold validateCreateOrder.
  destruct (truthy_str (idempotency_key h)); [|done].
  destruct (truthy (lookup_prop "customerId" body)); [|done].
  cbn [negb reject_if mbind Step_bind].
  destruct (lookup_prop "items" body) as [[|?|?|?|array|?]|];
    try (cbn [isArray negb]; rewrite orb_true_r; done).
  destruct array as [|item array]; [done|].
  cbn [truthy isArray elements negb orb fmap option_fmap option_map length
       bool_decide reject_if mbind Step_bind default].
  rewrite bool_decide_eq_false_2 by done.
  cbn [reject_if mbind Step_bind]. rewrite for_of_Next.
  intros Hitems. split; [done|]. split; [done|]. by exists (item :: array).
Qed.

Lemma item_numbers_Some item q p :
  item_numbers item = Some (q, p) ↔
  ∃ quantity unitPrice,
    get_prop item "quantity" = Some quantity
    ∧ get_prop item "unitPrice" = Some unitPrice
    ∧ ToNumber quantity = Some q ∧ ToNumber unitPrice = Some p.
Proof.
  unfold item_numbers. split.
  - destruct (get_prop item "quantity") as [quantity|]; [|done].
    destruct (get_prop item "unitPrice") as [unitPrice|]; [|done].
    cbn [mbind option_bind].
    destruct (ToNumber quantity) as [q'|] eqn:Hq; [|done].
    destruct (ToNumber unitPrice) as [p'|] eqn:Hp; [|done].
    cbn [mbind option_bind]. intros [= <- <-]. by exists quantity, unitPrice.
  - intros (quantity & unitPrice & -> & -> & Hq & Hp).
    cbn [mbind option_bind]. by rewrite Hq, Hp.
Qed.

Lemma reduce_total items numbers init :
  Forall2 (λ item qp, item_numbers item = Some qp) items numbers →
  reduce_step (λ total item,
      quantity ← or_throw (get_prop item "quantity");
      unitPrice ← or_throw (get_prop item "unitPrice");
      q ← or_throw (ToNumber quantity);
      p ← or_throw (ToNumber unitPrice);
      Next (Num.add total (Num.mul q p))) init items
  = Next (fold_left (λ total qp, Num.add total (Num.mul qp.1 qp.2)) numbers init).
Proof.
  intros Hall. revert init.
  induction Hall as [|item [q p] items numbers Hitem _ IH]; intros init; [done|].
  apply item_numbers_Some in Hitem as (quantity & unitPrice & Hqty & Hprice & Hq & Hp).
  cbn [reduce_step]. rewrite Hqty, Hprice. cbn [or_throw mbind Step_bind].
  rewrite Hq, Hp. cbn [or_throw mbind Step_bind]. apply IH.
Qed.

(** [calculateTotal] is the floating-point sum of the products. *)
Lemma calculateTotal_float_sum items numbers :
  mapM item_numbers items = Some numbers →
  calculateTotal items = Next (float_sum numbers).
Proof. rewrite mapM_Some. apply reduce_total. Qed.

(** Validated items can be copied and totalled without an exception. *)
Lemma validated_items items :
  Forall (λ item, validate_item item = Next ()) items →
  ∃ copied numbers,
    map_step copy_item items = Next copied
    ∧ mapM item_numbers items = Some numbers.
Proof.
  setoid_rewrite mapM_Some.
  induction 1 as [|item items Hitem _ (copied & numbers & Hcopy & Hnum)].
  - exists [], []. split; [done|constructor].
  - apply validate_item_Next in Hitem
      as (productId & quantity & unitPrice & q & p
          & Hid & Hqty & Hprice & _ & _ & _ & Hq & Hp & _).
    eexists _, ((q, p) :: numbers). split.
    + assert (copy_item item = Next {| Item.productId := productId;
                Item.quantity := quantity; Item.unitPrice := unitPrice |}) as Hitem
        by (unfold copy_item; by rewrite Hid, Hqty, Hprice).
      cbn [map_step]. rewrite Hitem. cbn [mbind Step_bind]. by rewrite Hcopy.
    + constructor; [|done]. apply item_numbers_Some. by exists quantity, unitPrice.
Qed.

End Create.

Section Routes.
Context `{Runtime}.
Implicit Types (st : Store) (h : Headers) (body : object) (r : Response).

Lemma handle_create_authorized env st h body :
  authorized h →
  handle env st (POST_orders h body) =
    match validateCreateOrder h body with
    | Next _ => create_handler env st h body
    | Send r => (st, r)
    | Throw => (st, error_middleware)
    end.
Proof. intros Hauth. cbn [handle]. by rewrite Hauth. Qed.

Lemma create_handler_replay env st h body id :
  idempotencyKeys st !! idempotency_key h = Some id →
  create_handler env st h body =
    (st, respond 200 (from_option OrderBody EmptyBody (JsMap.get id (orders st)))).
Proof. intros Hkey. unfold create_handler. by rewrite Hkey. Qed.

Lemma createOrder_array env customerId array copied numbers st :
  map_step copy_item array = Next copied →
  mapM item_numbers array = Some numbers →
  createOrder env customerId (Some (JArr array)) None st =
    let order := created env customerId copied (float_sum numbers) in
    Next ({| orders := JsMap.set (Order.orderId order) order (orders st);
             idempotencyKeys := idempotencyKeys st |}, order).
Proof.
  intros Hcopy Hnum. unfold createOrder.
  cbn [elements or_throw mbind Step_bind]. rewrite Hcopy.
  cbn [mbind Step_bind]. rewrite (calculateTotal_float_sum _ _ Hnum). done.
Qed.

Lemma create_handler_new env st h body array copied numbers :
  idempotencyKeys st !! idempotency_key h = None →
  lookup_prop "items" body = Some (JArr array) →
  map_step copy_item array = Next copied →
  mapM item_numbers array = Some numbers →
  create_handler env st h body =
    let order := created env (lookup_prop "customerId" body) copied (float_sum numbers) in
    ({| orders := JsMap.set (Order.orderId order) order (orders st);
        idempotencyKeys := <[idempotency_key h := Order.orderId order]> (idempotencyKeys st) |},
     respond 201 (OrderBody order)).
Proof.
  intros Hkey Hitems Hcopy Hnum. unfold create_handler.
  rewrite Hkey, Hitems, (createOrder_array _ _ _ _ _ _ Hcopy Hnum). done.
Qed.

(** [createOrder] changes the store only by its final [orders.set]. *)
Lemma createOrder_Next env customerId items st st' order :
  createOrder env customerId items None st = Next (st', order) →
  Order.status order = "pending"
  ∧ Order.orderId order = "ord-" +:+ uuid env
  ∧ st' = {| orders := JsMap.set (Order.orderId order) order (orders st);
             idempotencyKeys := idempotencyKeys st |}.
Proof.
  unfold createOrder.
  destruct (elements items) as [array|]; [|done]. cbn [or_throw mbind Step_bind].
  destruct (map_step copy_item array) as [copied| |]; [|done..].
  cbn [mbind Step_bind].
  destruct (calculateTotal array) as [total| |]; [|done..].
  cbn [mbind Step_bind]. by intros [= <- <-].
Qed.

(** The outcomes of the create handler. *)
Lemma create_handler_cases env st h body :
  let answer := create_handler env st h body in
  (answer.1 = st ∧ (status_code answer.2 = 200 ∨ status_code answer.2 = 500))
  ∨ ∃ order,
      Order.status order = "pending"
      ∧ Order.orderId order = "ord-" +:+ uuid env
      ∧ answer = ({| orders := JsMap.set (Order.orderId order) order (orders st);
                     idempotencyKeys :=
                       <[idempotency_key h := Order.orderId order]> (idempotencyKeys st) |},
                  respond 201 (OrderBody order)).
Proof.
  unfold create_handler.
  destruct (idempotencyKeys st !! idempotency_key h) as [id|]; [left; auto|].
  destruct (createOrder _ _ _ _ _) as [[st' order]| |] eqn:Hcreate; [|left; auto..].
  apply createOrder_Next in Hcreate as (Hstatus & Hid & ->).
  right. by exists order.
Qed.

(** The outcomes of the status handler. *)
Lemma update_handler_Next env st id body st' r :
  update_handler env st id body = Next (st', r) →
  ∃ o target,
    JsMap.get id (orders st) = Some o
    ∧ includes validStatuses (lookup_prop "status" body) = Some target
    ∧ can_transition (Order.status o) target = true
    ∧ st' = {| orders := JsMap.set id (updated env o target (lookup_prop "reason" body))
                           (orders st);
               idempotencyKeys := idempotencyKeys st |}
    ∧ r = respond 200 (OrderBody (updated env o target (lookup_prop "reason" body))).
Proof.
  unfold update_handler, can_transition.
  destruct (JsMap.has id (orders st)); [|done].
  destruct (truthy (lookup_prop "status" body)); [|done].
  cbn [negb reject_if mbind Step_bind].
  destruct (includes validStatuses (lookup_prop "status" body)) as [target|]; [|done].
  destruct (JsMap.get id (orders st)) as [o|]; [|done].
  cbn [or_throw mbind Step_bind].
  destruct (JsMap.get (Order.status o) STATUS_TRANSITIONS) as [allowed|] eqn:Hrow;
    [|done].
  cbn [or_throw mbind Step_bind].
  destruct (bool_decide (target ∈ allowed)) eqn:Hin; [|done].
  cbn [negb]. intros [= <- <-]. exists o, target. by rewrite Hrow, Hin.
Qed.

Lemma update_handler_Send env st id body r :
  update_handler env st id body = Send r → rejected r.
Proof.
  unfold update_handler, rejected.
  destruct (JsMap.has id (orders st));
    cbn [negb reject_if mbind Step_bind]; [|intros [= <-]; by compute].
  destruct (truthy (lookup_prop "status" body));
    cbn [negb reject_if mbind Step_bind]; [|intros [= <-]; by compute].
  destruct (includes validStatuses (lookup_prop "status" body)) as [target|];
    [|intros [= <-]; by compute].
  destruct (JsMap.get id (orders st)) as [o|]; [|done].
  cbn [or_throw mbind Step_bind].
  destruct (JsMap.get (Order.status o) STATUS_TRANSITIONS) as [allowed|]; [|done].
  cbn [or_throw mbind Step_bind].
  destruct (bool_decide (target ∈ allowed)); [done|].
  cbn [negb]. intros [= <-]. by compute.
Qed.

End Routes.

(** ** Rejections and the shape of validation *)

Section Validation.
Context `{Runtime}.
Implicit Types (st : Store) (h : Headers) (body : object) (r : Response).

Lemma validation_error_is message : is_validation_error (validation_error message).
Proof. split; [done|by exists message]. Qed.

Lemma for_of_Send {A} (f : A → Step ()) (l : list A) r :
  for_of f l = Send r → ∃ x, x ∈ l ∧ f x = Send r.
Proof.
  induction l as [|x l IH]; [done|]. cbn [for_of].
  destruct (f x) as [[]|r'|] eqn:Hx; cbn [mbind Step_bind]; [| |done].
  - intros (y & Hy & Hfy)%IH. exists y. split; [by right|done].
  - intros [= ->]. exists x. split; [by left|done].
Qed.

Lemma validate_item_Send item r :
  validate_item item = Send r → is_validation_error r.
Proof.
  unfold validate_item.
  destruct (get_prop item "productId") as [productId|]; [|done].
  destruct (get_prop item "quantity") as [quantity|]; [|done].
  destruct (get_prop item "unitPrice") as [unitPrice|]; [|done].
  cbn [or_throw mbind Step_bind].
  destruct (negb (truthy productId) || negb (truthy quantity) || negb (truthy unitPrice));
    cbn [reject_if mbind Step_bind]; [intros [= <-]; apply validation_error_is|].
  destruct (ToNumber quantity) as [q|]; [|done]. cbn [or_throw mbind Step_bind].
  destruct (Num.leb q Num.zero); [intros [= <-]; apply validation_error_is|].
  destruct (ToNumber unitPrice) as [p|]; [|done]. cbn [or_throw mbind Step_bind].
  destruct (Num.ltb p Num.zero); cbn [reject_if]; [|done].
  intros [= <-]; apply validation_error_is.
Qed.

Lemma validateCreateOrder_Send h body r :
  validateCreateOrder h body = Send r → is_validation_error r.
Proof.
  unfold validateCreateOrder.
  destruct (negb (truthy_str (idempotency_key h)));
    cbn [reject_if mbind Step_bind]; [intros [= <-]; apply validation_error_is|].
  destruct (negb (truthy (lookup_prop "customerId" body)));
    cbn [reject_if mbind Step_bind]; [intros [= <-]; apply validation_error_is|].
  match goal with |- context [reject_if ?c _] => destruct c end;
    cbn [reject_if mbind Step_bind]; [intros [= <-]; apply validation_error_is|].
  intros (item & _ & Hitem)%for_of_Send. by eapply validate_item_Send.
Qed.

(** The checks of the validation middleware in their order: each one is
    reached only when the ones before it have passed, and the items are
    examined from the first to the last. *)
Lemma create_validation_order h body :
  let key := idempotency_key h in
  let customerId := lookup_prop "customerId" body in
  let items := lookup_prop "items" body in
  (truthy_str key = false →
     validateCreateOrder h body =
       Send (validation_error "Idempotency-Key header is required"))
  ∧ (truthy_str key = true → truthy customerId = false →
     validateCreateOrder h body = Send (validation_error "Customer ID is required"))
  ∧ (truthy_str key = true → truthy customerId = true →
     (∀ item rest, items ≠ Some (JArr (item :: rest))) →
     validateCreateOrder h body =
       Send (validation_error "At least one item is required"))
  ∧ (∀ array, truthy_str key = true → truthy customerId = true →
     items = Some (JArr array) → array ≠ [] →
     validateCreateOrder h body = for_of validate_item array).
Proof.
  intros key customerId items. unfold validateCreateOrder.
  fold key customerId items. split_and!.
  - by intros ->.
  - by intros -> ->.
  - intros -> -> Hitems. cbn [negb reject_if mbind Step_bind].
    destruct items as [[|?|?|?|[|item rest]|?]|];
      try (cbn [isArray negb]; rewrite orb_true_r; done).
    by destruct (Hitems item rest).
  - intros array -> -> -> Hne. destruct array as [|item rest]; [done|].
    cbn [negb reject_if mbind Step_bind truthy isArray elements orb fmap option_fmap
         option_map length default].
    by rewrite bool_decide_eq_false_2.
Qed.

(** An item whose quantity or unit price is the number 0 gets the response
    of an item that lacks the field. *)
Lemma zero_is_missing item productId quantity unitPrice :
  get_prop item "productId" = Some productId →
  get_prop item "quantity" = Some quantity →
  get_prop item "unitPrice" = Some unitPrice →
  quantity = undefined ∨ unitPrice = undefined
  ∨ quantity = Some (JNum Num.zero) ∨ unitPrice = Some (JNum Num.zero) →
  validate_item item =
    Send (validation_error "Each item must have productId, quantity, and unitPrice").
Proof.
  intros Hid Hqty Hprice Hzero. unfold validate_item. rewrite Hid, Hqty, Hprice.
  cbn [or_throw mbind Step_bind].
  assert (negb (truthy productId) || negb (truthy quantity) || negb (truthy unitPrice)
          = true) as ->; [|done].
  destruct Hzero as [-> | [-> | [-> | ->]]]; cbn; by rewrite ?orb_true_r.
Qed.

End Validation.

(** ** Idempotent replay *)

Section Replay.
Context `{Runtime}.

(** C1, as the code has it.  The validation middleware runs before the
    handler looks at the ledger.  A create request that is authorized and
    passes validation, and whose idempotency key is in the ledger, is
    answered 200 with the stored order and changes nothing, whatever its
    payload; a request with a known key whose payload fails validation is
    answered with that 400 VALIDATION_ERROR. *)
Theorem replay_after_validation env st h body id o :
  authorized h →
  idempotencyKeys st !! idempotency_key h = Some id →
  JsMap.get id (orders st) = Some o →
  (validateCreateOrder h body = Next () →
     handle env st (POST_orders h body) = (st, respond 200 (OrderBody o)))
  ∧ (∀ r, validateCreateOrder h body = Send r →
       handle env st (POST_orders h body) = (st, r) ∧ is_validation_error r).
Proof.
  intros Hauth Hkey Hget. rewrite handle_create_authorized by done. split.
  - intros ->. by rewrite (create_handler_replay _ _ _ _ id), Hget.
  - intros r Hsend. rewrite Hsend. split; [done|]. by eapply validateCreateOrder_Send.
Qed.

(** C5, where the code departs from it.  An item that is [null] makes the
    validation middleware raise an exception at its first property read;
    the request ends in the error middleware with 500 INTERNAL_ERROR
    instead of 400 VALIDATION_ERROR. *)
Theorem null_item_internal_error env st h body rest :
  authorized h →
  truthy_str (idempotency_key h) = true →
  truthy (lookup_prop "customerId" body) = true →
  lookup_prop "items" body = Some (JArr (JNull :: rest)) →
  handle env st (POST_orders h body) =
    (st, respond 500 (ErrorBody "INTERNAL_ERROR" "An unexpected error occurred")).
Proof.
  intros Hauth Hkey Hcustomer Hitems. rewrite handle_create_authorized by done.
  destruct (create_validation_order h body) as (_ & _ & _ & Horder).
  by rewrite (Horder (JNull :: rest)).
Qed.

End Replay.

(** C1 as stated fails: the key "key-1" is in the ledger of the example
    store and maps to a stored order, yet a replay under that key whose
    body has no [customerId] is answered 400 and not with the stored
    order. *)
Lemma replay_with_invalid_payload_rejected :
  idempotencyKeys Example.store !! idempotency_key Example.headers = Some "ord-0001"
  ∧ JsMap.get "ord-0001" (orders Example.store) = Some Example.order
  ∧ handle Example.later Example.store
        (POST_orders Example.headers [("items", Example.items)])
      = (Example.store,
         respond 400 (ErrorBody "VALIDATION_ERROR" "Customer ID is required"))
  ∧ (handle Example.later Example.store
        (POST_orders Example.headers [("items", Example.items)])).2
      ≠ respond 200 (OrderBody Example.order).
Proof.
  assert (handle Example.later Example.store
        (POST_orders Example.headers [("items", Example.items)])
      = (Example.store,
         respond 400 (ErrorBody "VALIDATION_ERROR" "Customer ID is required"))) as Heq
    by reflexivity.
  split; [reflexivity|]. split; [reflexivity|]. split; [exact Heq|].
  rewrite Heq. discriminate.
Qed.

(** [replay_after_validation] at the example store: a replay under
    "key-1" with other items than the original returns the stored
    order. *)
Lemma replay_after_validation_witness :
  handle Example.later Example.store
      (POST_orders Example.headers Example.split_cent_body)
  = (Example.store, respond 200 (OrderBody Example.order)).
Proof.
  refine (proj1 (replay_after_validation Example.later Example.store Example.headers
                   Example.split_cent_body "ord-0001" Example.order _ _ _) _).
  - reflexivity.
  - reflexivity.
  - reflexivity.
  - vm_compute. reflexivity.
Defined.

(** [null_item_internal_error] at the example store. *)
Lemma null_item_internal_error_witness :
  handle Example.env Example.store
      (POST_orders Example.fresh_headers
         [("customerId", JStr "test-customer-123"); ("items", JArr [JNull])])
  = (Example.store,
     respond 500 (ErrorBody "INTERNAL_ERROR" "An unexpected error occurred")).
Proof.
  apply (null_item_internal_error Example.env Example.store Example.fresh_headers
           [("customerId", JStr "test-customer-123"); ("items", JArr [JNull])] []).
  - reflexivity.
  - reflexivity.
  - reflexivity.
  - reflexivity.
Defined.

(** ** What a request does to the store *)

Section Frame.
Context `{Runtime}.
Implicit Types (st : Store) (h : Headers) (body : object) (r : Response).

Lemma success_not_rejected (b : Body) :
  (rejected (respond 200 b) → False) ∧ (rejected (respond 201 b) → False).
Proof. unfold rejected. cbn [status_code respond]. lia. Qed.

Lemma authenticateToken_cases h :
  authenticateToken h = Next ()
  ∨ ∃ r, authenticateToken h = Send r ∧ status_code r = 401.
Proof.
  unfold authenticateToken.
  match goal with |- context [reject_if (negb ?c) _] => destruct c end;
    cbn [negb reject_if mbind Step_bind]; [|right; eauto].
  match goal with |- context [reject_if ?c _] => destruct c end;
    cbn [reject_if]; [right; eauto|by left].
Qed.

(** Every request leaves the store as it was, or is a create answered 201
    that stores one new pending order under a generated identifier and
    records its key, or is a status update answered 200 that replaces one
    stored order by its updated version. *)
Lemma handle_cases env st req :
  let answer := handle env st req in
  (answer.1 = st
   ∧ (∀ h body, req = POST_orders h body → status_code answer.2 ≠ 201)
   ∧ (∀ h id body, req = PATCH_status h id body → rejected answer.2))
  ∨ (∃ h body order,
       req = POST_orders h body
       ∧ Order.status order = "pending"
       ∧ Order.orderId order = "ord-" +:+ uuid env
       ∧ answer =
           ({| orders := JsMap.set (Order.orderId order) order (orders st);
               idempotencyKeys :=
                 <[idempotency_key h := Order.orderId order]> (idempotencyKeys st) |},
            respond 201 (OrderBody order)))
  ∨ (∃ h id body o target,
       req = PATCH_status h id body
       ∧ JsMap.get id (orders st) = Some o
       ∧ includes validStatuses (lookup_prop "status" body) = Some target
       ∧ can_transition (Order.status o) target = true
       ∧ answer =
           ({| orders := JsMap.set id (updated env o target (lookup_prop "reason" body))
                           (orders st);
               idempotencyKeys := idempotencyKeys st |},
            respond 200 (OrderBody (updated env o target (lookup_prop "reason" body))))).
Proof.
  destruct req as [|h body|h id|h q|h id body]; cbn [handle].
  - left. split_and!; [done|intros; discriminate..].
  - destruct (authenticateToken_cases h) as [->|(r & -> & Hr)]; cbn [mbind Step_bind].
    2: { left. cbn [fst snd]. split_and!; [done| |intros; discriminate].
         intros _ _ _. rewrite Hr. done. }
    destruct (validateCreateOrder h body) as [[]|r|] eqn:Hvalidate.
    + destruct (create_handler_cases env st h body) as [[Hst Hcode]|(order & Hs & Hid & Heq)].
      * left. split_and!; [done| |intros; discriminate].
        intros _ _ _. destruct Hcode as [-> | ->]; done.
      * right. left. by exists h, body, order.
    + left. cbn [fst snd]. split_and!; [done| |intros; discriminate].
      intros _ _ _. apply validateCreateOrder_Send in Hvalidate as [-> _]. done.
    + left. split_and!; [done|done|intros; discriminate].
  - left. destruct (authenticateToken h) as [[]|r|];
      (split_and!; [done|intros; discriminate..]).
  - left. split_and!; [done|intros; discriminate..].
  - destruct (authenticateToken_cases h) as [->|(r & -> & Hr)]; cbn [mbind Step_bind].
    2: { left. cbn [fst snd]. split_and!; [done|intros; discriminate|].
         intros _ _ _ _. unfold rejected. rewrite Hr. done. }
    destruct (update_handler env st id body) as [[st' r]|r|] eqn:Hupdate.
    + apply update_handler_Next in Hupdate as (o & target & Hget & Hincl & Hcan & -> & ->).
      right. right. by exists h, id, body, o, target.
    + left. cbn [fst snd]. split_and!; [done|intros; discriminate|].
      intros _ _ _ _. by eapply update_handler_Send.
    + left. split_and!; [done|intros; discriminate|]. intros _ _ _ _. by compute.
Qed.

Lemma same_creation_data_refl (o : Order) : same_creation_data o o.
Proof. by repeat split. Qed.

Lemma same_creation_data_trans (o1 o2 o3 : Order) :
  same_creation_data o1 o2 → same_creation_data o2 o3 → same_creation_data o1 o3.
Proof.
  unfold same_creation_data. intros (-> & -> & -> & -> & ->) (-> & -> & -> & -> & ->).
  done.
Qed.

(** One request keeps the creation data of every stored order, unless it
    is a create that generates the identifier of that very order. *)
Lemma handle_keeps_creation_data env st req id o :
  JsMap.get id (orders st) = Some o →
  "ord-" +:+ uuid env ≠ id →
  ∃ o', JsMap.get id (orders (handle env st req).1) = Some o'
        ∧ same_creation_data o o'.
Proof.
  intros Hget Hfresh.
  destruct (handle_cases env st req)
    as [(-> & _)
       |[(h & body & order & _ & _ & Hid & ->)
        |(h & id' & body & o0 & target & _ & Hget0 & _ & _ & ->)]];
    cbn [fst orders].
  - exists o. auto using same_creation_data_refl.
  - exists o. rewrite get_set_ne by (by rewrite Hid).
    auto using same_creation_data_refl.
  - destruct (decide (id' = id)) as [->|Hne].
    + rewrite get_set_eq. eexists; split; [done|].
      rewrite Hget in Hget0. injection Hget0 as <-. by repeat split.
    + exists o. rewrite get_set_ne by done. auto using same_creation_data_refl.
Qed.

(** C6. A request answered with an error leaves the order store and the
    ledger as they were.  A create answered 201 has stored the order and
    recorded its key.  A status update answered 200 replaces the targeted
    order in place: the new record has the same orderId, customerId,
    placementDate, items and totalAmount as the old one, every other order
    is the one it was, and the ledger is unchanged.  Whatever the request,
    every stored order is still stored afterwards with the same orderId,
    customerId, placementDate, items and totalAmount, unless the request
    is a create that generates the identifier of that order again. *)
Theorem rejected_requests_change_nothing env st req :
  let answer := handle env st req in
  (rejected answer.2 → answer.1 = st)
  ∧ (∀ h body o, req = POST_orders h body →
       answer.2 = respond 201 (OrderBody o) →
       JsMap.get (Order.orderId o) (orders answer.1) = Some o
       ∧ idempotencyKeys answer.1 !! idempotency_key h = Some (Order.orderId o))
  ∧ (∀ h id body o', req = PATCH_status h id body →
       answer.2 = respond 200 (OrderBody o') →
       ∃ o, JsMap.get id (orders st) = Some o
         ∧ same_creation_data o o'
         ∧ orders answer.1 = JsMap.set id o' (orders st)
         ∧ JsMap.get id (orders answer.1) = Some o'
         ∧ (∀ id', id ≠ id' →
              JsMap.get id' (orders answer.1) = JsMap.get id' (orders st))
         ∧ idempotencyKeys answer.1 = idempotencyKeys st)
  ∧ (∀ id o, JsMap.get id (orders st) = Some o →
       "ord-" +:+ uuid env ≠ id →
       ∃ o', JsMap.get id (orders answer.1) = Some o' ∧ same_creation_data o o').
Proof.
  intros answer. subst answer.
  split_and!; [| | |intros id o; apply handle_keeps_creation_data];
  destruct (handle_cases env st req)
    as [(Hst & Hpost & Hpatch)
       |[(h & body & order & -> & Hstatus & Hid & Heq)
        |(h & id & body & o & target & -> & Hget & Hincl & Hcan & Heq)]];
    rewrite ?Heq; cbn [fst snd]; try (intros; discriminate);
    try (intros Hrej; by apply success_not_rejected in Hrej).
  - done.
  - intros h body o -> Hanswer. destruct (Hpost h body eq_refl). by rewrite Hanswer.
  - intros h' body' o [= <- <-] [= <-]. cbn [orders idempotencyKeys].
    split; [apply get_set_eq|apply lookup_insert_eq].
  - intros h id body o' -> Hanswer. specialize (Hpatch h id body eq_refl).
    rewrite Hanswer in Hpatch. by apply success_not_rejected in Hpatch.
  - intros h' id' body' o' [= <- <- <-] [= <-]. exists o.
    cbn [orders idempotencyKeys]. split_and!; try done.
    + apply get_set_eq.
    + intros id' Hne. by apply get_set_ne.
Qed.

End Frame.

(** [rejected_requests_change_nothing] at the example store: a refused
    change from pending to delivered leaves the store as it was. *)
Lemma rejected_requests_change_nothing_witness :
  (handle Example.later Example.store
     (PATCH_status Example.headers "ord-0001" (Example.status_body "delivered"))).1
  = Example.store.
Proof.
  apply (rejected_requests_change_nothing Example.later Example.store
           (PATCH_status Example.headers "ord-0001" (Example.status_body "delivered"))).
  vm_compute. discriminate.
Defined.

(** ** Sorting and filtering *)

Section Lists.
Context {A : Type}.
Implicit Types (f g : A → bool) (l : list A).

Lemma filter_bool_ext f g l :
  (∀ x, f x = g x) → filter (λ x, f x) l = filter (λ x, g x) l.
Proof.
  intros Hfg. apply list_filter_iff. intros x. by rewrite Hfg.
Qed.

Lemma filter_bool_and f g l :
  filter (λ x, f x) (filter (λ x, g x) l) = filter (λ x, g x && f x) l.
Proof.
  rewrite list_filter_filter. apply list_filter_iff. intros x.
  rewrite andb_True. tauto.
Qed.

Lemma elem_of_filter_bool f l x : x ∈ filter (λ x, f x) l ↔ f x = true ∧ x ∈ l.
Proof. rewrite list_elem_of_filter, Is_true_true. done. Qed.

Lemma sort_insert_perm (cmp : A → A → Z) x l : sort_insert cmp x l ≡ₚ x :: l.
Proof.
  induction l as [|y l IH]; [done|]. cbn [sort_insert].
  destruct (cmp x y <=? 0); [done|]. rewrite IH. apply Permutation_swap.
Qed.

Lemma sort_perm (cmp : A → A → Z) l : sort cmp l ≡ₚ l.
Proof.
  induction l as [|x l IH]; [done|]. cbn [sort].
  by rewrite sort_insert_perm, IH.
Qed.

End Lists.

(** The search result is ordered newest first. *)
Lemma sort_insert_sorted (x : Order) (l : list Order) :
  Sorted (λ a b, Order.placementDate b ≤ Order.placementDate a) l →
  Sorted (λ a b, Order.placementDate b ≤ Order.placementDate a)
    (sort_insert by_placement_desc x l).
Proof.
  induction 1 as [|y l Hsorted IH Hhd]; cbn [sort_insert].
  - repeat constructor.
  - unfold by_placement_desc at 1. destruct (Z.leb_spec (Order.placementDate y - Order.placementDate x) 0).
    + constructor; [by constructor|]. constructor. lia.
    + constructor; [done|]. destruct Hhd as [|z l' Hz]; cbn [sort_insert].
      * constructor. lia.
      * unfold by_placement_desc at 1.
        destruct (Order.placementDate z - Order.placementDate x <=? 0);
          constructor; lia.
Qed.

Lemma sort_sorted (l : list Order) :
  Sorted (λ a b, Order.placementDate b ≤ Order.placementDate a)
    (sort by_placement_desc l).
Proof.
  induction l as [|x l IH]; [constructor|]. by apply sort_insert_sorted.
Qed.

(** ** The search route *)

Section Search.
Context `{Runtime}.
Implicit Types (st : Store) (h : Headers) (q : Query).

Lemma handle_search_authorized env st h q :
  authorized h →
  handle env st (GET_orders h q) = (st, finish (search_handler st q)).
Proof. intros Hauth. cbn [handle]. by rewrite Hauth. Qed.

Lemma given_Some (s : option string) x : given s = Some x ↔ s = Some x ∧ x ≠ "".
Proof.
  unfold given. destruct s as [s|]; cbn [truthy_str].
  - destruct (decide (s = "")) as [->|Hne].
    + rewrite bool_decide_eq_true_2 by done. cbn [negb].
      split; [done|]. by intros [[= <-] Hx].
    + rewrite bool_decide_eq_false_2 by done. cbn [negb].
      split; [by intros [= <-]|by intros [? _]].
  - split; [done|by intros [? _]].
Qed.

(** [search_filter] in one piece: the two dates are read first to last,
    and the orders kept are those that match the customer and the
    window. *)
Lemma search_filter_unfold st q customer :
  q_customerId q = Some customer → customer ≠ "" →
  search_filter st q =
    start ← match given (q_startDate q) with
            | None => Next None
            | Some s =>
                match Date_parse s with
                | None => Send (validation_error "Invalid start date format")
                | Some t => Next (Some t)
                end
            end;
    stop ← match given (q_endDate q) with
           | None => Next None
           | Some e =>
               match Date_parse (e +:+ "T23:59:59.999Z") with
               | None => Send (validation_error "Invalid end date format")
               | Some t => Next (Some t)
               end
           end;
    Next (sort by_placement_desc
            (filter (λ o, matches customer start stop o) (JsMap.values (orders st)))).
Proof.
  intros Hcustomer Hne. unfold search_filter. rewrite Hcustomer.
  cbn [truthy_str from_option id]. rewrite bool_decide_eq_false_2 by done.
  cbn [negb reject_if mbind Step_bind].
  unfold given.
  destruct (truthy_str (q_startDate q)) eqn:Hs;
    [destruct (q_startDate q) as [s|]; [|done]; cbn [from_option id];
     destruct (Date_parse s) as [start|]; [|done]|];
    cbn [mbind Step_bind];
    (destruct (truthy_str (q_endDate q)) eqn:He;
     [destruct (q_endDate q) as [e|]; [|done]; cbn [from_option id];
      destruct (Date_parse (e +:+ "T23:59:59.999Z")) as [stop|]; [|done]|]);
    cbn [mbind Step_bind]; rewrite ?filter_bool_and; do 2 f_equal;
    try (apply filter_bool_ext; intros o; unfold matches, in_window;
         cbn [from_option]; by rewrite ?andb_assoc, ?andb_true_r).
Qed.

End Search.

(** ** Comparison of numbers *)

Lemma SFcompare_swap (x y : num) :
  SFcompare y x = CompOpp <$> SFcompare x y.
Proof.
  destruct x as [sx|sx| |sx mx ex], y as [sy|sy| |sy my ey];
    try destruct sx; try destruct sy; try done; cbn [SFcompare fmap option_fmap option_map].
  - rewrite (Z.compare_antisym ey ex). destruct (ey ?= ex); cbn [CompOpp]; try done.
    by rewrite (Pos.compare_cont_antisym my mx Eq), CompOpp_involutive.
  - rewrite (Z.compare_antisym ey ex). destruct (ey ?= ex); cbn [CompOpp]; try done.
    by rewrite (Pos.compare_cont_antisym mx my Eq).
Qed.

(** A limit above 100 is replaced by 100. *)
Lemma Math_min_cap (a : num) :
  Num.ltb (Num.of_Z 100) a = true → Num.Math_min a (Num.of_Z 100) = Num.of_Z 100.
Proof.
  unfold Num.ltb, SFltb, Num.Math_min. intros Hlt.
  destruct (SFcompare (Num.of_Z 100) a) as [[]|] eqn:Hcmp; try done.
  assert (SFcompare a (Num.of_Z 100) = Some Gt) as Hswap
    by (by rewrite SFcompare_swap, Hcmp).
  assert (Num.is_nan a = false) as -> by (by destruct a).
  unfold Num.ltb, SFltb. rewrite Hswap, Hcmp. cbn [orb Num.is_nan].
  by destruct a as [[]| | |].
Qed.

(** ** Whole numbers as floating-point numbers

    A whole number from 1 to 2^53 - 1 is a number exactly: its mantissa is
    the whole number shifted to 53 bits.  Sums of such numbers that stay
    below 2^53 are exact, and the conversion back to an integer returns
    the whole number. *)

Lemma digits2_log2 (p : positive) : Z.pos (digits2_pos p) = Z.log2 (Z.pos p) + 1.
Proof.
  assert (∀ q, digits2_pos q = Pos.size q) as Hsize
    by (induction q as [q IH|q IH|]; cbn [digits2_pos Pos.size]; congruence).
  destruct p as [p|p|]; cbn [digits2_pos Z.log2]; rewrite ?Hsize; lia.
Qed.

Lemma iter_xO (m d : positive) : Z.pos (Pos.iter xO m d) = Z.pos m * 2 ^ Z.pos d.
Proof.
  induction d as [|d IH] using Pos.peano_ind.
  - cbn [Pos.iter]. lia.
  - rewrite Pos.iter_succ, Pos2Z.inj_succ, Z.pow_succ_r by lia.
    rewrite Pos2Z.inj_xO, IH. lia.
Qed.

Lemma shr_1_double (x : Z) :
  0 ≤ x →
  shr_1 {| shr_m := 2 * x; shr_r := false; shr_s := false |}
  = {| shr_m := x; shr_r := false; shr_s := false |}.
Proof. destruct x as [|q|q]; [done|done|lia]. Qed.

Lemma shr_exact (p : positive) (x k : Z) :
  0 ≤ x → 0 ≤ k →
  SpecFloat.iter_pos shr_1 p {| shr_m := x * 2 ^ (k + Z.pos p); shr_r := false; shr_s := false |}
  = {| shr_m := x * 2 ^ k; shr_r := false; shr_s := false |}.
Proof.
  intros Hx. revert k.
  assert (∀ k, 0 ≤ k →
            shr_1 {| shr_m := x * 2 ^ (k + 1); shr_r := false; shr_s := false |}
            = {| shr_m := x * 2 ^ k; shr_r := false; shr_s := false |}) as Hone.
  { intros k Hk. rewrite Z.pow_add_r, Z.pow_1_r by lia.
    replace (x * (2 ^ k * 2)) with (2 * (x * 2 ^ k)) by lia.
    apply shr_1_double. apply Z.mul_nonneg_nonneg; [done|]. by apply Z.pow_nonneg. }
  induction p as [p IH|p IH|]; intros k Hk; cbn [SpecFloat.iter_pos].
  - replace (k + Z.pos p~1) with ((k + Z.pos p + Z.pos p) + 1) by lia.
    rewrite Hone by lia. rewrite IH by lia. by rewrite IH.
  - replace (k + Z.pos p~0) with ((k + Z.pos p) + Z.pos p) by lia.
    rewrite IH by lia. by rewrite IH.
  - by apply Hone.
Qed.

(** Rounding a whole number [n] below 2^53, given as [n * 2^s] with the
    exponent [-s], yields [n] with its mantissa shifted to 53 bits. *)
Lemma normalize_whole (n s : Z) (m : positive) :
  0 < n → Z.log2 n ≤ 52 → 0 ≤ s →
  Z.pos m = n * 2 ^ s →
  binary_normalize Num.prec Num.emax (Z.pos m) (- s) false
  = S754_finite false (Z.to_pos (n * 2 ^ (52 - Z.log2 n))) (Z.log2 n - 52).
Proof.
  intros Hn Hlog Hs Hm.
  pose proof (Z.log2_nonneg n) as Hlog0.
  set (t := Z.log2 n - 52).
  assert (∀ k (q : positive), 0 ≤ k → Z.pos q = n * 2 ^ k →
            fexp Num.prec Num.emax (Z.pos (digits2_pos q) + - k) = t) as Hfexp.
  { intros k q Hk Hq. rewrite digits2_log2, Hq, Z.log2_mul_pow2 by lia.
    unfold fexp, emin, Num.prec, Num.emax, t. lia. }
  assert (∃ q : positive, Z.pos q = n * 2 ^ (- t)) as [q Hq].
  { exists (Z.to_pos (n * 2 ^ (- t))). rewrite Z2Pos.id; [done|].
    apply Z.mul_pos_pos; [done|]. apply Z.pow_pos_nonneg; lia. }
  replace (52 - Z.log2 n) with (- t) by (unfold t; lia).
  rewrite <- Hq, Pos2Z.id.
  assert (binary_round_aux Num.prec Num.emax false (Z.pos q) t loc_Exact
          = S754_finite false q t) as Haux.
  { unfold binary_round_aux, shr_fexp. cbn [Zdigits2 shr_record_of_loc].
    replace t with (- - t) at 1 2 by lia. rewrite (Hfexp (- t) q) by (done || lia).
    rewrite Z.opp_involutive, Z.sub_diag. cbn [shr shr_m loc_of_shr_record round_nearest_even].
    cbn [Zdigits2 shr_record_of_loc].
    replace t with (- - t) at 1 2 by lia. rewrite (Hfexp (- t) q) by (done || lia).
    rewrite Z.opp_involutive, Z.sub_diag. cbn [shr shr_m].
    replace (t <=? Num.emax - Num.prec) with true; [done|].
    symmetry. apply Z.leb_le. unfold Num.emax, Num.prec, t. lia. }
  cbn [binary_normalize]. unfold binary_round, shl_align.
  rewrite (Hfexp s m) by done.
  destruct (t - - s) as [|d|d] eqn:Hd.
  - (* the exponent is the right one already *)
    assert (s = - t) as -> by lia. rewrite Z.opp_involutive.
    assert (m = q) as -> by lia. done.
  - (* too many bits: shifted right, without loss *)
    unfold binary_round_aux, shr_fexp. cbn [Zdigits2 shr_record_of_loc].
    rewrite (Hfexp s m), Hd by done. cbn [shr].
    replace (Z.pos m) with (n * 2 ^ (- t + Z.pos d))
      by (rewrite Hm; f_equal; f_equal; lia).
    rewrite shr_exact by lia. cbn [shr_m loc_of_shr_record round_nearest_even].
    rewrite <- Hq. cbn [Zdigits2 shr_record_of_loc].
    replace (- s + Z.pos d) with (- - t) by lia.
    rewrite (Hfexp (- t) q) by (done || lia).
    rewrite Z.opp_involutive, Z.sub_diag. cbn [shr shr_m].
    replace (t <=? Num.emax - Num.prec) with true; [done|].
    symmetry. apply Z.leb_le. unfold Num.emax, Num.prec, t. lia.
  - (* too few bits: shifted left *)
    assert (Pos.iter xO m d = q) as ->; [|done].
    apply Pos2Z.inj. rewrite iter_xO, Hm, Hq, <- Z.mul_assoc, <- Z.pow_add_r by lia.
    f_equal. f_equal. lia.
Qed.

(** The number that holds a whole number from 1 to 2^53 - 1. *)
Lemma of_Z_whole (n : Z) :
  0 < n → Z.log2 n ≤ 52 →
  Num.of_Z n = S754_finite false (Z.to_pos (n * 2 ^ (52 - Z.log2 n))) (Z.log2 n - 52).
Proof.
  intros Hn Hlog. unfold Num.of_Z. destruct n as [|m|m]; [lia| |lia].
  apply (normalize_whole (Z.pos m) 0 m); [done..|lia].
Qed.

Lemma log2_below (n : Z) : 0 ≤ n → n < 2 ^ 53 → Z.log2 n ≤ 52.
Proof.
  intros Hn Hlt. destruct (decide (n = 0)) as [->|Hne]; [done|].
  apply Z.lt_succ_r, Z.log2_lt_pow2; [lia|done].
Qed.

(** Sums of whole numbers are exact below 2^53. *)
Lemma add_whole (a b : Z) :
  0 ≤ a → 0 ≤ b → a + b < 2 ^ 53 →
  Num.add (Num.of_Z a) (Num.of_Z b) = Num.of_Z (a + b).
Proof.
  intros Ha Hb Hsum.
  destruct (decide (a = 0)) as [->|Ha0].
  { rewrite Z.add_0_l. change (Num.of_Z 0) with (S754_zero false).
    destruct (decide (b = 0)) as [->|Hb0]; [done|].
    rewrite of_Z_whole by (lia || apply log2_below; lia). done. }
  destruct (decide (b = 0)) as [->|Hb0].
  { rewrite Z.add_0_r. change (Num.of_Z 0) with (S754_zero false).
    rewrite of_Z_whole by (lia || apply log2_below; lia). done. }
  assert (2 ^ 53 = 9007199254740992) as Hpow by done.
  rewrite (of_Z_whole a), (of_Z_whole b), (of_Z_whole (a + b))
    by (lia || apply log2_below; lia).
  pose proof (log2_below a) as Hla. pose proof (log2_below b) as Hlb.
  pose proof (Z.log2_nonneg a) as Hla0. pose proof (Z.log2_nonneg b) as Hlb0.
  set (ta := Z.log2 a - 52). set (tb := Z.log2 b - 52).
  replace (52 - Z.log2 a) with (- ta) by (unfold ta; lia).
  replace (52 - Z.log2 b) with (- tb) by (unfold tb; lia).
  assert (ta ≤ 0 ∧ tb ≤ 0) as [Hta Htb] by (unfold ta, tb; lia).
  unfold Num.add. cbn [SFadd]. set (ez := Z.min ta tb).
  assert (∀ c t, 0 < c → t ≤ 0 → ez ≤ t →
            Z.pos (shl_align (Z.to_pos (c * 2 ^ (- t))) t ez).1 = c * 2 ^ (- ez)) as Halign.
  { intros c t Hc Ht Hez. unfold shl_align.
    assert (0 < c * 2 ^ (- t)) by (apply Z.mul_pos_pos; [done|apply Z.pow_pos_nonneg; lia]).
    destruct (ez - t) as [|d|d] eqn:Hd; cbn [fst].
    - rewrite Z2Pos.id by done. do 2 f_equal. lia.
    - lia.
    - rewrite iter_xO, Z2Pos.id, <- Z.mul_assoc, <- Z.pow_add_r by lia.
      do 2 f_equal. lia. }
  rewrite (Halign a ta), (Halign b tb) by (unfold ez; lia).
  cbn [cond_Zopp]. rewrite <- Z.mul_add_distr_r.
  assert (0 < (a + b) * 2 ^ (- ez))
    by (apply Z.mul_pos_pos; [lia|apply Z.pow_pos_nonneg; unfold ez; lia]).
  replace ez with (- - ez) at 2 by lia.
  rewrite <- (Z2Pos.id ((a + b) * 2 ^ (- ez))) by done.
  apply (normalize_whole (a + b) (- ez)); [lia|apply log2_below; lia|unfold ez; lia|].
  by rewrite Z2Pos.id.
Qed.

(** The conversion to an integer returns the whole number. *)
Lemma ToIntegerOrInfinity_whole (n : Z) :
  0 ≤ n → n < 2 ^ 53 → Num.ToIntegerOrInfinity (Num.of_Z n) = Num.Fin n.
Proof.
  intros Hn Hlt. destruct (decide (n = 0)) as [->|Hn0]; [done|].
  pose proof (log2_below n Hn Hlt) as Hlog. pose proof (Z.log2_nonneg n) as Hlog0.
  rewrite of_Z_whole by lia. cbn [Num.ToIntegerOrInfinity]. f_equal.
  assert (0 < n * 2 ^ (52 - Z.log2 n))
    by (apply Z.mul_pos_pos; [lia|apply Z.pow_pos_nonneg; lia]).
  rewrite Z2Pos.id by done.
  destruct (Z.log2 n - 52) as [|p|p] eqn:Hp.
  - replace (52 - Z.log2 n) with 0 by lia. rewrite Z.pow_0_r. lia.
  - lia.
  - replace (52 - Z.log2 n) with (Z.pos p) by lia.
    apply Z.div_mul. apply Z.pow_nonzero; lia.
Qed.

(** Whole numbers below 2^53 compare as numbers the way they compare as
    integers. *)
Lemma compare_whole (a b : Z) :
  0 ≤ a → a < 2 ^ 53 → 0 ≤ b → b < 2 ^ 53 →
  SFcompare (Num.of_Z a) (Num.of_Z b) = Some (a ?= b).
Proof.
  intros Ha Ha53 Hb Hb53.
  destruct (decide (a = 0)) as [->|Ha0]; destruct (decide (b = 0)) as [->|Hb0].
  - done.
  - rewrite (of_Z_whole b) by (lia || apply log2_below; lia).
    change (Num.of_Z 0) with (S754_zero false). cbn [SFcompare].
    symmetry. f_equal. apply Z.compare_lt_iff. lia.
  - rewrite (of_Z_whole a) by (lia || apply log2_below; lia).
    change (Num.of_Z 0) with (S754_zero false). cbn [SFcompare].
    symmetry. f_equal. apply Z.compare_gt_iff. lia.
  - rewrite (of_Z_whole a), (of_Z_whole b) by (lia || apply log2_below; lia).
    pose proof (log2_below a Ha Ha53). pose proof (log2_below b Hb Hb53).
    pose proof (Z.log2_nonneg a). pose proof (Z.log2_nonneg b).
    cbn [SFcompare]. f_equal.
    destruct (Z.compare_spec (Z.log2 a - 52) (Z.log2 b - 52)) as [Heq|Hlt|Hgt].
    + assert (Z.log2 a = Z.log2 b) as Hlog by lia. rewrite Hlog.
      assert (0 < 2 ^ (52 - Z.log2 b)) by (apply Z.pow_pos_nonneg; lia).
      change (Pos.compare_cont Eq ?x ?y) with (Pos.compare x y).
      rewrite Pos2Z.inj_compare, !Z2Pos.id by (apply Z.mul_pos_pos; lia).
      set (c := 2 ^ (52 - Z.log2 b)) in *.
      destruct (Z.compare_spec (a * c) (b * c)), (Z.compare_spec a b); try done; nia.
    + symmetry. apply Z.compare_lt_iff. apply Z.log2_lt_cancel. lia.
    + symmetry. apply Z.compare_gt_iff. apply Z.log2_lt_cancel. lia.
Qed.

(** [Math.min] of whole numbers below 2^53 is the smaller whole number. *)
Lemma Math_min_whole (a b : Z) :
  0 ≤ a → a < 2 ^ 53 → 0 ≤ b → b < 2 ^ 53 →
  Num.Math_min (Num.of_Z a) (Num.of_Z b) = Num.of_Z (Z.min a b).
Proof.
  intros Ha Ha53 Hb Hb53. unfold Num.Math_min, Num.ltb, SFltb.
  rewrite (compare_whole a b), (compare_whole b a) by done.
  assert (∀ n, 0 ≤ n → n < 2 ^ 53 → Num.is_nan (Num.of_Z n) = false) as Hnan.
  { intros n Hn Hn53. destruct (decide (n = 0)) as [->|Hn0]; [done|].
    by rewrite of_Z_whole by (lia || apply log2_below; lia). }
  rewrite !Hnan by done. cbn [orb].
  destruct (Z.compare_spec a b) as [->|Hlt|Hgt].
  - rewrite Z.compare_refl, Z.min_id. by destruct (Num.of_Z b) as [[]| | |].
  - by rewrite Z.min_l by lia.
  - rewrite (proj2 (Z.compare_lt_iff b a) Hgt). by rewrite Z.min_r by lia.
Qed.

(** The slice from a whole offset over a whole limit skips [offset]
    elements and keeps at most [limit]. *)
Lemma slice_whole {A} (l : list A) (k n : Z) :
  0 ≤ k → 0 ≤ n → k + n < 2 ^ 53 →
  slice l (Num.of_Z k) (Num.add (Num.of_Z k) (Num.of_Z n))
  = take (Z.to_nat n) (drop (Z.to_nat k) l).
Proof.
  intros Hk Hn Hsum. unfold slice.
  rewrite add_whole, !ToIntegerOrInfinity_whole by lia. cbn [slice_bound].
  destruct (Z.ltb_spec k 0); [lia|]. destruct (Z.ltb_spec (k + n) 0); [lia|].
  set (len := Z.of_nat (length l)).
  destruct (decide (len ≤ k)) as [Hpast|Hin].
  - rewrite (Z.min_r k), (Z.min_r (k + n)) by lia.
    rewrite !drop_ge by lia. by rewrite !take_nil.
  - rewrite (Z.min_l k) by lia.
    destruct (decide (k + n ≤ len)) as [Hall|Hcut].
    + rewrite Z.min_l by lia. do 2 f_equal. lia.
    + rewrite Z.min_r by lia. rewrite !take_ge; [done|rewrite length_drop; lia..].
Qed.

Section Pagination.
Context `{Runtime}.
Implicit Types (st : Store) (h : Headers) (q : Query).

(** What a successful [search_filter] returns. *)
Lemma search_filter_Next st q found :
  search_filter st q = Next found →
  ∃ customer,
    q_customerId q = Some customer ∧ customer ≠ ""
    ∧ (∀ s, given (q_startDate q) = Some s → is_Some (Date_parse s))
    ∧ (∀ e, given (q_endDate q) = Some e → is_Some (Date_parse (e +:+ "T23:59:59.999Z")))
    ∧ found = sort by_placement_desc
                (filter (λ o, matches customer (window_start q) (window_stop q) o)
                   (JsMap.values (orders st))).
Proof.
  destruct (q_customerId q) as [customer|] eqn:Hcustomer.
  2: { unfold search_filter. by rewrite Hcustomer. }
  destruct (decide (customer = "")) as [->|Hne].
  { unfold search_filter. by rewrite Hcustomer. }
  rewrite (search_filter_unfold st q customer) by done.
  unfold window_start, window_stop.
  destruct (given (q_startDate q)) as [s|]; cbn [mbind option_bind];
    [destruct (Date_parse s) as [start|] eqn:Hstart; [|done]|];
    cbn [mbind Step_bind];
    (destruct (given (q_endDate q)) as [e|]; cbn [mbind option_bind];
     [destruct (Date_parse (e +:+ "T23:59:59.999Z")) as [stop|] eqn:Hstop; [|done]|]);
    cbn [mbind Step_bind]; intros [= <-]; exists customer;
    (split_and!; [done|done| | |done]); intros ? [= <-] || intros ? [=]; eauto.
Qed.

(** C7. When the search gets as far as pagination, the response is 200
    and carries the slice of the filtered and sorted list taken from
    [offset] to [offset + limit], the length of that whole list as
    totalCount, and the two page numbers; a limit above 100 is replaced by
    100; and totalCount is the same for every limit and offset.  When the
    offset and the limit read as whole numbers [k] and [n] (below 2^53),
    the page is the filtered and sorted list without its first [k] orders,
    cut to the first [min n 100] of what is left, so that it never holds
    more than 100 orders, and the response reports the limit
    [min n 100]. *)
Theorem pagination_after_filtering env st h q found :
  authorized h →
  search_filter st q = Next found →
  handle env st (GET_orders h q) =
    (st, respond 200
           (SearchBody (slice found (offsetNum q) (Num.add (offsetNum q) (limitNum q)))
              (length found) (limitNum q) (offsetNum q)))
  ∧ (∀ s, q_limit q = Some s → Num.ltb (Num.of_Z 100) (parseInt s) = true →
       limitNum q = Num.of_Z 100)
  ∧ Sorted (λ a b, Order.placementDate b ≤ Order.placementDate a) found
  ∧ (∀ limit offset,
       totalCount_of (handle env st (GET_orders h (with_page q limit offset))).2
       = Some (length found))
  ∧ (∀ k n,
       0 ≤ k → 0 ≤ n → n < 2 ^ 53 → k + Z.min n 100 < 2 ^ 53 →
       offsetNum q = Num.of_Z k →
       from_option parseInt (Num.of_Z 20) (q_limit q) = Num.of_Z n →
       let page := take (Z.to_nat (Z.min n 100)) (drop (Z.to_nat k) found) in
       handle env st (GET_orders h q) =
         (st, respond 200
                (SearchBody page (length found) (Num.of_Z (Z.min n 100)) (Num.of_Z k)))
       ∧ (length page ≤ 100)%nat).
Proof.
  intros Hauth Hfilter. split_and!.
  - rewrite handle_search_authorized by done. unfold search_handler.
    by rewrite Hfilter.
  - intros s Hs Habove. unfold limitNum. rewrite Hs. by apply Math_min_cap.
  - apply search_filter_Next in Hfilter as (customer & _ & _ & _ & _ & ->).
    apply sort_sorted.
  - intros limit offset. rewrite handle_search_authorized by done.
    unfold search_handler.
    change (search_filter st (with_page q limit offset)) with (search_filter st q).
    by rewrite Hfilter.
  - intros k n Hk Hn Hn53 Hsum Hoffset Hlimit page. split.
    + rewrite handle_search_authorized by done. unfold search_handler.
      rewrite Hfilter. cbn [mbind Step_bind finish].
      fold (offsetNum q). rewrite Hoffset, Hlimit.
      rewrite Math_min_whole by done.
      rewrite slice_whole by lia. done.
    + subst page. rewrite length_take. lia.
Qed.

End Pagination.

Section Window.
Context `{Runtime}.
Implicit Types (st : Store) (h : Headers) (q : Query).

Lemma matches_spec customer (start stop : option Z) (o : Order) :
  matches customer start stop o = true ↔
  Order.customerId o = Some (JStr customer)
  ∧ (∀ s, start = Some s → s ≤ Order.placementDate o)
  ∧ (∀ e, stop = Some e → Order.placementDate o ≤ e).
Proof.
  unfold matches, in_window. rewrite !andb_true_iff.
  assert (strict_eq_string (Order.customerId o) customer = true
          ↔ Order.customerId o = Some (JStr customer)) as ->.
  { unfold strict_eq_string. destruct (Order.customerId o) as [[| | |s| |]|]; try done.
    rewrite bool_decide_eq_true. split; [by intros ->|by intros [= ->]]. }
  assert (from_option (λ s, s <=? Order.placementDate o) true start = true
          ↔ ∀ s, start = Some s → s ≤ Order.placementDate o) as ->.
  { destruct start as [s|]; cbn [from_option]; [|done].
    rewrite Z.leb_le. split; [by intros ? ? [= <-]|auto]. }
  assert (from_option (λ e, Order.placementDate o <=? e) true stop = true
          ↔ ∀ e, stop = Some e → Order.placementDate o ≤ e) as ->.
  { destruct stop as [e|]; cbn [from_option]; [|done].
    rewrite Z.leb_le. split; [by intros ? ? [= <-]|auto]. }
  tauto.
Qed.

(** C8. For a search with a customer identifier: a start date that does
    not parse is answered 400 "Invalid start date format", and otherwise
    an end date that does not parse once "T23:59:59.999Z" is appended is
    answered 400 "Invalid end date format", whatever the store holds;
    otherwise the orders found, before pagination, are exactly the stored
    orders whose customerId is that string, whose placement time is at or
    after the start (when one is given) and at or before the end of the
    end day (when one is given), and totalCount is their number. *)
Theorem search_keeps_matching_orders env st h q customer :
  authorized h →
  q_customerId q = Some customer →
  customer ≠ "" →
  let answer := handle env st (GET_orders h q) in
  let start_ok := ∀ s, given (q_startDate q) = Some s → is_Some (Date_parse s) in
  let end_ok :=
    ∀ e, given (q_endDate q) = Some e → is_Some (Date_parse (e +:+ "T23:59:59.999Z")) in
  (∀ s, given (q_startDate q) = Some s → Date_parse s = None →
     answer = (st, respond 400 (ErrorBody "VALIDATION_ERROR" "Invalid start date format")))
  ∧ (∀ e, start_ok → given (q_endDate q) = Some e →
       Date_parse (e +:+ "T23:59:59.999Z") = None →
       answer = (st, respond 400 (ErrorBody "VALIDATION_ERROR" "Invalid end date format")))
  ∧ (start_ok → end_ok →
     ∃ found,
       search_filter st q = Next found
       ∧ status_code answer.2 = 200
       ∧ totalCount_of answer.2 = Some (length found)
       ∧ found ≡ₚ filter (λ o, matches customer (window_start q) (window_stop q) o)
                    (JsMap.values (orders st))
       ∧ ∀ o, o ∈ found ↔
           o ∈ JsMap.values (orders st)
           ∧ Order.customerId o = Some (JStr customer)
           ∧ (∀ start, window_start q = Some start → start ≤ Order.placementDate o)
           ∧ (∀ stop, window_stop q = Some stop → Order.placementDate o ≤ stop)).
Proof.
  intros Hauth Hcustomer Hne answer start_ok end_ok. subst answer.
  rewrite handle_search_authorized by done. unfold search_handler.
  rewrite (search_filter_unfold st q customer) by done. split_and!.
  - intros s -> ->. done.
  - intros e Hstart -> ->.
    destruct (given (q_startDate q)) as [s|]; [|done].
    by destruct (Hstart s eq_refl) as [start ->].
  - intros Hstart Hend. unfold window_start, window_stop.
    destruct (given (q_startDate q)) as [s|]; cbn [mbind option_bind];
      [destruct (Hstart s eq_refl) as [start ->]|];
      (destruct (given (q_endDate q)) as [e|]; cbn [mbind option_bind];
       [destruct (Hend e eq_refl) as [stop ->]|]);
      cbn [mbind Step_bind finish snd status_code respond totalCount_of payload];
      (eexists; split_and!; [done|done|done|apply sort_perm|]);
      intros o; rewrite sort_perm, elem_of_filter_bool, matches_spec; tauto.
Qed.

End Window.

(** [pagination_after_filtering] at the store to page through: the search
    matches three orders; with the offset 1 and the limit 500 the page
    holds the two orders after the newest, and the limit reported is
    100. *)
Lemma pagination_after_filtering_witness :
  handle Example.later Paging.store (GET_orders Example.headers Paging.query) =
    (Paging.store,
     respond 200 (SearchBody [Paging.middle; Paging.oldest] 3 (Num.of_Z 100) (Num.of_Z 1)))
  ∧ (length [Paging.middle; Paging.oldest] ≤ 100)%nat.
Proof.
  refine (proj2 (proj2 (proj2 (proj2
            (pagination_after_filtering Example.later Paging.store Example.headers
               Paging.query [Paging.newest; Paging.middle; Paging.oldest] _ _))))
            1 500 _ _ _ _ _ _).
  - reflexivity.
  - vm_compute. reflexivity.
  - lia.
  - lia.
  - reflexivity.
  - reflexivity.
  - vm_compute. reflexivity.
  - vm_compute. reflexivity.
Defined.

(** [search_keeps_matching_orders] at the example store, for a start
    date that is not a date. *)
Lemma search_keeps_matching_orders_witness :
  handle Example.later Example.store
      (GET_orders Example.headers
         {| q_customerId := Some "test-customer-123";
            q_startDate := Some "invalid-date"; q_endDate := None;
            q_limit := None; q_offset := None |})
  = (Example.store,
     respond 400 (ErrorBody "VALIDATION_ERROR" "Invalid start date format")).
Proof.
  refine (proj1 (search_keeps_matching_orders Example.later Example.store Example.headers
                   _ "test-customer-123" _ _ _) "invalid-date" _ _).
  - reflexivity.
  - reflexivity.
  - discriminate.
  - reflexivity.
  - reflexivity.
Defined.

(** ** The status invariant *)

Section Invariant.
Context `{Runtime}.
Implicit Types (st : Store) (o : Order).

Lemma statuses_valid_set (m : list (string * Order)) id o keys :
  Forall (λ o, Order.status o ∈ validStatuses) (JsMap.values m) →
  Order.status o ∈ validStatuses →
  statuses_valid {| orders := JsMap.set id o m; idempotencyKeys := keys |}.
Proof.
  unfold statuses_valid. rewrite !Forall_forall. cbn [orders].
  intros Hvalid Ho x [->|Hx]%values_set; auto.
Qed.

Lemma pending_valid : "pending" ∈ validStatuses.
Proof. by left. Qed.

Lemma handle_statuses_valid env st req :
  statuses_valid st → statuses_valid (handle env st req).1.
Proof.
  intros Hvalid.
  destruct (handle_cases env st req)
    as [(-> & _)
       |[(h & body & order & _ & Hstatus & _ & ->)
        |(h & id & body & o & target & _ & _ & Hincl & _ & ->)]]; [done|..].
  - apply statuses_valid_set; [done|]. rewrite Hstatus. apply pending_valid.
  - apply statuses_valid_set; [done|]. by apply includes_Some in Hincl as [_ ?].
Qed.

Lemma seed_one_statuses_valid index env orderData st st' :
  seed_one index env orderData st = Next st' →
  statuses_valid st → statuses_valid st'.
Proof.
  unfold seed_one. intros Hseed Hvalid.
  destruct (createOrder env orderData.1 orderData.2 None st) as [[st1 order]| |] eqn:Hcreate;
    [|done..].
  apply createOrder_Next in Hcreate as (Hstatus & _ & ->).
  cbn [mbind Step_bind] in Hseed. injection Hseed as <-.
  apply statuses_valid_set.
  - apply (statuses_valid_set _ _ _ (idempotencyKeys st)); [done|].
    rewrite Hstatus. apply pending_valid.
  - cbn [Order.status]. repeat case_decide; rewrite ?Hstatus;
      apply (bool_decide_unpack _); reflexivity.
Qed.

Lemma seedData_statuses_valid e0 e1 e2 st st' :
  seedData e0 e1 e2 st = Next st' →
  statuses_valid st → statuses_valid st'.
Proof.
  unfold seedData, sampleOrders. intros Hseed Hvalid.
  destruct (seed_one 0 e0 _ st) as [st0| |] eqn:H0; [|done..].
  cbn [mbind Step_bind] in Hseed.
  destruct (seed_one 1 e1 _ st0) as [st1| |] eqn:H1; [|done..].
  cbn [mbind Step_bind] in Hseed.
  eauto using seed_one_statuses_valid.
Qed.

(** The ledger only names stored orders: a create records the identifier
    of the order it has just stored, and orders are never removed. *)
Lemma handle_ledger_sound env st req :
  ledger_sound st → ledger_sound (handle env st req).1.
Proof.
  intros Hsound.
  destruct (handle_cases env st req)
    as [(-> & _)
       |[(h & body & order & _ & _ & _ & ->)
        |(h & id & body & o & target & _ & Hget & _ & _ & ->)]]; [done|..];
    intros key id'; cbn [fst orders idempotencyKeys].
  - rewrite lookup_insert. case_decide.
    + intros [= <-]. rewrite get_set_eq. eauto.
    + intros Hkey%Hsound. destruct (decide (Order.orderId order = id')) as [<-|Hne].
      * rewrite get_set_eq. eauto.
      * by rewrite get_set_ne.
  - intros Hkey%Hsound. destruct (decide (id = id')) as [<-|Hne].
    + rewrite get_set_eq. eauto.
    + by rewrite get_set_ne.
Qed.

Lemma seed_one_ledger index env orderData st st' :
  seed_one index env orderData st = Next st' →
  idempotencyKeys st' = idempotencyKeys st.
Proof.
  unfold seed_one.
  destruct (createOrder env orderData.1 orderData.2 None st) as [[st1 order]| |] eqn:Hcreate;
    [|done..].
  apply createOrder_Next in Hcreate as (_ & _ & ->).
  cbn [mbind Step_bind]. by intros [= <-].
Qed.

Lemma reachable_ledger_sound st : reachable st → ledger_sound st.
Proof.
  induction 1 as [|e0 e1 e2 st Hseed|env st req _ IH].
  - intros key id. cbn [empty_store idempotencyKeys]. by rewrite lookup_empty.
  - unfold seedData, sampleOrders in Hseed.
    destruct (seed_one 0 e0 _ empty_store) as [st0| |] eqn:H0; [|done..].
    cbn [mbind Step_bind] in Hseed.
    destruct (seed_one 1 e1 _ st0) as [st1| |] eqn:H1; [|done..].
    cbn [mbind Step_bind] in Hseed.
    intros key id.
    rewrite (seed_one_ledger _ _ _ _ _ Hseed), (seed_one_ledger _ _ _ _ _ H1),
      (seed_one_ledger _ _ _ _ _ H0).
    cbn [empty_store idempotencyKeys]. by rewrite lookup_empty.
  - by apply handle_ledger_sound.
Qed.

(** C10. In every store the server can reach, from the empty or the
    seeded one and through any requests, each order has a status of the
    six-value enumeration.  Every request preserves this: a create
    answered 201 has written "pending", and a status update answered 200
    has written the requested status, which is a member of the
    enumeration. *)
Theorem statuses_always_valid st :
  reachable st →
  statuses_valid st
  ∧ (∀ env req, statuses_valid (handle env st req).1)
  ∧ (∀ env h body o,
       (handle env st (POST_orders h body)).2 = respond 201 (OrderBody o) →
       Order.status o = "pending")
  ∧ (∀ env h id body o,
       (handle env st (PATCH_status h id body)).2 = respond 200 (OrderBody o) →
       Order.status o ∈ validStatuses
       ∧ lookup_prop "status" body = Some (JStr (Order.status o))).
Proof.
  intros Hreach.
  assert (statuses_valid st) as Hvalid.
  { induction Hreach as [|e0 e1 e2 st Hseed|env st req _ IH].
    - constructor.
    - eapply seedData_statuses_valid; [done|constructor].
    - by apply handle_statuses_valid. }
  split_and!; [done|auto using handle_statuses_valid| |].
  - intros env h body o Hanswer.
    destruct (handle_cases env st (POST_orders h body))
      as [(_ & Hpost & _)
         |[(h' & body' & order & _ & Hstatus & _ & Heq)
          |(? & ? & ? & ? & ? & [=] & _)]].
    + destruct (Hpost h body eq_refl). by rewrite Hanswer.
    + rewrite Heq in Hanswer. by injection Hanswer as <-.
  - intros env h id body o Hanswer.
    destruct (handle_cases env st (PATCH_status h id body))
      as [(_ & _ & Hpatch)
         |[(? & ? & ? & [=] & _)
          |(h' & id' & body' & o0 & target & [= <- <- <-] & _ & Hincl & _ & Heq)]].
    + specialize (Hpatch h id body eq_refl). rewrite Hanswer in Hpatch.
      by apply success_not_rejected in Hpatch.
    + rewrite Heq in Hanswer. injection Hanswer as <-.
      apply includes_Some in Hincl as [-> Hin]. done.
Qed.

End Invariant.

(** The example store is the store after the first create of the test
    suite, and [statuses_always_valid] applies to it. *)
Lemma statuses_always_valid_witness : statuses_valid Example.store.
Proof.
  refine (proj1 (statuses_always_valid Example.store _)).
  exact (reachable_request Example.env empty_store
           (POST_orders Example.headers Example.create_body) reachable_start).
Defined.

(** ** The total amount *)

(** Of the two integers next to [a / s], the nearer one, and the upper one
    when they are equally near, is the integer part of [a / s + 1/2]. *)
Lemma half_up_between (a s : Z) :
  0 < s →
  (if (a / s + 1) * s - a <=? a - a / s * s then a / s + 1 else a / s)
  = (a * 2 + s) / (s * 2).
Proof.
  intros Hs. pose proof (Z.div_mod a s ltac:(lia)) as Hdiv.
  pose proof (Z.mod_pos_bound a s Hs) as Hmod.
  destruct (Z.leb_spec ((a / s + 1) * s - a) (a - a / s * s)).
  - apply Z.div_unique with (r := 2 * (a mod s) - s); lia.
  - apply Z.div_unique with (r := 2 * (a mod s) + s); lia.
Qed.

(** The digits [toFixed(2)] prints are the half-up rounding of the exact
    value of the number. *)
Lemma toFixed2_digits_half_up m e :
  Num.toFixed2_digits m e = half_up_cents (Num.to_Q (S754_finite false m e)).
Proof.
  unfold half_up_cents, Num.to_Q, Num.toFixed2_digits.
  destruct e as [|p|p]; cbn [Qmult Qplus Qfloor inject_Z Qnum Qden Pos.mul].
  - apply Z.div_unique with (r := 1); lia.
  - apply Z.div_unique with (r := 1); lia.
  - rewrite !Pos.mul_1_l, !Pos2Z.inj_mul, !Pos2Z.inj_pow, Z.mul_1_l.
    apply half_up_between. by apply Z.pow_pos_nonneg.
Qed.

Lemma toFixed2_digits_nonneg m e : 0 ≤ Num.toFixed2_digits m e.
Proof.
  unfold Num.toFixed2_digits. destruct e as [|p|p]; [lia|lia|].
  assert (0 < 2 ^ Z.pos p) by (by apply Z.pow_pos_nonneg).
  assert (0 ≤ (100 * Z.pos m) / 2 ^ Z.pos p) by (apply Z.div_pos; lia).
  case_match; lia.
Qed.

Lemma toFixed2_half_up (x : num) :
  Num.roundable x = true →
  Num.toFixed2_Number x = Num.dec (half_up_cents (Num.to_Q x)) 2.
Proof.
  destruct x as [s| | |[] m e]; try done; cbn [Num.roundable Num.toFixed2_Number].
  intros ->%negb_true_iff. rewrite <- toFixed2_digits_half_up.
  pose proof (toFixed2_digits_nonneg m e).
  by destruct (Num.toFixed2_digits m e).
Qed.

Section Total.
Context `{Runtime}.
Implicit Types (st : Store) (h : Headers) (body : object) (o : Order).

Lemma run_keeps_creation_data trace st id o :
  JsMap.get id (orders st) = Some o →
  Forall (λ step, "ord-" +:+ uuid step.1 ≠ id) trace →
  ∃ o', JsMap.get id (orders (run trace st)) = Some o' ∧ same_creation_data o o'.
Proof.
  intros Hget Hfresh. revert st o Hget.
  induction Hfresh as [|[env req] trace Hstep _ IH]; intros st o Hget.
  - exists o. auto using same_creation_data_refl.
  - destruct (handle_keeps_creation_data env st req id o Hget Hstep) as (o1 & Hget1 & H1).
    destruct (IH _ _ Hget1) as (o2 & Hget2 & H2).
    exists o2. split; [done|]. by eapply same_creation_data_trans.
Qed.

(** C4, as the code has it.  A create request that is authorized, passes
    validation and carries a new idempotency key is answered 201 with a
    stored order whose status is "pending" and whose totalAmount is
    [Number(total.toFixed(2))], where [total] is the sum of
    quantity * unitPrice computed in floating-point arithmetic from the
    left.  For a total that is zero or positive and below 10^21 this is
    the number nearest to the half-up rounding to hundredths of the exact
    value of that floating-point total.  No later request changes the
    totalAmount or the items of the order, as long as none generates its
    identifier again.  The items [(prod-001, 2, 29.99), (prod-002, 1,
    15.50)] give the totalAmount 75.48 and the status "pending". *)
Theorem total_is_rounded_float_sum env st h body :
  authorized h →
  validateCreateOrder h body = Next () →
  idempotencyKeys st !! idempotency_key h = None →
  let answer := handle env st (POST_orders h body) in
  (∃ array numbers order,
     lookup_prop "items" body = Some (JArr array)
     ∧ mapM item_numbers array = Some numbers
     ∧ answer.2 = respond 201 (OrderBody order)
     ∧ JsMap.get (Order.orderId order) (orders answer.1) = Some order
     ∧ Order.status order = "pending"
     ∧ Order.totalAmount order = Num.toFixed2_Number (float_sum numbers)
     ∧ (Num.roundable (float_sum numbers) = true →
          Order.totalAmount order
          = Num.dec (half_up_cents (Num.to_Q (float_sum numbers))) 2)
     ∧ (∀ trace,
          Forall (λ step, "ord-" +:+ uuid step.1 ≠ Order.orderId order) trace →
          ∃ o', JsMap.get (Order.orderId order) (orders (run trace answer.1)) = Some o'
                ∧ Order.totalAmount o' = Order.totalAmount order
                ∧ Order.items o' = Order.items order))
  ∧ (∃ order,
       (handle Example.env empty_store
          (POST_orders Example.headers Example.create_body)).2
         = respond 201 (OrderBody order)
       ∧ Order.totalAmount order = Num.dec 7548 2
       ∧ Order.status order = "pending").
Proof.
  intros Hauth Hvalidate Hkey answer. subst answer. split.
  - rewrite handle_create_authorized, Hvalidate by done.
    pose proof Hvalidate as (_ & _ & array & Hitems & _ & Hall)%validateCreateOrder_Next.
    destruct (validated_items array Hall) as (copied & numbers & Hcopy & Hnum).
    rewrite (create_handler_new env st h body array copied numbers) by done.
    cbn zeta. cbn [fst snd orders].
    set (order := created env (lookup_prop "customerId" body) copied (float_sum numbers)).
    exists array, numbers, order. split_and!; try done.
    + apply get_set_eq.
    + intros Hround. by apply toFixed2_half_up.
    + intros trace Hfresh.
      match goal with
      | |- context [run trace ?st1] =>
          destruct (run_keeps_creation_data trace st1 (Order.orderId order) order)
            as (o' & Hget & _ & _ & _ & Hi & Ht);
            [apply get_set_eq|exact Hfresh|]
      end.
      exists o'. split; [exact Hget|]. by split.
  - exists Example.order. split_and!; reflexivity.
Qed.

End Total.

(** C4 as stated fails under either reading of "the sum".  With items
    priced 0.3 and 0.075 the stored totalAmount is 0.38, while the exact
    sum of the two products lies below 0.375 and rounds half-up to 0.37.
    With one item priced 1.005 the stored totalAmount is 1.00, while the
    half-up rounding of the decimal 1.005 is 1.01. *)
Lemma total_differs_from_half_up_of_exact_sum :
  (∃ order numbers,
     (handle Example.env Example.store
        (POST_orders Example.fresh_headers Example.split_cent_body)).2
       = respond 201 (OrderBody order)
     ∧ mapM item_numbers Example.split_cent_items = Some numbers
     ∧ Order.totalAmount order = Num.dec 38 2
     ∧ half_up_cents (exact_sum numbers) = 37
     ∧ Order.totalAmount order ≠ Num.dec (half_up_cents (exact_sum numbers)) 2)
  ∧ (∃ order,
       (handle Example.env Example.store
          (POST_orders Example.fresh_headers Example.half_cent_body)).2
         = respond 201 (OrderBody order)
       ∧ Order.totalAmount order = Num.dec 100 2
       ∧ half_up_cents (Qmult (inject_Z 1) (Qmake 1005 1000)) = 101
       ∧ Order.totalAmount order ≠ Num.dec 101 2).
Proof.
  split.
  - eexists _, _. split_and!; [vm_compute; reflexivity..|].
    vm_compute. discriminate.
  - eexists. split_and!; [vm_compute; reflexivity..|].
    vm_compute. discriminate.
Qed.

(** [total_is_rounded_float_sum] for the first create of the test suite. *)
Lemma total_is_rounded_float_sum_witness :
  ∃ order,
    (handle Example.env empty_store
       (POST_orders Example.headers Example.create_body)).2
      = respond 201 (OrderBody order)
    ∧ Order.totalAmount order = Num.dec 7548 2
    ∧ Order.status order = "pending".
Proof.
  refine (proj2 (total_is_rounded_float_sum Example.env empty_store Example.headers
                   Example.create_body _ _ _)).
  - reflexivity.
  - vm_compute. reflexivity.
  - reflexivity.
Defined.

(** * Further properties of the code *)

(** ** The auth middleware *)

Lemma split_free c s : free_of c s = true → split c s = [s].
Proof.
  induction s as [|a s IH]; [done|]. cbn [free_of split].
  intros [Ha Hs]%andb_true_iff. apply negb_true_iff, bool_decide_eq_false in Ha.
  destruct (decide (a = c)); [done|]. by rewrite IH.
Qed.

Lemma split_piece c s rest :
  free_of c s = true → split c (s +:+ String c rest) = s :: split c rest.
Proof.
  induction s as [|a s IH].
  - intros _. change ("" +:+ String c rest) with (String c rest). cbn [split].
    by destruct (decide (c = c)).
  - cbn [free_of]. intros [Ha Hs]%andb_true_iff.
    apply negb_true_iff, bool_decide_eq_false in Ha.
    change (String a s +:+ String c rest) with (String a (s +:+ String c rest)).
    cbn [split]. destruct (decide (a = c)); [done|]. by rewrite IH.
Qed.

Lemma append_empty s : s +:+ "" = s.
Proof.
  induction s as [|a s IH]; [done|].
  change (String a s +:+ "") with (String a (s +:+ "")). by rewrite IH.
Qed.

(** The middleware in one piece: the token is the second of the pieces of
    the header between single spaces. *)
Lemma authenticateToken_token h :
  authenticateToken h =
    match authorization h ≫= (λ s, split " " s !! 1%nat) with
    | Some token => if decide (token = "") then Send unauthorized else Next ()
    | None => Send unauthorized
    end.
Proof.
  unfold authenticateToken. destruct (authorization h) as [s|]; [|done].
  cbn [truthy_str mbind option_bind].
  destruct (decide (s = "")) as [->|Hs].
  - done.
  - rewrite (bool_decide_eq_false_2 (s = "")) by done. cbn [negb].
    destruct (split " " s !! 1%nat) as [token|]; [|done].
    cbn [truthy_str]. destruct (decide (token = "")) as [->|Htoken]; [done|].
    rewrite (bool_decide_eq_false_2 (token = "")) by done.
    cbn [negb reject_if mbind Step_bind fmap option_fmap option_map].
    rewrite bool_decide_eq_false_2; [done|].
    intros [= Hlen]. by destruct token.
Qed.

Lemma authenticateToken_outcomes h :
  authenticateToken h = Next () ∨ authenticateToken h = Send unauthorized.
Proof.
  rewrite authenticateToken_token.
  destruct (authorization h ≫= _) as [token|]; [case_decide|]; auto.
Qed.

(** X1. The token is what stands between the first and the second space
    of the Authorization header: the request passes when that piece is
    not empty and is answered 401 when it is.  The word before the first
    space is not looked at, and neither is anything after the second. *)
Theorem token_is_second_word h scheme token rest :
  authorization h = Some (scheme +:+ " " +:+ token +:+ rest) →
  free_of " " scheme = true →
  free_of " " token = true →
  rest = "" ∨ (∃ more, rest = " " +:+ more) →
  authenticateToken h = if decide (token = "") then Send unauthorized else Next ().
Proof.
  intros Hheader Hscheme Htoken Hrest.
  assert (Hsp : ∀ x, " " +:+ x = String " " x) by done.
  rewrite authenticateToken_token, Hheader. cbn [mbind option_bind].
  rewrite Hsp, split_piece by done.
  destruct Hrest as [->|[more ->]].
  - by rewrite append_empty, split_free.
  - by rewrite Hsp, split_piece.
Qed.

(** X2. The middleware has two outcomes only: it lets the request pass
    or answers 401 "Authentication token is required"; the answer
    "Invalid authentication token" is never given and no exception is
    raised.  A request without the header, or with a header that has no
    space in it, is answered 401. *)
Theorem invalid_token_never_reported h :
  (authenticateToken h = Next () ∨ authenticateToken h = Send unauthorized)
  ∧ (authorization h = None → authenticateToken h = Send unauthorized)
  ∧ (∀ s, authorization h = Some s → free_of " " s = true →
       authenticateToken h = Send unauthorized).
Proof.
  split; [apply authenticateToken_outcomes|].
  rewrite authenticateToken_token. split.
  - by intros ->.
  - intros s -> Hs. cbn [mbind option_bind]. by rewrite split_free.
Qed.

(** X3. The body parser comes first and the auth middleware second.  On
    the four order routes, a request with a parsed body that does not
    pass the auth middleware is answered 401 UNAUTHORIZED, whatever its
    body holds.  A request whose body the parser cannot read is answered
    500 INTERNAL_ERROR by the error middleware on every route, with or
    without a token.  Neither changes anything. *)
Theorem unauthorized_request_refused `{Runtime} env st :
  (∀ req h,
     headers_of req = Some h →
     ¬ authorized h →
     serve env st (Parsed req) = (st, unauthorized))
  ∧ (∀ route h, serve env st (Unparseable route h) = (st, error_middleware)).
Proof.
  split; [|done]. intros req h Hreq Hauth. cbn [serve].
  assert (authenticateToken h = Send unauthorized) as Hsend.
  { destruct (authenticateToken_outcomes h) as [?|?]; [by destruct Hauth|done]. }
  destruct req as [|h' body|h' id|h' q|h' id body]; cbn [headers_of] in Hreq;
    [done|injection Hreq as ->..]; cbn [handle]; by rewrite Hsend.
Qed.

(** [token_is_second_word] for the header "Basic abc def": the scheme is
    not Bearer, and the request passes with the token "abc". *)
Lemma token_is_second_word_witness :
  authenticateToken {| authorization := Some "Basic abc def"; idempotency_key := None |}
  = Next ().
Proof.
  apply (token_is_second_word
           {| authorization := Some "Basic abc def"; idempotency_key := None |}
           "Basic" "abc" " def").
  - reflexivity.
  - reflexivity.
  - reflexivity.
  - right. exists "def". reflexivity.
Defined.

(** [invalid_token_never_reported] for a header that holds the token alone. *)
Lemma invalid_token_never_reported_witness :
  authenticateToken {| authorization := Some "mock-token-12345"; idempotency_key := None |}
  = Send unauthorized.
Proof.
  refine (proj2 (proj2 (invalid_token_never_reported
            {| authorization := Some "mock-token-12345"; idempotency_key := None |}))
            "mock-token-12345" _ _).
  - reflexivity.
  - reflexivity.
Defined.

(** [unauthorized_request_refused] for two create requests without a
    token: with the empty object as its body the answer is 401 and not
    400, and with a body that cannot be parsed it is 500. *)
Lemma unauthorized_request_refused_witness :
  serve Example.env Example.store
    (Parsed (POST_orders {| authorization := Some "Bearer "; idempotency_key := None |} []))
  = (Example.store, unauthorized)
  ∧ serve Example.env Example.store
      (Unparseable Create_route {| authorization := None; idempotency_key := None |})
    = (Example.store,
       respond 500 (ErrorBody "INTERNAL_ERROR" "An unexpected error occurred")).
Proof.
  destruct (unauthorized_request_refused Example.env Example.store)
    as [Hparsed Hunparseable].
  split.
  - apply (Hparsed _ {| authorization := Some "Bearer "; idempotency_key := None |}).
    + reflexivity.
    + unfold authorized. vm_compute. discriminate.
  - apply Hunparseable.
Defined.

(** ** The outcomes of a create request *)

Section CreateOutcomes.
Context `{Runtime}.
Implicit Types (st : Store) (h : Headers) (body : object) (r : Response).

(** The five ways a create request can end. *)
Lemma handle_create_outcomes env st h body :
  let answer := handle env st (POST_orders h body) in
  (¬ authorized h ∧ answer = (st, unauthorized))
  ∨ (authorized h ∧ ∃ r, validateCreateOrder h body = Send r ∧ answer = (st, r))
  ∨ (authorized h ∧ validateCreateOrder h body = Throw ∧ answer = (st, error_middleware))
  ∨ (authorized h ∧ validateCreateOrder h body = Next ()
     ∧ ∃ id, idempotencyKeys st !! idempotency_key h = Some id
             ∧ answer = (st, respond 200 (from_option OrderBody EmptyBody
                                            (JsMap.get id (orders st)))))
  ∨ (authorized h ∧ validateCreateOrder h body = Next ()
     ∧ idempotencyKeys st !! idempotency_key h = None
     ∧ ∃ array copied numbers,
         lookup_prop "items" body = Some (JArr array)
         ∧ map_step copy_item array = Next copied
         ∧ mapM item_numbers array = Some numbers
         ∧ answer =
             let order :=
               created env (lookup_prop "customerId" body) copied (float_sum numbers) in
             ({| orders := JsMap.set (Order.orderId order) order (orders st);
                 idempotencyKeys :=
                   <[idempotency_key h := Order.orderId order]> (idempotencyKeys st) |},
              respond 201 (OrderBody order))).
Proof.
  intros answer. subst answer.
  destruct (authenticateToken_outcomes h) as [Hauth|Hsend].
  2: { left. split; [unfold authorized; by rewrite Hsend|].
       cbn [handle]. by rewrite Hsend. }
  right. rewrite handle_create_authorized by done.
  destruct (validateCreateOrder h body) as [[]|r|] eqn:Hvalidate.
  - do 2 right.
    destruct (idempotencyKeys st !! idempotency_key h) as [id|] eqn:Hkey.
    + left. split_and!; [done..|]. exists id. split; [done|].
      by apply create_handler_replay.
    + right. split_and!; [done..|].
      apply validateCreateOrder_Next in Hvalidate as (_ & _ & array & Hitems & _ & Hall).
      destruct (validated_items array Hall) as (copied & numbers & Hcopy & Hnum).
      exists array, copied, numbers. split_and!; [done..|].
      by apply (create_handler_new _ _ _ _ array).
  - left. split; [done|]. by exists r.
  - right. left. done.
Qed.

End CreateOutcomes.

(** ** More on the [Map] operations *)

Section JsMapMore.
Context {V : Type}.
Implicit Types (m : list (string * V)) (k : string) (v : V).

Lemma get_None k m : JsMap.get k m = None ↔ k ∉ m.*1.
Proof.
  induction m as [|[k' v'] m IH]; cbn [JsMap.get fmap list_fmap fst].
  - split; [intros _; apply not_elem_of_nil|done].
  - rewrite not_elem_of_cons. destruct (decide (k = k')) as [->|Hne].
    + split; [done|by intros [? _]].
    + rewrite IH. tauto.
Qed.

Lemma get_elem_of k v m : JsMap.get k m = Some v → (k, v) ∈ m.
Proof.
  induction m as [|[k' v'] m IH]; cbn [JsMap.get]; [done|].
  destruct (decide (k = k')) as [->|Hne].
  - intros [= ->]. by left.
  - intros Hget. right. by apply IH.
Qed.

Lemma elem_of_get k v m : NoDup m.*1 → (k, v) ∈ m → JsMap.get k m = Some v.
Proof.
  induction m as [|[k' v'] m IH]; cbn [JsMap.get fmap list_fmap fst].
  - intros _ Hin. by apply elem_of_nil in Hin.
  - intros [Hnotin Hnodup]%NoDup_cons [[= -> ->]|Hin]%elem_of_cons.
    + by rewrite decide_True.
    + rewrite decide_False; [by apply IH|]. intros ->.
      apply Hnotin. apply (list_elem_of_fmap_2 fst _ _ Hin).
Qed.

Lemma set_keys k v m :
  (JsMap.set k v m).*1 = if JsMap.get k m is Some _ then m.*1 else m.*1 ++ [k].
Proof.
  induction m as [|[k' v'] m IH]; cbn [JsMap.get JsMap.set fmap list_fmap fst]; [done|].
  destruct (decide (k = k')) as [->|Hne]; cbn [fmap list_fmap fst]; [done|].
  change (list_fmap _ _ fst ?l) with (l.*1). rewrite IH.
  by destruct (JsMap.get k m).
Qed.

Lemma set_length k v m :
  length (JsMap.set k v m) = if JsMap.get k m is Some _ then length m else S (length m).
Proof.
  rewrite <- (length_fmap fst), set_keys.
  destruct (JsMap.get k m); rewrite ?length_app, length_fmap; cbn [length]; lia.
Qed.

Lemma set_NoDup k v m : NoDup m.*1 → NoDup (JsMap.set k v m).*1.
Proof.
  intros Hnodup. rewrite set_keys. destruct (JsMap.get k m) eqn:Hget; [done|].
  apply NoDup_app. split_and!; [done| |apply NoDup_singleton].
  intros k' Hin ->%list_elem_of_singleton. by apply get_None in Hget.
Qed.

Lemma set_Forall (P : string * V → Prop) k v m :
  Forall P m → P (k, v) → Forall P (JsMap.set k v m).
Proof.
  intros Hall Hnew. induction Hall as [|[k' v'] m Hhead Htail IH]; cbn [JsMap.set].
  - by constructor.
  - destruct (decide (k = k')); by constructor.
Qed.

End JsMapMore.

(** ** Orders and their identifiers *)

Section Identifiers.
Context `{Runtime}.
Implicit Types (st : Store) (o : Order).

Lemma keyed_set (m : list (string * Order)) id o :
  keyed_by_id m → Order.orderId o = id → keyed_by_id (JsMap.set id o m).
Proof.
  intros [Hnodup Hall] Hid. split; [by apply set_NoDup|by apply set_Forall].
Qed.

Lemma keyed_get (m : list (string * Order)) id o :
  keyed_by_id m → JsMap.get id m = Some o → Order.orderId o = id.
Proof.
  intros [_ Hall] Hget%get_elem_of. rewrite Forall_forall in Hall.
  apply (Hall _ Hget).
Qed.

Lemma handle_keyed env st req :
  keyed_by_id (orders st) → keyed_by_id (orders (handle env st req).1).
Proof.
  intros Hkeyed.
  destruct (handle_cases env st req)
    as [(-> & _)
       |[(h & body & order & _ & _ & _ & ->)
        |(h & id & body & o & target & _ & Hget & _ & _ & ->)]];
    [done|..]; cbn [fst orders]; apply keyed_set; try done.
  cbn [updated Order.orderId]. by eapply keyed_get.
Qed.

Lemma seed_one_keyed index env orderData st st' :
  seed_one index env orderData st = Next st' →
  keyed_by_id (orders st) → keyed_by_id (orders st').
Proof.
  unfold seed_one. intros Hseed Hkeyed.
  destruct (createOrder env orderData.1 orderData.2 None st) as [[st1 order]| |] eqn:Hcreate;
    [|done..].
  apply createOrder_Next in Hcreate as (_ & _ & ->).
  cbn [mbind Step_bind] in Hseed. injection Hseed as <-.
  cbn [orders Order.orderId]. by repeat apply keyed_set.
Qed.

Lemma reachable_keyed st : reachable st → keyed_by_id (orders st).
Proof.
  assert (keyed_by_id []) as Hempty by (split; constructor).
  induction 1 as [|e0 e1 e2 st Hseed|env st req _ IH].
  - done.
  - unfold seedData, sampleOrders in Hseed.
    destruct (seed_one 0 e0 _ empty_store) as [st0| |] eqn:H0; [|done..].
    cbn [mbind Step_bind] in Hseed.
    destruct (seed_one 1 e1 _ st0) as [st1| |] eqn:H1; [|done..].
    cbn [mbind Step_bind] in Hseed.
    eauto using seed_one_keyed.
  - by apply handle_keyed.
Qed.

Lemma reachable_run trace st : reachable st → reachable (run trace st).
Proof.
  revert st. induction trace as [|[env req] trace IH]; intros st Hreach; [done|].
  apply IH. by constructor.
Qed.

(** X4. In every store the server can reach, each order is stored under
    its own [orderId], and no two stored orders have the same
    [orderId]. *)
Theorem orders_keyed_by_own_id st :
  reachable st →
  keys_match st
  ∧ NoDup (Order.orderId <$> JsMap.values (orders st)).
Proof.
  intros Hkeyed%reachable_keyed. split.
  - intros id o. by apply keyed_get.
  - destruct Hkeyed as [Hnodup Hall]. unfold JsMap.values.
    replace (Order.orderId <$> (orders st).*2) with ((orders st).*1); [done|].
    rewrite <- list_fmap_compose. apply Forall_fmap_ext_1.
    eapply Forall_impl; [done|]. by intros [k o].
Qed.

End Identifiers.

(** [orders_keyed_by_own_id] at the example store, which is the store after
    the first create of the test suite. *)
Lemma orders_keyed_by_own_id_witness :
  NoDup (Order.orderId <$> JsMap.values (orders Example.store)).
Proof.
  refine (proj2 (orders_keyed_by_own_id Example.store _)).
  exact (reachable_request Example.env empty_store
           (POST_orders Example.headers Example.create_body) reachable_start).
Defined.

(** ** The ledger over time *)

Section Ledger.
Context `{Runtime}.
Implicit Types (st : Store) (h : Headers) (body : object) (o : Order).

(** A request leaves the ledger alone or is a create that records a key
    which is not empty and was not in the ledger. *)
Lemma handle_ledger env st req :
  idempotencyKeys (handle env st req).1 = idempotencyKeys st
  ∨ ∃ h body,
      req = POST_orders h body
      ∧ truthy_str (idempotency_key h) = true
      ∧ idempotencyKeys st !! idempotency_key h = None
      ∧ idempotencyKeys (handle env st req).1
        = <[idempotency_key h := "ord-" +:+ uuid env]> (idempotencyKeys st).
Proof.
  destruct req as [|h body|h id|h q|h id body].
  2: { destruct (handle_create_outcomes env st h body)
         as [[_ ->]|[(_ & r & _ & ->)|[(_ & _ & ->)|[(_ & _ & id & _ & ->)
            |(_ & Hvalidate & Hkey & array & copied & numbers & _ & _ & _ & ->)]]]];
         [by left..|].
       right. exists h, body. split_and!; [done| |done|done].
       by apply validateCreateOrder_Next in Hvalidate as [? _]. }
  all: left.
  all: match goal with |- context [handle ?env ?st ?req] =>
         destruct (handle_cases env st req)
           as [(-> & _)
              |[(? & ? & ? & [=] & _)
               |(? & ? & ? & ? & ? & _ & _ & _ & _ & ->)]]
       end; done.
Qed.

Lemma handle_keeps_key env st req key id :
  idempotencyKeys st !! key = Some id →
  idempotencyKeys (handle env st req).1 !! key = Some id.
Proof.
  intros Hkey.
  destruct (handle_ledger env st req) as [->|(h & body & _ & _ & Hnew & ->)]; [done|].
  rewrite lookup_insert_ne; [done|]. intros <-. by rewrite Hkey in Hnew.
Qed.

Lemma run_keeps_key trace st key id :
  idempotencyKeys st !! key = Some id →
  idempotencyKeys (run trace st) !! key = Some id.
Proof.
  revert st. induction trace as [|[env req] trace IH]; intros st Hkey; [done|].
  apply IH. by apply handle_keeps_key.
Qed.

(** X5. A key recorded in the ledger stays recorded, for the same order
    identifier, through every later request: the ledger entry of a key is
    written once and never changed or removed.  A create request that
    carries a recorded key changes neither the orders nor the ledger,
    whatever its answer. *)
Theorem recorded_key_is_permanent trace st key id :
  idempotencyKeys st !! key = Some id →
  let st1 := run trace st in
  idempotencyKeys st1 !! key = Some id
  ∧ ∀ env h body,
      idempotency_key h = key →
      (handle env st1 (POST_orders h body)).1 = st1.
Proof.
  intros Hkey st1. assert (idempotencyKeys st1 !! key = Some id) as Hkey1
    by (by apply run_keeps_key).
  split; [done|]. intros env h body <-.
  destruct (handle_create_outcomes env st1 h body)
    as [[_ ->]|[(_ & r & _ & ->)|[(_ & _ & ->)|[(_ & _ & id' & _ & ->)
       |(_ & _ & Hnew & _)]]]]; [done..|].
  by rewrite Hkey1 in Hnew.
Qed.

Lemma truthy_keys_start key :
  is_Some (idempotencyKeys empty_store !! key) → truthy_str key = true.
Proof. cbn [empty_store idempotencyKeys]. rewrite lookup_empty. by intros [? ?]. Qed.

(** X6. In every store the server can reach, the ledger holds no entry for
    an absent or empty Idempotency-Key. *)
Theorem recorded_keys_are_not_empty st key :
  reachable st →
  is_Some (idempotencyKeys st !! key) →
  ∃ text, key = Some text ∧ text ≠ "".
Proof.
  intros Hreach Hkey.
  assert (truthy_str key = true) as Htruthy.
  { revert Hkey. induction Hreach as [|e0 e1 e2 st Hseed|env st req _ IH].
    - apply truthy_keys_start.
    - unfold seedData, sampleOrders in Hseed.
      destruct (seed_one 0 e0 _ empty_store) as [st0| |] eqn:H0; [|done..].
      cbn [mbind Step_bind] in Hseed.
      destruct (seed_one 1 e1 _ st0) as [st1| |] eqn:H1; [|done..].
      cbn [mbind Step_bind] in Hseed.
      rewrite (seed_one_ledger _ _ _ _ _ Hseed), (seed_one_ledger _ _ _ _ _ H1),
        (seed_one_ledger _ _ _ _ _ H0).
      apply truthy_keys_start.
    - destruct (handle_ledger env st req) as [->|(h & body & _ & Hkey & _ & ->)]; [done|].
      rewrite lookup_insert. case_decide; [by subst|done]. }
  destruct key as [text|]; [|done]. exists text. split; [done|].
  intros ->. done.
Qed.

(** X7. In every store the server can reach, a create request that is
    authorized, passes validation and carries a recorded key is answered
    200 with an order, the one stored under the recorded identifier and
    bearing it, and changes nothing. *)
Theorem replay_answers_with_recorded_order env st h body id :
  reachable st →
  authorized h →
  validateCreateOrder h body = Next () →
  idempotencyKeys st !! idempotency_key h = Some id →
  ∃ o, JsMap.get id (orders st) = Some o
       ∧ Order.orderId o = id
       ∧ handle env st (POST_orders h body) = (st, respond 200 (OrderBody o)).
Proof.
  intros Hreach Hauth Hvalidate Hkey.
  destruct (reachable_ledger_sound st Hreach _ _ Hkey) as [o Hget].
  exists o. split_and!; [done| |].
  - eapply keyed_get; [by apply reachable_keyed|done].
  - rewrite handle_create_authorized, Hvalidate by done.
    by rewrite (create_handler_replay _ _ _ _ id), Hget.
Qed.

(** X8. Once a create has been answered 201 with an order, every later
    create that is authorized, passes validation and carries the same
    Idempotency-Key is answered 200 with the order then stored under that
    identifier, which has the orderId, customerId, placementDate, items
    and totalAmount of the original, and changes nothing; this holds after
    any requests in between, so long as none of them generates the
    identifier again. *)
Theorem replay_after_other_requests env st h body o trace env' h' body' :
  (handle env st (POST_orders h body)).2 = respond 201 (OrderBody o) →
  never_generates (Order.orderId o) trace →
  authorized h' →
  validateCreateOrder h' body' = Next () →
  idempotency_key h' = idempotency_key h →
  let st1 := run trace (handle env st (POST_orders h body)).1 in
  ∃ o', handle env' st1 (POST_orders h' body') = (st1, respond 200 (OrderBody o'))
        ∧ JsMap.get (Order.orderId o) (orders st1) = Some o'
        ∧ same_creation_data o o'.
Proof.
  intros Hanswer Hfresh Hauth Hvalidate Hsame st1. subst st1.
  destruct (handle_cases env st (POST_orders h body))
    as [(_ & Hpost & _)
       |[(h0 & body0 & order & [= <- <-] & _ & _ & Heq)
        |(? & ? & ? & ? & ? & [=] & _)]].
  { destruct (Hpost h body eq_refl). by rewrite Hanswer. }
  rewrite Heq in Hanswer |- *. injection Hanswer as ->. cbn [fst].
  match goal with |- context [run trace ?st0] => set (st1 := st0) end.
  assert (JsMap.get (Order.orderId o) (orders st1) = Some o) as Hget
    by apply get_set_eq.
  assert (idempotencyKeys st1 !! idempotency_key h = Some (Order.orderId o)) as Hkey
    by apply lookup_insert_eq.
  destruct (run_keeps_creation_data trace st1 _ _ Hget Hfresh) as (o' & Hget' & Hdata).
  exists o'. split_and!; [|done..].
  rewrite handle_create_authorized, Hvalidate by done.
  rewrite (create_handler_replay _ _ _ _ (Order.orderId o)), Hget'; [done|].
  rewrite Hsame. by apply run_keeps_key.
Qed.

End Ledger.

(** [recorded_key_is_permanent] at the example store: "key-1" is still
    recorded after the order has been cancelled. *)
Lemma recorded_key_is_permanent_witness :
  idempotencyKeys
    (run [(Example.later,
           PATCH_status Example.headers "ord-0001" (Example.status_body "cancelled"))]
       Example.store) !! Some "key-1"
  = Some "ord-0001".
Proof.
  refine (proj1 (recorded_key_is_permanent
           [(Example.later,
             PATCH_status Example.headers "ord-0001" (Example.status_body "cancelled"))]
           Example.store (Some "key-1") "ord-0001" _)).
  reflexivity.
Defined.

(** [recorded_keys_are_not_empty] for the key of the example store. *)
Lemma recorded_keys_are_not_empty_witness :
  ∃ text, Some "key-1" = Some text ∧ text ≠ "".
Proof.
  apply (recorded_keys_are_not_empty Example.store (Some "key-1")).
  - exact (reachable_request Example.env empty_store
             (POST_orders Example.headers Example.create_body) reachable_start).
  - exists "ord-0001". reflexivity.
Defined.

(** [replay_answers_with_recorded_order] at the example store. *)
Lemma replay_answers_with_recorded_order_witness :
  ∃ o, JsMap.get "ord-0001" (orders Example.store) = Some o
       ∧ Order.orderId o = "ord-0001"
       ∧ handle Example.later Example.store
           (POST_orders Example.headers Example.half_cent_body)
         = (Example.store, respond 200 (OrderBody o)).
Proof.
  apply (replay_answers_with_recorded_order Example.later Example.store Example.headers
           Example.half_cent_body "ord-0001").
  - exact (reachable_request Example.env empty_store
             (POST_orders Example.headers Example.create_body) reachable_start).
  - reflexivity.
  - vm_compute. reflexivity.
  - reflexivity.
Defined.

(** [replay_after_other_requests]: the first order of the test suite is
    created, then confirmed, and a replay under "key-1" returns it. *)
Lemma replay_after_other_requests_witness :
  let st1 :=
    run [(Example.later,
          PATCH_status Example.headers "ord-0001" (Example.status_body "confirmed"))]
      (handle Example.env empty_store
         (POST_orders Example.headers Example.create_body)).1 in
  ∃ o', handle Example.later st1 (POST_orders Example.headers Example.half_cent_body)
        = (st1, respond 200 (OrderBody o'))
        ∧ JsMap.get "ord-0001" (orders st1) = Some o'
        ∧ same_creation_data Example.order o'.
Proof.
  apply (replay_after_other_requests Example.env empty_store Example.headers
           Example.create_body Example.order
           [(Example.later,
             PATCH_status Example.headers "ord-0001" (Example.status_body "confirmed"))]
           Example.later Example.headers Example.half_cent_body).
  - vm_compute. reflexivity.
  - repeat constructor. cbn. discriminate.
  - reflexivity.
  - vm_compute. reflexivity.
  - reflexivity.
Defined.

(** ** Status codes and bodies *)

Section Responses.
Context `{Runtime}.
Implicit Types (st : Store) (h : Headers) (body : object) (r : Response).

Lemma search_filter_Send st q r :
  search_filter st q = Send r → is_validation_error r.
Proof.
  unfold search_filter.
  repeat match goal with
         | |- context [reject_if ?c _] => destruct c; cbn [reject_if mbind Step_bind]
         | |- context [if ?c then _ else _] => destruct c; cbn [mbind Step_bind]
         | |- context [match Date_parse ?s with _ => _ end] =>
             destruct (Date_parse s); cbn [mbind Step_bind]
         end; try done; intros [= <-]; apply validation_error_is.
Qed.

(** The answers the status handler sends before it changes anything. *)
Lemma update_handler_Send_cases env st id body r :
  update_handler env st id body = Send r →
  (status_code r = 404 ∨ status_code r = 400 ∨ status_code r = 409)
  ∧ ∃ error message, payload r = ErrorBody error message.
Proof.
  unfold update_handler.
  repeat match goal with
         | |- context [reject_if ?c _] => destruct c; cbn [reject_if mbind Step_bind]
         | |- context [match includes ?l ?v with _ => _ end] => destruct (includes l v)
         | |- context [or_throw ?x] => destruct x; cbn [or_throw mbind Step_bind]
         | |- context [if ?c then _ else _] => destruct c
         end; try done; intros [= <-]; cbn [status_code payload respond validation_error];
    eauto 6.
Qed.

(** With an enumerated status on every stored order, the status handler
    raises no exception. *)
Lemma update_handler_no_Throw env st id body :
  statuses_valid st → update_handler env st id body ≠ Throw.
Proof.
  intros Hvalid.
  destruct (JsMap.get id (orders st)) as [o|] eqn:Hget.
  2: { by rewrite update_unknown. }
  destruct (truthy (lookup_prop "status" body)) eqn:Htruthy.
  2: { by rewrite (update_status_missing _ _ _ _ o). }
  destruct (includes validStatuses (lookup_prop "status" body)) as [target|] eqn:Hincl.
  2: { by rewrite (update_status_unlisted _ _ _ _ o). }
  rewrite (update_listed _ _ _ _ o target); [|done|by eapply stored_status_valid|done].
  by destruct (can_transition _ _).
Qed.

(** The status code and the kind of body of each response. *)
Lemma handle_response env st req :
  let r := (handle env st req).2 in
  match payload r with
  | ErrorBody _ _ =>
      status_code r = 400 ∨ status_code r = 401 ∨ status_code r = 404
      ∨ status_code r = 409 ∨ status_code r = 500
  | OrderBody _ =>
      status_code r = 200 ∨ status_code r = 201 ∧ ∃ h body, req = POST_orders h body
  | EmptyBody | SearchBody _ _ _ _ | HealthBody _ => status_code r = 200
  end.
Proof.
  destruct req as [|h body|h id|h q|h id body].
  - done.
  - destruct (handle_create_outcomes env st h body)
      as [[_ ->]|[(_ & r & Hsend & ->)|[(_ & _ & ->)|[(_ & _ & id & _ & ->)
         |(_ & _ & _ & array & copied & numbers & _ & _ & _ & ->)]]]];
      cbn [snd payload status_code respond unauthorized error_middleware]; eauto 6.
    + apply validateCreateOrder_Send in Hsend as [-> [message ->]]. auto.
    + destruct (JsMap.get id (orders st)); cbn [from_option]; auto.
  - cbn [handle]. destruct (authenticateToken_outcomes h) as [-> | ->];
      cbn [snd payload status_code respond unauthorized]; [|auto].
    unfold get_handler. destruct (negb _); cbn [payload status_code respond]; [auto|].
    destruct (JsMap.get id (orders st)); cbn [from_option]; auto.
  - cbn [handle]. destruct (authenticateToken_outcomes h) as [-> | ->];
      cbn [mbind Step_bind finish snd payload status_code respond unauthorized]; [|auto].
    unfold search_handler.
    destruct (search_filter st q) as [found|r|] eqn:Hfilter;
      cbn [mbind Step_bind finish snd payload status_code respond error_middleware];
      [done| |auto 6].
    apply search_filter_Send in Hfilter as [-> [message ->]]. auto.
  - cbn [handle]. destruct (authenticateToken_outcomes h) as [-> | ->];
      cbn [mbind Step_bind snd payload status_code respond unauthorized]; [|auto].
    destruct (update_handler env st id body) as [[st' r]|r|] eqn:Hupdate;
      cbn [snd payload status_code respond error_middleware]; [| |auto 6].
    + apply update_handler_Next in Hupdate as (? & ? & _ & _ & _ & _ & ->).
      cbn [payload status_code respond]. auto.
    + apply update_handler_Send_cases in Hupdate as [Hcode (error & message & ->)].
      tauto.
Qed.

Lemma reachable_statuses_valid st : reachable st → statuses_valid st.
Proof.
  induction 1 as [|e0 e1 e2 st Hseed|env st req _ IH].
  - constructor.
  - eapply seedData_statuses_valid; [done|constructor].
  - by apply handle_statuses_valid.
Qed.

(** X9. Every response has one of the status codes 200, 201, 400, 401,
    404, 409 and 500, and its body is an error body, with an error code
    and a message, exactly when the status code is 400 or above. *)
Theorem error_body_exactly_on_error env st req :
  let r := (handle env st req).2 in
  status_code r ∈ [200; 201; 400; 401; 404; 409; 500]
  ∧ (rejected r ↔ ∃ error message, payload r = ErrorBody error message).
Proof.
  intros r. pose proof (handle_response env st req) as Hshape.
  cbv zeta in Hshape. fold r in Hshape.
  unfold rejected. rewrite !elem_of_cons, elem_of_nil.
  destruct (payload r) as [error message|o| |found total limit offset|timestamp].
  - split; [lia|]. split; [eauto|lia].
  - split; [lia|]. split; [lia|intros (? & ? & [=])].
  - split; [lia|]. split; [lia|intros (? & ? & [=])].
  - split; [lia|]. split; [lia|intros (? & ? & [=])].
  - split; [lia|]. split; [lia|intros (? & ? & [=])].
Qed.

(** X10. The create handler's own failure answer, 500 "Failed to create
    order", is never given.  A create request with a parsed body that is
    authorized and passes validation is answered 200 or 201, and a create
    request is answered 500 exactly when the body parser cannot read its
    body or it is authorized and the validation middleware raises an
    exception; in both cases the answer is that of the error
    middleware. *)
Theorem create_handler_never_fails env st inc :
  incoming_route inc = Create_route →
  let r := (serve env st inc).2 in
  r ≠ respond 500 (ErrorBody "INTERNAL_ERROR" "Failed to create order")
  ∧ (∀ h body,
       inc = Parsed (POST_orders h body) →
       authorized h → validateCreateOrder h body = Next () →
       status_code r = 200 ∨ status_code r = 201)
  ∧ (status_code r = 500 ↔
     (∃ h, inc = Unparseable Create_route h)
     ∨ ∃ h body, inc = Parsed (POST_orders h body)
                 ∧ authorized h ∧ validateCreateOrder h body = Throw)
  ∧ (status_code r = 500 → r = error_middleware).
Proof.
  intros Hroute r. subst r.
  destruct inc as [[|h body|h id|h q|h id body]|route h]; try discriminate Hroute.
  2: { cbn in Hroute. subst route. cbn [serve snd]. split_and!; [done|done| |done].
       split; [eauto|done]. }
  cbn [serve].
  assert (((∃ h0, Parsed (POST_orders h body) = Unparseable Create_route h0)
           ∨ ∃ h0 body0, Parsed (POST_orders h body) = Parsed (POST_orders h0 body0)
                         ∧ authorized h0 ∧ validateCreateOrder h0 body0 = Throw)
          ↔ authorized h ∧ validateCreateOrder h body = Throw) as ->.
  { split.
    - intros [[h0 [=]]|(h0 & body0 & [= <- <-] & Hauth)]; done.
    - intros Hauth. right. by exists h, body. }
  assert ((∀ h0 body0,
             Parsed (POST_orders h body) = Parsed (POST_orders h0 body0) →
             authorized h0 → validateCreateOrder h0 body0 = Next () →
             status_code (handle env st (POST_orders h body)).2 = 200
             ∨ status_code (handle env st (POST_orders h body)).2 = 201)
          ↔ (authorized h → validateCreateOrder h body = Next () →
             status_code (handle env st (POST_orders h body)).2 = 200
             ∨ status_code (handle env st (POST_orders h body)).2 = 201)) as ->.
  { split; [by eauto|]. intros Hok h0 body0 [= <- <-]. done. }
  destruct (handle_create_outcomes env st h body)
    as [[Hauth ->]|[(Hauth & r & Hsend & ->)|[(Hauth & Hthrow & ->)
       |[(Hauth & Hnext & id & _ & ->)
        |(Hauth & Hnext & _ & array & copied & numbers & _ & _ & _ & ->)]]]];
    cbn [snd status_code respond unauthorized error_middleware].
  - split_and!; [done|by intros ?| |done]. split; [done|by intros [? _]].
  - pose proof (validateCreateOrder_Send _ _ _ Hsend) as [Hcode _]. split_and!.
    + intros ->. done.
    + intros _ Hnext. by rewrite Hsend in Hnext.
    + split; [by rewrite Hcode|]. intros [_ Hthrow]. by rewrite Hsend in Hthrow.
    + by rewrite Hcode.
  - split_and!; [done| |done|done]. intros _ Hnext. by rewrite Hthrow in Hnext.
  - split_and!; [done|auto| |done]. split; [done|].
    intros [_ Hthrow]. by rewrite Hnext in Hthrow.
  - split_and!; [done|auto| |done]. split; [done|].
    intros [_ Hthrow]. by rewrite Hnext in Hthrow.
Qed.

(** X11. In every store the server can reach, a status update is answered
    500 only when the body parser cannot read its body: a status update
    with a parsed body is answered 200, 400, 401, 404 or 409. *)
Theorem status_update_fails_only_unparsed env st inc :
  reachable st →
  incoming_route inc = Update_route →
  let r := (serve env st inc).2 in
  (status_code r = 500 ↔ ∃ h, inc = Unparseable Update_route h)
  ∧ (∀ req, inc = Parsed req → status_code r ∈ [200; 400; 401; 404; 409]).
Proof.
  intros Hvalid%reachable_statuses_valid Hroute r. subst r.
  destruct inc as [[|h body|h id|h q|h id body]|route h]; try discriminate Hroute.
  2: { cbn in Hroute. subst route. cbn [serve snd]. split; [|done].
       split; [eauto|done]. }
  cbn [serve].
  assert (status_code (handle env st (PATCH_status h id body)).2
          ∈ [200; 400; 401; 404; 409]) as Hcode.
  { rewrite !elem_of_cons.
    cbn [handle]. destruct (authenticateToken_outcomes h) as [-> | ->];
      cbn [mbind Step_bind snd status_code respond unauthorized]; [|auto].
    destruct (update_handler env st id body) as [[st' r]|r|] eqn:Hupdate; cbn [snd].
    - apply update_handler_Next in Hupdate as (? & ? & _ & _ & _ & _ & ->). auto.
    - apply update_handler_Send_cases in Hupdate as [Hcode _]. tauto.
    - by apply update_handler_no_Throw in Hupdate. }
  split; [|done]. split.
  - intros H500. rewrite H500, !elem_of_cons, elem_of_nil in Hcode. lia.
  - by intros [h0 [=]].
Qed.

End Responses.

(** [error_body_exactly_on_error] at the example store, for a refused
    change from pending to delivered. *)
Lemma error_body_exactly_on_error_witness :
  ∃ error message,
    payload (handle Example.later Example.store
               (PATCH_status Example.headers "ord-0001"
                  (Example.status_body "delivered"))).2
    = ErrorBody error message.
Proof.
  apply (error_body_exactly_on_error Example.later Example.store
           (PATCH_status Example.headers "ord-0001" (Example.status_body "delivered"))).
  vm_compute. discriminate.
Defined.

(** [create_handler_never_fails] for a valid create under a new key. *)
Lemma create_handler_never_fails_witness :
  status_code (serve Example.env Example.store
                 (Parsed (POST_orders Example.fresh_headers Example.create_body))).2 = 200
  ∨ status_code (serve Example.env Example.store
                   (Parsed (POST_orders Example.fresh_headers Example.create_body))).2 = 201.
Proof.
  refine (proj1 (proj2 (create_handler_never_fails Example.env Example.store
                          (Parsed (POST_orders Example.fresh_headers Example.create_body))
                          _))
            Example.fresh_headers Example.create_body _ _ _).
  - reflexivity.
  - reflexivity.
  - reflexivity.
  - vm_compute. reflexivity.
Defined.

(** [status_update_fails_only_unparsed] at the example store, for a status
    that is the number 42. *)
Lemma status_update_fails_only_unparsed_witness :
  status_code (serve Example.later Example.store
                 (Parsed (PATCH_status Example.headers "ord-0001"
                            [("status", JNum (Num.of_Z 42))]))).2
  ∈ [200; 400; 401; 404; 409].
Proof.
  refine (proj2 (status_update_fails_only_unparsed Example.later Example.store
                   (Parsed (PATCH_status Example.headers "ord-0001"
                              [("status", JNum (Num.of_Z 42))])) _ _) _ _).
  - exact (reachable_request Example.env empty_store
             (POST_orders Example.headers Example.create_body) reachable_start).
  - reflexivity.
  - reflexivity.
Defined.

(** ** The order store over time *)

Section Orders.
Context `{Runtime}.
Implicit Types (st : Store) (h : Headers) (body : object) (o : Order).

Lemma handle_keeps_order env st req id :
  is_Some (JsMap.get id (orders st)) →
  is_Some (JsMap.get id (orders (handle env st req).1)).
Proof.
  intros Hstored.
  destruct (handle_cases env st req)
    as [(-> & _)
       |[(h & body & order & _ & _ & _ & ->)
        |(h & id' & body & o & target & _ & _ & _ & _ & ->)]];
    [done|..]; cbn [fst orders].
  - destruct (decide (Order.orderId order = id)) as [<-|Hne].
    + rewrite get_set_eq. eauto.
    + by rewrite get_set_ne.
  - destruct (decide (id' = id)) as [<-|Hne].
    + rewrite get_set_eq. eauto.
    + by rewrite get_set_ne.
Qed.

(** Only a create that stores a new order is answered 201. *)
Lemma created_code env st req :
  status_code (handle env st req).2 = 201 →
  ∃ h body order,
    req = POST_orders h body
    ∧ Order.orderId order = "ord-" +:+ uuid env
    ∧ orders (handle env st req).1 = JsMap.set (Order.orderId order) order (orders st).
Proof.
  intros Hcode.
  destruct (handle_cases env st req)
    as [(Hst & Hpost & _)
       |[(h & body & order & -> & _ & Hid & Heq)
        |(h & id' & body & o & target & _ & _ & _ & _ & Heq)]].
  - pose proof (handle_response env st req) as Hshape. cbv zeta in Hshape.
    destruct (payload _); try lia.
    destruct Hshape as [Hok | [_ (h & body & ->)]]; [lia|].
    by destruct (Hpost h body eq_refl).
  - exists h, body, order. by rewrite Heq.
  - by rewrite Heq in Hcode.
Qed.

(** X12. No request removes an order: an identifier under which an order is
    stored has one stored under it after any sequence of requests.  The
    number of stored orders changes only by a create answered 201, which
    adds one order when the generated identifier is new. *)
Theorem orders_are_never_removed env st req trace :
  let answer := handle env st req in
  (∀ id, is_Some (JsMap.get id (orders st)) →
         is_Some (JsMap.get id (orders (run trace st))))
  ∧ (status_code answer.2 ≠ 201 → length (orders answer.1) = length (orders st))
  ∧ (status_code answer.2 = 201 →
     JsMap.get ("ord-" +:+ uuid env) (orders st) = None →
     length (orders answer.1) = S (length (orders st))).
Proof.
  intros answer. subst answer. split_and!.
  - revert st. induction trace as [|[env' req'] trace IH]; intros st id Hstored; [done|].
    apply IH. by apply handle_keeps_order.
  - intros Hcode.
    destruct (handle_cases env st req)
      as [(-> & _)
         |[(h & body & order & _ & _ & _ & Heq)
          |(h & id' & body & o & target & _ & Hget & _ & _ & ->)]].
    + done.
    + by rewrite Heq in Hcode.
    + cbn [fst orders]. by rewrite set_length, Hget.
  - intros (h & body & order & _ & Hid & ->)%created_code Hnew.
    by rewrite set_length, Hid, Hnew.
Qed.

(** The order in a response is the one stored under its identifier when
    the request is done. *)
Lemma answered_order_stored env st req code o :
  keyed_by_id (orders st) →
  (handle env st req).2 = respond code (OrderBody o) →
  JsMap.get (Order.orderId o) (orders (handle env st req).1) = Some o.
Proof.
  intros Hkeyed.
  destruct req as [|h body|h id|h q|h id body].
  - done.
  - destruct (handle_create_outcomes env st h body)
      as [[_ ->]|[(_ & r & Hsend & ->)|[(_ & _ & ->)|[(_ & _ & id & Hkey & ->)
         |(_ & _ & _ & array & copied & numbers & _ & _ & _ & ->)]]]];
      cbn [fst snd]; try done.
    + apply validateCreateOrder_Send in Hsend as [_ [message Hpayload]].
      intros ->. done.
    + destruct (JsMap.get id (orders st)) as [o0|] eqn:Hget0; [|done].
      intros [= _ <-]. by rewrite (keyed_get _ _ _ Hkeyed Hget0).
    + intros [= _ <-]. apply get_set_eq.
  - cbn [handle]. destruct (authenticateToken_outcomes h) as [-> | ->]; [|done].
    cbn [fst snd]. unfold get_handler.
    destruct (JsMap.get id (orders st)) as [o0|] eqn:Hget0.
    + assert (JsMap.has id (orders st) = true) as -> by (apply has_true; eauto).
      intros [= _ <-]. by rewrite (keyed_get _ _ _ Hkeyed Hget0).
    + apply has_false in Hget0 as ->. done.
  - cbn [handle fst snd]. destruct (authenticateToken_outcomes h) as [-> | ->]; [|done].
    cbn [mbind Step_bind]. unfold search_handler.
    destruct (search_filter st q) as [found|r|] eqn:Hfilter; [done| |done].
    apply search_filter_Send in Hfilter as [_ [message Hpayload]].
    cbn [mbind Step_bind finish]. intros ->. done.
  - cbn [handle]. destruct (authenticateToken_outcomes h) as [-> | ->]; [|done].
    cbn [mbind Step_bind].
    destruct (update_handler env st id body) as [[st' r]|r|] eqn:Hupdate; [| |done].
    + apply update_handler_Next in Hupdate as (o0 & target & Hget0 & _ & _ & -> & ->).
      cbn [fst snd orders]. intros [= _ <-]. cbn [updated Order.orderId].
      rewrite (keyed_get _ _ _ Hkeyed Hget0). apply get_set_eq.
    + apply update_handler_Send_cases in Hupdate as [_ (error & message & Hpayload)].
      cbn [snd]. intros ->. done.
Qed.

(** X13. In every store the server can reach, an order sent in a response
    (by a create, a replay, a status update or a lookup) can be read back
    at once: an authorized GET of its [orderId], addressed to the store
    that the request has left, is answered 200 with that order.  A GET of
    an identifier under which nothing is stored is answered 404. *)
Theorem answered_order_can_be_read env st req code o env' h :
  reachable st →
  (handle env st req).2 = respond code (OrderBody o) →
  authorized h →
  let st1 := (handle env st req).1 in
  handle env' st1 (GET_order h (Order.orderId o)) = (st1, respond 200 (OrderBody o))
  ∧ ∀ id, JsMap.get id (orders st1) = None →
      handle env' st1 (GET_order h id)
      = (st1, respond 404 (ErrorBody "NOT_FOUND" "Order not found")).
Proof.
  intros Hreach Hanswer Hauth st1.
  assert (∀ id, handle env' st1 (GET_order h id) = (st1, get_handler st1 id)) as Hget
    by (intros id; cbn [handle]; by rewrite Hauth).
  split.
  - apply answered_order_stored in Hanswer as Hstored; [|by apply reachable_keyed].
    fold st1 in Hstored. rewrite Hget. unfold get_handler.
    assert (JsMap.has (Order.orderId o) (orders st1) = true) as ->
      by (apply has_true; eauto).
    by rewrite Hstored.
  - intros id Hnone. rewrite Hget. unfold get_handler.
    apply has_false in Hnone. by rewrite Hnone.
Qed.

End Orders.

(** [orders_are_never_removed] at the example store: a create under a new
    key makes two orders of one. *)
Lemma orders_are_never_removed_witness :
  length (orders (handle Example.later Example.store
                    (POST_orders Example.fresh_headers Example.create_body)).1)
  = 2%nat.
Proof.
  refine (proj2 (proj2 (orders_are_never_removed Example.later Example.store
            (POST_orders Example.fresh_headers Example.create_body) [])) _ _).
  - vm_compute. reflexivity.
  - reflexivity.
Defined.

(** [answered_order_can_be_read] for the first create of the test suite. *)
Lemma answered_order_can_be_read_witness :
  handle Example.later
    (handle Example.env empty_store (POST_orders Example.headers Example.create_body)).1
    (GET_order Example.headers "ord-0001")
  = ((handle Example.env empty_store (POST_orders Example.headers Example.create_body)).1,
     respond 200 (OrderBody Example.order)).
Proof.
  refine (proj1 (answered_order_can_be_read Example.env empty_store
            (POST_orders Example.headers Example.create_body) 201 Example.order
            Example.later Example.headers _ _ _)).
  - exact reachable_start.
  - vm_compute. reflexivity.
  - reflexivity.
Defined.

(** ** The lifecycle of an order *)

Section Lifecycle.
Context `{Runtime}.
Implicit Types (st : Store) (h : Headers) (body : object) (o : Order).

Lemma permitted_rank current target :
  permitted current target → (rank current < rank target)%nat.
Proof. destruct 1; vm_compute; lia. Qed.

Lemma terminal_no_successor current target :
  terminal current → can_transition current target = false.
Proof. by intros [-> | ->]. Qed.

(** What one request does to a stored order, unless it is a create that
    generates the identifier of that order: nothing, or a permitted change
    of status. *)
Lemma handle_order_step env st req id o :
  JsMap.get id (orders st) = Some o →
  "ord-" +:+ uuid env ≠ id →
  JsMap.get id (orders (handle env st req).1) = Some o
  ∨ ∃ target reason,
      permitted (Order.status o) target
      ∧ JsMap.get id (orders (handle env st req).1) = Some (updated env o target reason).
Proof.
  intros Hget Hfresh.
  destruct (handle_cases env st req)
    as [(-> & _)
       |[(h & body & order & _ & _ & Hid & ->)
        |(h & id' & body & o0 & target & _ & Hget0 & _ & Hcan & ->)]];
    cbn [fst orders].
  - by left.
  - left. rewrite get_set_ne; [done|]. by rewrite Hid.
  - destruct (decide (id' = id)) as [->|Hne].
    + right. rewrite Hget in Hget0. injection Hget0 as <-.
      exists target, (lookup_prop "reason" body).
      split; [by apply permitted_can_transition|apply get_set_eq].
    + left. by rewrite get_set_ne.
Qed.

(** X14. An order whose status is delivered or cancelled is never changed
    again: whatever requests follow, it stays stored as it is, so long as
    no create generates its identifier again. *)
Theorem terminal_order_is_final trace st id o :
  JsMap.get id (orders st) = Some o →
  terminal (Order.status o) →
  never_generates id trace →
  JsMap.get id (orders (run trace st)) = Some o.
Proof.
  intros Hget Hterminal Hfresh. revert st Hget.
  induction Hfresh as [|[env req] trace Hstep _ IH]; intros st Hget; [done|].
  apply IH.
  destruct (handle_order_step env st req id o Hget Hstep)
    as [Hsame|(target & reason & Hpermitted & _)]; [done|].
  apply permitted_can_transition in Hpermitted.
  by rewrite terminal_no_successor in Hpermitted.
Qed.

(** X15. The status of an order only moves forward in the list pending,
    confirmed, processing, shipped, delivered, cancelled: after any
    requests, the order is stored with the status it had or with one
    further along, so long as no create generates its identifier again.
    A status once left is never taken again. *)
Theorem status_only_advances trace st id o :
  JsMap.get id (orders st) = Some o →
  never_generates id trace →
  ∃ o', JsMap.get id (orders (run trace st)) = Some o'
        ∧ (Order.status o' = Order.status o
           ∨ (rank (Order.status o) < rank (Order.status o'))%nat).
Proof.
  intros Hget Hfresh. revert st o Hget.
  induction Hfresh as [|[env req] trace Hstep _ IH]; intros st o Hget.
  - exists o. auto.
  - destruct (handle_order_step env st req id o Hget Hstep)
      as [Hsame|(target & reason & Hpermitted%permitted_rank & Hnew)].
    + by apply IH.
    + destruct (IH _ _ Hnew) as (o' & Hget' & Hrank). exists o'. split; [done|].
      right. cbn [updated Order.status] in Hrank.
      destruct Hrank as [-> | Hlt]; [done|lia].
Qed.

End Lifecycle.

(** [terminal_order_is_final] for the example order once cancelled: a
    request to make it pending again leaves it as it is. *)
Lemma terminal_order_is_final_witness :
  let cancelled := updated Example.later Example.order "cancelled" undefined in
  let st := {| orders := [("ord-0001", cancelled)];
               idempotencyKeys := {[ Some "key-1" := "ord-0001" ]} |} in
  JsMap.get "ord-0001"
    (orders (run [(Example.later,
                   PATCH_status Example.headers "ord-0001" (Example.status_body "pending"))]
               st))
  = Some cancelled.
Proof.
  intros cancelled st.
  apply (terminal_order_is_final
           [(Example.later,
             PATCH_status Example.headers "ord-0001" (Example.status_body "pending"))]
           st "ord-0001" cancelled).
  - reflexivity.
  - right. reflexivity.
  - repeat constructor. cbn. discriminate.
Defined.

(** [status_only_advances] at the example store, for a confirmation. *)
Lemma status_only_advances_witness :
  ∃ o', JsMap.get "ord-0001"
          (orders (run [(Example.later,
                         PATCH_status Example.headers "ord-0001"
                           (Example.status_body "confirmed"))]
                     Example.store))
        = Some o'
        ∧ (Order.status o' = "pending" ∨ (rank "pending" < rank (Order.status o'))%nat).
Proof.
  apply (status_only_advances
           [(Example.later,
             PATCH_status Example.headers "ord-0001" (Example.status_body "confirmed"))]
           Example.store "ord-0001" Example.order).
  - reflexivity.
  - repeat constructor. cbn. discriminate.
Defined.

(** ** The page of a search *)

Section Slices.
Context {A : Type}.
Implicit Types (l : list A).

Lemma slice_sublist l (start stop : num) : slice l start stop `sublist_of` l.
Proof.
  unfold slice. etrans; [apply sublist_take|apply sublist_drop].
Qed.

Lemma sublist_Sorted (R : A → A → Prop) l1 l2 :
  (∀ x y z, R x y → R y z → R x z) →
  l1 `sublist_of` l2 → Sorted R l2 → Sorted R l1.
Proof.
  intros Htrans Hsub Hsorted. apply StronglySorted_Sorted.
  apply Sorted_StronglySorted in Hsorted; [|exact Htrans].
  induction Hsub as [|x l1 l2 Hsub IH|x l1 l2 Hsub IH].
  - constructor.
  - apply StronglySorted_inv in Hsorted as [Htail Hhead].
    constructor; [by apply IH|].
    rewrite Forall_forall in Hhead |- *. intros y Hy. apply Hhead.
    by eapply elem_of_sublist.
  - apply StronglySorted_inv in Hsorted as [Htail _]. by apply IH.
Qed.

(** The first twenty: the slice from 0 to 0 + min(20, 100). *)
Lemma slice_default l :
  slice l (Num.of_Z 0) (Num.add (Num.of_Z 0) (Num.Math_min (Num.of_Z 20) (Num.of_Z 100)))
  = take 20 l.
Proof.
  unfold slice.
  replace (Num.ToIntegerOrInfinity (Num.of_Z 0)) with (Num.Fin 0)
    by (vm_compute; reflexivity).
  replace (Num.ToIntegerOrInfinity
             (Num.add (Num.of_Z 0) (Num.Math_min (Num.of_Z 20) (Num.of_Z 100))))
    with (Num.Fin 20) by (vm_compute; reflexivity).
  cbn [slice_bound]. change (0 <? 0) with false. change (20 <? 0) with false.
  cbv iota. rewrite (Z.min_l 0) by lia. change (Z.to_nat 0) with 0%nat.
  rewrite drop_0, Z.sub_0_r.
  destruct (decide (20 ≤ Z.of_nat (length l))) as [Hlong|Hshort].
  - by rewrite Z.min_l by lia.
  - rewrite Z.min_r by lia. rewrite !take_ge; [done|lia..].
Qed.

End Slices.

Section Page.
Context `{Runtime}.
Implicit Types (st : Store) (h : Headers) (q : Query).

(** What a search answered 200 has done. *)
Lemma search_answer env st h q page total limit offset :
  (handle env st (GET_orders h q)).2 = respond 200 (SearchBody page total limit offset) →
  ∃ found,
    search_filter st q = Next found
    ∧ page = slice found (offsetNum q) (Num.add (offsetNum q) (limitNum q))
    ∧ total = length found.
Proof.
  cbn [handle snd]. destruct (authenticateToken_outcomes h) as [-> | ->]; [|done].
  cbn [mbind Step_bind]. unfold search_handler.
  destruct (search_filter st q) as [found|r|] eqn:Hfilter;
    cbn [mbind Step_bind finish]; [| |done].
  - intros [= <- <- _ _]. by exists found.
  - apply search_filter_Send in Hfilter as [_ [message Hpayload]]. intros ->. done.
Qed.

(** X16. The page of a search answered 200 holds only stored orders of
    the customer asked for whose placement time lies in the date window,
    newest first, and never more of them than totalCount. *)
Theorem page_holds_matching_orders env st h q page total limit offset :
  (handle env st (GET_orders h q)).2 = respond 200 (SearchBody page total limit offset) →
  ∃ customer,
    q_customerId q = Some customer
    ∧ (length page ≤ total)%nat
    ∧ Sorted (λ a b, Order.placementDate b ≤ Order.placementDate a) page
    ∧ ∀ o, o ∈ page →
        o ∈ JsMap.values (orders st)
        ∧ Order.customerId o = Some (JStr customer)
        ∧ (∀ start, window_start q = Some start → start ≤ Order.placementDate o)
        ∧ (∀ stop, window_stop q = Some stop → Order.placementDate o ≤ stop).
Proof.
  intros (found & Hfilter & -> & ->)%search_answer.
  pose proof (slice_sublist found (offsetNum q) (Num.add (offsetNum q) (limitNum q)))
    as Hsub.
  apply search_filter_Next in Hfilter as (customer & Hcustomer & _ & _ & _ & Hfound).
  exists customer. split_and!.
  - done.
  - by apply sublist_length.
  - eapply sublist_Sorted; [|done|rewrite Hfound; apply sort_sorted].
    intros x y z. cbn beta. lia.
  - intros o Ho. eapply elem_of_sublist in Ho; [|done].
    rewrite Hfound, sort_perm, elem_of_filter_bool, matches_spec in Ho. tauto.
Qed.

(** X17. A search without [limit] and [offset] that gets as far as
    pagination is answered with the first twenty of the matching orders,
    newest first, and with limit 20 and offset 0. *)
Theorem default_page_is_first_twenty env st h q found :
  authorized h →
  q_limit q = None →
  q_offset q = None →
  search_filter st q = Next found →
  handle env st (GET_orders h q)
  = (st, respond 200 (SearchBody (take 20 found) (length found)
                        (Num.of_Z 20) (Num.of_Z 0))).
Proof.
  intros Hauth Hlimit Hoffset Hfilter.
  rewrite handle_search_authorized by done. unfold search_handler.
  rewrite Hfilter, Hlimit, Hoffset. cbn [mbind Step_bind finish from_option].
  rewrite slice_default. do 3 f_equal.
Qed.

End Page.

(** [page_holds_matching_orders] for the example search. *)
Lemma page_holds_matching_orders_witness :
  ∃ customer,
    q_customerId Example.search = Some customer
    ∧ (length [Example.order] ≤ 1)%nat
    ∧ Sorted (λ a b, Order.placementDate b ≤ Order.placementDate a) [Example.order]
    ∧ ∀ o, o ∈ [Example.order] →
        o ∈ JsMap.values (orders Example.store)
        ∧ Order.customerId o = Some (JStr customer)
        ∧ (∀ start, window_start Example.search = Some start
             → start ≤ Order.placementDate o)
        ∧ (∀ stop, window_stop Example.search = Some stop
             → Order.placementDate o ≤ stop).
Proof.
  apply (page_holds_matching_orders Example.later Example.store Example.headers
           Example.search [Example.order] 1 (Num.of_Z 100) (Num.of_Z 0)).
  vm_compute. reflexivity.
Defined.

(** [default_page_is_first_twenty] for the example search without its
    page parameters. *)
Lemma default_page_is_first_twenty_witness :
  handle Example.later Example.store
    (GET_orders Example.headers (with_page Example.search None None))
  = (Example.store,
     respond 200 (SearchBody [Example.order] 1 (Num.of_Z 20) (Num.of_Z 0))).
Proof.
  apply (default_page_is_first_twenty Example.later Example.store Example.headers
           (with_page Example.search None None) [Example.order]).
  - reflexivity.
  - reflexivity.
  - reflexivity.
  - vm_compute. reflexivity.
Defined.

(** ** The items of a create request *)

(** For a number that is neither zero nor NaN, [x <= 0] and [x < 0] both
    say that [0 < x] is false. *)
Lemma nonzero_sign (x : num) :
  Num.is_zero x = false → Num.is_nan x = false →
  Num.leb x Num.zero = negb (Num.ltb Num.zero x)
  ∧ Num.ltb x Num.zero = negb (Num.ltb Num.zero x).
Proof. by destruct x as [[]|[]| |[] m e]. Qed.

Section Items.
Context `{Runtime}.
Implicit Types (st : Store) (h : Headers) (body : object) (item : json).

Lemma for_of_app {A} (f : A → Step ()) (l1 l2 : list A) :
  Forall (λ x, f x = Next ()) l1 → for_of f (l1 ++ l2) = for_of f l2.
Proof.
  induction 1 as [|x l1 Hx _ IH]; [done|].
  cbn [app for_of]. by rewrite Hx.
Qed.

(** X18. An item with a truthy productId whose quantity and unitPrice are
    numbers passes the validation exactly when both are greater than
    zero.  A quantity or a unit price that is 0 or NaN is answered
    "Each item must have productId, quantity, and unitPrice", and a
    negative one "Quantity must be positive and unitPrice must be
    non-negative"; no exception is raised. *)
Theorem numeric_item_validation item productId q p :
  get_prop item "productId" = Some productId →
  truthy productId = true →
  get_prop item "quantity" = Some (Some (JNum q)) →
  get_prop item "unitPrice" = Some (Some (JNum p)) →
  validate_item item =
    if Num.is_zero q || Num.is_nan q || Num.is_zero p || Num.is_nan p
    then Send (validation_error "Each item must have productId, quantity, and unitPrice")
    else if Num.ltb Num.zero q && Num.ltb Num.zero p then Next ()
    else Send (validation_error
                 "Quantity must be positive and unitPrice must be non-negative").
Proof.
  intros Hid Htruthy Hqty Hprice. unfold validate_item.
  rewrite Hid, Hqty, Hprice. cbn [or_throw mbind Step_bind]. rewrite Htruthy.
  cbn [truthy negb orb ToNumber or_throw].
  destruct (Num.is_zero q) eqn:Hq0, (Num.is_nan q) eqn:Hqn,
    (Num.is_zero p) eqn:Hp0, (Num.is_nan p) eqn:Hpn;
    cbn [negb orb reject_if mbind Step_bind]; try done.
  destruct (nonzero_sign q Hq0 Hqn) as [-> _].
  destruct (nonzero_sign p Hp0 Hpn) as [_ ->].
  by destruct (Num.ltb Num.zero q), (Num.ltb Num.zero p).
Qed.

(** X19. The items are examined in their order and the first one that
    does not pass decides the answer: its 400 response is sent, or, when
    it raises an exception, the 500 of the error middleware.  The items
    after it are not looked at, and nothing is stored. *)
Theorem first_invalid_item_decides env st h body good bad rest :
  authorized h →
  truthy_str (idempotency_key h) = true →
  truthy (lookup_prop "customerId" body) = true →
  lookup_prop "items" body = Some (JArr (good ++ bad :: rest)) →
  Forall (λ item, validate_item item = Next ()) good →
  (∀ r, validate_item bad = Send r →
        handle env st (POST_orders h body) = (st, r))
  ∧ (validate_item bad = Throw →
     handle env st (POST_orders h body) = (st, error_middleware)).
Proof.
  intros Hauth Hkey Hcustomer Hitems Hgood.
  rewrite handle_create_authorized by done.
  destruct (create_validation_order h body) as (_ & _ & _ & Horder).
  rewrite (Horder (good ++ bad :: rest)); [|done..|by destruct good].
  rewrite for_of_app by done. cbn [for_of].
  split; [intros r ->|intros ->]; done.
Qed.

End Items.

(** [numeric_item_validation] for an item with the unit price 0. *)
Lemma numeric_item_validation_witness :
  validate_item (sample_item "prod-001" 1 Num.zero)
  = Send (validation_error "Each item must have productId, quantity, and unitPrice").
Proof.
  apply (numeric_item_validation (sample_item "prod-001" 1 Num.zero)
           (Some (JStr "prod-001")) (Num.of_Z 1) Num.zero).
  - reflexivity.
  - reflexivity.
  - reflexivity.
  - reflexivity.
Defined.

(** [first_invalid_item_decides] for three items: a valid one, one with
    the quantity -1, and [null], which is not reached. *)
Lemma first_invalid_item_decides_witness :
  handle Example.env Example.store
    (POST_orders Example.fresh_headers
       [("customerId", JStr "test-customer-123");
        ("items", JArr [sample_item "prod-001" 2 (Num.dec 2999 2);
                        sample_item "prod-002" (-1) (Num.dec 1550 2);
                        JNull])])
  = (Example.store,
     validation_error "Quantity must be positive and unitPrice must be non-negative").
Proof.
  refine (proj1 (first_invalid_item_decides Example.env Example.store
            Example.fresh_headers
            [("customerId", JStr "test-customer-123");
             ("items", JArr [sample_item "prod-001" 2 (Num.dec 2999 2);
                             sample_item "prod-002" (-1) (Num.dec 1550 2);
                             JNull])]
            [sample_item "prod-001" 2 (Num.dec 2999 2)]
            (sample_item "prod-002" (-1) (Num.dec 1550 2))
            [JNull] _ _ _ _ _) _ _).
  - reflexivity.
  - reflexivity.
  - reflexivity.
  - reflexivity.
  - repeat constructor.
  - vm_compute. reflexivity.
Defined.

(** ** Seed data *)

Lemma set_set {V} k (v v' : V) (m : list (string * V)) :
  JsMap.set k v' (JsMap.set k v m) = JsMap.set k v' m.
Proof.
  induction m as [|[k0 v0] m IH]; cbn [JsMap.set].
  - by rewrite decide_True.
  - destruct (decide (k = k0)) as [->|Hne]; cbn [JsMap.set].
    + by rewrite decide_True.
    + by rewrite decide_False, IH.
Qed.

Section Seed.
Context `{Runtime}.
Implicit Types (st : Store).

(** One round of the loop: the order is built by [createOrder], and what
    stays in [orders] is the copy with the status of that round. *)
Lemma seed_one_array index env customerId array copied numbers st :
  map_step copy_item array = Next copied →
  mapM item_numbers array = Some numbers →
  seed_one index env (customerId, Some (JArr array)) st =
    let order := created env customerId copied (float_sum numbers) in
    let status :=
      if decide (index = 1%nat) then "confirmed"
      else if decide (index = 2%nat) then "shipped" else "pending" in
    Next {| orders := JsMap.set ("ord-" +:+ uuid env) (with_status order status) (orders st);
            idempotencyKeys := idempotencyKeys st |}.
Proof.
  intros Hcopy Hnum. unfold seed_one. cbn [fst snd].
  rewrite (createOrder_array _ _ _ _ _ _ Hcopy Hnum).
  cbn [mbind Step_bind created Order.orderId Order.status orders idempotencyKeys].
  by rewrite set_set.
Qed.

(** X20. [seedData] raises no exception and leaves the ledger as it is.
    It stores three orders under the identifiers generated for them, one
    after the other: a pending order of cust-12345 with total 75.48, a
    confirmed order of cust-12345 with total 99.99 and a shipped order of
    cust-67890 with total 89.97. *)
Theorem seedData_stores_three_orders e0 e1 e2 st :
  ∃ o0 o1 o2,
    seedData e0 e1 e2 st =
      Next {| orders :=
                JsMap.set ("ord-" +:+ uuid e2) o2
                  (JsMap.set ("ord-" +:+ uuid e1) o1
                     (JsMap.set ("ord-" +:+ uuid e0) o0 (orders st)));
              idempotencyKeys := idempotencyKeys st |}
    ∧ (Order.orderId o0, Order.customerId o0, Order.status o0, Order.totalAmount o0)
      = ("ord-" +:+ uuid e0, Some (JStr "cust-12345"), "pending", Num.dec 7548 2)
    ∧ (Order.orderId o1, Order.customerId o1, Order.status o1, Order.totalAmount o1)
      = ("ord-" +:+ uuid e1, Some (JStr "cust-12345"), "confirmed", Num.dec 9999 2)
    ∧ (Order.orderId o2, Order.customerId o2, Order.status o2, Order.totalAmount o2)
      = ("ord-" +:+ uuid e2, Some (JStr "cust-67890"), "shipped", Num.dec 8997 2).
Proof.
  unfold seedData, sampleOrders.
  erewrite (seed_one_array 0 e0); [|reflexivity|vm_compute; reflexivity].
  cbn [mbind Step_bind].
  erewrite (seed_one_array 1 e1); [|reflexivity|vm_compute; reflexivity].
  cbn [mbind Step_bind].
  erewrite (seed_one_array 2 e2); [|reflexivity|vm_compute; reflexivity].
  cbv zeta. cbn [orders idempotencyKeys].
  eexists _, _, _. split; [reflexivity|].
  cbn [with_status created Order.orderId Order.customerId Order.status Order.totalAmount].
  split_and!; f_equal; vm_compute; reflexivity.
Qed.

End Seed.

(** ** Pages at the bounds *)

Section Bounds.
Context {A : Type}.
Implicit Types (l : list A).

Lemma slice_bound_nonneg (len : Z) (i : Num.int_or_inf) : 0 ≤ len → 0 ≤ slice_bound len i.
Proof.
  intros Hlen. destruct i as [|z|]; cbn [slice_bound]; [lia| |lia].
  destruct (Z.ltb_spec z 0); lia.
Qed.

(** A slice that stops at NaN is empty. *)
Lemma slice_stop_NaN l (start : num) : slice l start Num.NaN = [].
Proof.
  unfold slice. cbn [Num.ToIntegerOrInfinity Num.NaN slice_bound].
  change (0 <? 0) with false. cbv iota.
  pose proof (slice_bound_nonneg (Z.of_nat (length l)) (Num.ToIntegerOrInfinity start)).
  replace (Z.to_nat _) with 0%nat by lia. done.
Qed.

(** A slice that starts at or after the end of the list is empty. *)
Lemma slice_start_past_end l (start stop : num) z :
  Num.ToIntegerOrInfinity start = Num.Fin z →
  Z.of_nat (length l) ≤ z →
  slice l start stop = [].
Proof.
  intros Hstart Hpast. unfold slice. rewrite Hstart. cbn [slice_bound].
  destruct (Z.ltb_spec z 0); [lia|]. rewrite Z.min_r by lia.
  rewrite Nat2Z.id, drop_all. by rewrite take_nil.
Qed.

End Bounds.

Lemma add_NaN_r (x : num) : Num.add x Num.NaN = Num.NaN.
Proof. by destruct x as [[]|[]| |[] m e]. Qed.

Section EmptyPages.
Context `{Runtime}.
Implicit Types (st : Store) (h : Headers) (q : Query).

(** X21. A search whose [limit] or [offset] does not read as a number is
    not refused: it is answered 200 with an empty page, with the
    totalCount of the matching orders, and with the limit and offset as
    computed (NaN for the one that is not a number). *)
Theorem non_numeric_page_is_empty env st h q found :
  authorized h →
  search_filter st q = Next found →
  (∃ s, q_limit q = Some s ∧ parseInt s = Num.NaN)
  ∨ (∃ s, q_offset q = Some s ∧ parseInt s = Num.NaN) →
  handle env st (GET_orders h q)
  = (st, respond 200 (SearchBody [] (length found) (limitNum q) (offsetNum q))).
Proof.
  intros Hauth Hfilter Hnan.
  rewrite handle_search_authorized by done. unfold search_handler.
  rewrite Hfilter. cbn [mbind Step_bind finish]. fold (limitNum q) (offsetNum q).
  do 3 f_equal.
  destruct Hnan as [(s & Hs & Hparse)|(s & Hs & Hparse)].
  - assert (limitNum q = Num.NaN) as ->
      by (unfold limitNum; by rewrite Hs; cbn [from_option]; rewrite Hparse).
    rewrite add_NaN_r. apply slice_stop_NaN.
  - assert (offsetNum q = Num.NaN) as ->
      by (unfold offsetNum; by rewrite Hs; cbn [from_option]; rewrite Hparse).
    change (Num.add Num.NaN (limitNum q)) with Num.NaN. apply slice_stop_NaN.
Qed.

(** X22. A search whose [offset] is at or beyond the number of matching
    orders is answered 200 with an empty page and the same totalCount. *)
Theorem offset_past_the_end_is_empty env st h q found z :
  authorized h →
  search_filter st q = Next found →
  Num.ToIntegerOrInfinity (offsetNum q) = Num.Fin z →
  Z.of_nat (length found) ≤ z →
  handle env st (GET_orders h q)
  = (st, respond 200 (SearchBody [] (length found) (limitNum q) (offsetNum q))).
Proof.
  intros Hauth Hfilter Hoffset Hpast.
  rewrite handle_search_authorized by done. unfold search_handler.
  rewrite Hfilter. cbn [mbind Step_bind finish]. fold (limitNum q) (offsetNum q).
  do 3 f_equal. by eapply slice_start_past_end.
Qed.

End EmptyPages.

(** [non_numeric_page_is_empty] for the example search with the limit
    "ten". *)
Lemma non_numeric_page_is_empty_witness :
  handle Example.later Example.store
    (GET_orders Example.headers (with_page Example.search (Some "ten") None))
  = (Example.store, respond 200 (SearchBody [] 1 Num.NaN (Num.of_Z 0))).
Proof.
  refine (eq_trans
            (non_numeric_page_is_empty Example.later Example.store Example.headers
               (with_page Example.search (Some "ten") None) [Example.order] _ _ _) _).
  - reflexivity.
  - vm_compute. reflexivity.
  - left. exists "ten". split; reflexivity.
  - vm_compute. reflexivity.
Defined.

(** [offset_past_the_end_is_empty] for the example search, which matches
    one order, with the offset 1. *)
Lemma offset_past_the_end_is_empty_witness :
  handle Example.later Example.store
    (GET_orders Example.headers (with_page Example.search None (Some "1")))
  = (Example.store, respond 200 (SearchBody [] 1 (Num.of_Z 20) (Num.of_Z 1))).
Proof.
  refine (eq_trans
            (offset_past_the_end_is_empty Example.later Example.store Example.headers
               (with_page Example.search None (Some "1")) [Example.order] 1 _ _ _ _) _).
  - reflexivity.
  - vm_compute. reflexivity.
  - vm_compute. reflexivity.
  - vm_compute. discriminate.
  - vm_compute. reflexivity.
Defined.
